(** * Probabilistic interleaving: a shallow embedding of
      [interleaving/probabilistic.py] and the properties checked on it.

    The Python module is translated function by function.  Mutable objects
    (the linked [RemovalNode]s, the class-level node pool, the [RemovalList]
    headers) live in an explicit store that is threaded through every
    operation; exceptions are an explicit outcome; the numpy random source is
    a family of oracle functions indexed by the number of draws made so far.
    Floating-point arithmetic is kept abstract behind the operations the
    module uses. *)

From stdpp Require Import base option list sorting gmap.
From Stdlib Require Import ZArith QArith Qround Qpower Lia.

Local Open Scope Z_scope.
Local Open Scope nat_scope.

(** ** Outcomes of a Python computation *)

Inductive exn := AttributeError | IndexError.

(** [Timeout] is only produced by the fuel of the [while True] loop of
    [multileave]; Python itself would keep running. *)
Inductive outcome (A : Type) : Type :=
| Ok (a : A)
| Raise (e : exn)
| Timeout.
Arguments Ok {A} a.
Arguments Raise {A} e.
Arguments Timeout {A}.

Definition obind {A B} (m : outcome A) (k : A → outcome B) : outcome B :=
  match m with
  | Ok a => k a
  | Raise e => Raise e
  | Timeout => Timeout
  end.

Declare Scope outcome_scope.
Delimit Scope outcome_scope with O.
Notation "x <- e ;; k" := (obind e (fun x => k))
  (at level 100, e at next level, right associativity) : outcome_scope.

(** ** Arithmetic on Python floats

    Only the operations the module applies to floats are needed.  Integer
    literals that meet a float ([0], [1], the rank [r]) are coerced with
    [of_int], as Python does. *)

Class FloatOps (F : Type) := {
  of_int : Z → F;
  fadd : F → F → F;
  fdiv : F → F → F;
  fpow : F → F → F;
  fltb : F → F → bool;
}.

(** [x <= y] on floats, read off the only comparison the module uses. *)
Definition fle `{FloatOps F} (x y : F) : Prop := fltb y x = false.

(** What the monotonicity of a cumulative table rests on.  Each law holds
    for exact arithmetic and for round-to-nearest arithmetic on finite
    values: rounding is monotone, so adding a non-negative number never
    decreases a sum and dividing by a positive number preserves order. *)
Class FloatLaws (F : Type) `{FloatOps F} := {
  fle_refl (x : F) : fle x x;
  fle_trans (x y z : F) : fle x y → fle y z → fle x z;
  fadd_nonneg_r (x y : F) : fle (of_int 0) y → fle x (fadd x y);
  fadd_nonneg_l (x y : F) : fle (of_int 0) x → fle y (fadd x y);
  fdiv_mono (x y d : F) :
    fltb (of_int 0) d = true → fle x y → fle (fdiv x d) (fdiv y d);
  fdiv_le_one (x d : F) :
    fltb (of_int 0) d = true → fle x d → fle (fdiv x d) (of_int 1);
  weight_nonneg (tau : F) (r : nat) :
    fltb (of_int 0) tau = true → 1 ≤ r →
    fle (of_int 0) (fdiv (of_int 1) (fpow (of_int (Z.of_nat r)) tau));
  weight_one (tau : F) :
    fltb (of_int 0) tau = true →
    fltb (of_int 0) (fdiv (of_int 1) (fpow (of_int 1) tau)) = true;
  flt_le_trans (x y z : F) : fltb x y = true → fle y z → fltb x z = true;
}.

(** ** CumulationCache

    The three [DictDependingOnTau] subclasses memoise pure functions of
    [(tau, key)]: [__missing__] computes the value, stores it and returns
    it, and nothing ever changes a stored value.  A lookup is therefore the
    function itself. *)

Section Cumulation.
Context {F : Type} `{FloatOps F}.

(** [MemberCache.__missing__]: [1.0 / r ** self.tau]. *)
Definition member_cache (tau : F) (r : nat) : F :=
  fdiv (of_int 1) (fpow (of_int (Z.of_nat r)) tau).

(** [SumCache.__missing__]: [sum([self.member_cache[r] for r in range(1, n + 1)])];
    [sum] adds from the left, starting at the integer [0]. *)
Definition sum_cache (tau : F) (n : nat) : F :=
  fold_left fadd (map (member_cache tau) (seq 1 n)) (of_int 0).

(** The [for r in range(1, l)] loop of [CumulationCache.__missing__]. *)
Fixpoint cumulation_loop (tau denominator : F) (rs : list nat)
    (numerator : F) (result : list F) : list F :=
  match rs with
  | [] => result
  | r :: rs' =>
      let numerator' := fadd numerator (member_cache tau r) in
      cumulation_loop tau denominator rs' numerator'
        (result ++ [fdiv numerator' denominator])
  end.

(** [CumulationCache.__missing__]. *)
Definition cumulation_cache (tau : F) (l : nat) : list F :=
  let denominator := sum_cache tau l in
  cumulation_loop tau denominator (seq 1 (l - 1)) (of_int 0) [] ++ [of_int 1].

(** The sum [Σ_{r=1}^{m} 1/r^tau] as the specification writes it. *)
Fixpoint spec_weight_sum (tau : F) (m : nat) : F :=
  match m with
  | 0 => of_int 0
  | S m' => fadd (spec_weight_sum tau m') (member_cache tau m)
  end.

(** Adjacent entries of a table are in order. *)
Definition non_decreasing (t : list F) : Prop :=
  ∀ i x y, t !! i = Some x → t !! S i = Some y → fle x y.
End Cumulation.

(** ** The result container

    Modelled from the spec: the class [Ranking] of [interleaving/ranking.py]
    is not part of the sources at hand.  It is a list of documents carrying
    two attributes, the parallel list of ranker indices and the ranker
    count; [append] adds a document and [len] is the number of documents.
    A document slot holds [None] when [choice_one_of] returned Python's
    [None]. *)

Definition Doc := Z.

Record Ranking := mkRanking {
  documents : list (option Doc);
  rank_to_ranker_index : list nat;
  number_of_rankers : nat;
}.

(** ** evaluate *)

(** [l[d]] for a Python list: negative positions count from the end. *)
Definition py_getitem {A} (l : list A) (d : Z) : outcome A :=
  let n := Z.of_nat (length l) in
  let pos := if (d <? 0)%Z then (n + d)%Z else d in
  if ((0 <=? pos)%Z && (pos <? n)%Z)%bool then
    match l !! Z.to_nat pos with
    | Some x => Ok x
    | None => Raise IndexError
    end
  else Raise IndexError.

(** [counts[i] += 1]. *)
Definition increment (counts : list nat) (i : nat) : outcome (list nat) :=
  match counts !! i with
  | Some c => Ok (<[i := S c]> counts)
  | None => Raise IndexError
  end.

(** [for d in clicks: counts[rank_to_ranker_index[d]] += 1]. *)
Fixpoint tally (rtri : list nat) (clicks : list Z) (counts : list nat)
    : outcome (list nat) :=
  match clicks with
  | [] => Ok counts
  | d :: clicks' =>
      (i <- py_getitem rtri d ;;
       counts' <- increment counts i ;;
       tally rtri clicks' counts')%O
  end.

(** The body of the double loop for one pair [(i, j)]. *)
Definition compare_counts (ci cj : nat) (i j : nat) (result : list (nat * nat))
    : list (nat * nat) :=
  if cj <? ci then result ++ [(i, j)]
  else if ci <? cj then result ++ [(j, i)]
  else result.

(** [for j in range(i+1, number_of_rankers)]. *)
Fixpoint evaluate_inner (counts : list nat) (i : nat) (js : list nat)
    (result : list (nat * nat)) : outcome (list (nat * nat)) :=
  match js with
  | [] => Ok result
  | j :: js' =>
      (ci <- py_getitem counts (Z.of_nat i) ;;
       cj <- py_getitem counts (Z.of_nat j) ;;
       evaluate_inner counts i js' (compare_counts ci cj i j result))%O
  end.

(** [for i in range(number_of_rankers)]. *)
Fixpoint evaluate_outer (counts : list nat) (n : nat) (idxs : list nat)
    (result : list (nat * nat)) : outcome (list (nat * nat)) :=
  match idxs with
  | [] => Ok result
  | i :: idxs' =>
      (result' <- evaluate_inner counts i (seq (S i) (n - S i)) result ;;
       evaluate_outer counts n idxs' result')%O
  end.

Definition evaluate (ranking : Ranking) (clicks : list Z)
    : outcome (list (nat * nat)) :=
  let n := number_of_rankers ranking in
  (counts <- tally (rank_to_ranker_index ranking) clicks (replicate n 0) ;;
   evaluate_outer counts n (seq 0 n) [])%O.

(** *** What evaluate computes *)

(** The number of clicks that land on positions owned by ranker [i]. *)
Fixpoint clicks_on (rtri : list nat) (clicks : list Z) (i : nat) : nat :=
  match clicks with
  | [] => 0
  | d :: clicks' =>
      match py_getitem rtri d with
      | Ok j => if decide (j = i) then S (clicks_on rtri clicks' i)
                else clicks_on rtri clicks' i
      | _ => clicks_on rtri clicks' i
      end
  end.

(** Every click is a position of the result, owned by one of its rankers:
    exactly the condition under which no lookup of [evaluate] fails. *)
Definition clicks_valid (r : Ranking) (clicks : list Z) : Prop :=
  Forall (λ d, ∃ j, py_getitem (rank_to_ranker_index r) d = Ok j
                    ∧ j < number_of_rankers r) clicks.

(** The pairs the double loop appends, as a function of the counts. *)
Definition pairs_inner (counts : list nat) (i : nat) (js : list nat)
    : list (nat * nat) :=
  js ≫= λ j, compare_counts (counts !!! i) (counts !!! j) i j [].

Definition pairs_outer (counts : list nat) (n : nat) (idxs : list nat)
    : list (nat * nat) :=
  idxs ≫= λ i, pairs_inner counts i (seq (S i) (n - S i)).

(** A pair of ranker indices without its orientation. *)
Definition unordered (p : nat * nat) : nat * nat :=
  (Nat.min p.1 p.2, Nat.max p.1 p.2).

Definition lex_lt (p q : nat * nat) : Prop :=
  p.1 < q.1 ∨ (p.1 = q.1 ∧ p.2 < q.2).

(** ** The object store

    [RemovalNode] objects are addresses into [nodes]; an address without an
    entry is an object whose slots are still unset.  [pool] is the class
    attribute [RemovalNode._pool], with the end of the Python list (where
    [append] and [pop] work) at the head.  [draws] counts the calls made to
    the numpy random source. *)

Definition addr := nat.

Record RemovalNode := mkNode {
  next_value : option Doc;
  next : option addr;
}.

Record State := mkState {
  nodes : gmap addr RemovalNode;
  pool : list addr;
  next_addr : addr;
  draws : nat;
}.

Definition M (A : Type) : Type := State → outcome (A * State).

Definition ret {A} (a : A) : M A := λ s, Ok (a, s).

Definition bind {A B} (m : M A) (k : A → M B) : M B :=
  λ s, match m s with
       | Ok (a, s') => k a s'
       | Raise e => Raise e
       | Timeout => Timeout
       end.

Definition raise {A} (e : exn) : M A := λ _, Raise e.

Declare Scope state_scope.
Delimit Scope state_scope with M.
Notation "x <- e ;; k" := (bind e (fun x => k))
  (at level 100, e at next level, right associativity) : state_scope.
Local Open Scope state_scope.

(** Reading a slot of an object; [None] has no attributes and neither does
    an object whose slots were never assigned. *)
Definition get_node (a : option addr) : M RemovalNode :=
  λ s, match a with
       | Some a' =>
           match nodes s !! a' with
           | Some n => Ok (n, s)
           | None => Raise AttributeError
           end
       | None => Raise AttributeError
       end.

(** Assigning both slots of an object. *)
Definition set_node (a : addr) (n : RemovalNode) : M unit :=
  λ s, Ok (tt, mkState (<[a := n]> (nodes s)) (pool s) (next_addr s) (draws s)).

(** [object.__new__(cls)]: a new object, slots unset. *)
Definition new_object : M addr :=
  λ s, Ok (next_addr s, mkState (nodes s) (pool s) (S (next_addr s)) (draws s)).

Definition pool_push (a : addr) : M unit :=
  λ s, Ok (tt, mkState (nodes s) (a :: pool s) (next_addr s) (draws s)).

(** Sequential [for] loop threading an accumulator. *)
Fixpoint foldM {A B} (f : A → B → M A) (l : list B) (a : A) : M A :=
  match l with
  | [] => ret a
  | b :: l' => a' <- f a b ;; foldM f l' a'
  end.

(** Sequential [for] loop over objects that are each updated in place. *)
Fixpoint forM {A B} (f : A → M B) (l : list A) : M (list B) :=
  match l with
  | [] => ret []
  | a :: l' => b <- f a ;; bs <- forM f l' ;; ret (b :: bs)
  end.

(** *** RemovalNode *)

(** [RemovalNode.take_one]. *)
Definition take_one : M addr :=
  λ s, match pool s with
       | a :: p => Ok (a, mkState (nodes s) p (next_addr s) (draws s))
       | [] => new_object s
       end.

(** [RemovalNode.follow]: the two assignments to [prev] come first, so
    they are overwritten when [prev] and [self] are the same object. *)
Definition follow (self prev : addr) (value : Doc) : M unit :=
  _ <- set_node prev (mkNode (Some value) (Some self)) ;;
  set_node self (mkNode None None).

(** [RemovalNode.remove_next]. *)
Definition remove_next (self : addr) : M (option Doc) :=
  n <- get_node (Some self) ;;
  match next n with
  | None => raise AttributeError
  | Some nx =>
      _ <- pool_push nx ;;
      succ <- get_node (Some nx) ;;
      _ <- set_node self (mkNode (next_value succ) (next succ)) ;;
      ret (next_value succ)
  end.

(** *** The dict of a RemovalList

    A Python dict keeps its keys in insertion order; assigning to a key
    that is present keeps its place. *)

Definition pydict := list (Doc * addr).

Fixpoint dict_get (d : pydict) (k : Doc) : option addr :=
  match d with
  | [] => None
  | (k', a) :: d' => if decide (k' = k) then Some a else dict_get d' k
  end.

Fixpoint dict_set (d : pydict) (k : Doc) (a : addr) : pydict :=
  match d with
  | [] => [(k, a)]
  | (k', a') :: d' =>
      if decide (k' = k) then (k, a) :: d' else (k', a') :: dict_set d' k a
  end.

Fixpoint dict_pop (d : pydict) (k : Doc) : pydict :=
  match d with
  | [] => []
  | (k', a') :: d' =>
      if decide (k' = k) then d' else (k', a') :: dict_pop d' k
  end.

Definition dict_keys (d : pydict) : list Doc := d.*1.

(** *** RemovalList

    The header object is itself a node (its address is [head]); [dict] and
    [last] are its two extra slots. *)

Record RemovalList := mkList {
  head : addr;
  dict : pydict;
  last : addr;
}.

(** [RemovalList.append]. *)
Definition append (self : RemovalList) (value : Doc) : M RemovalList :=
  node <- take_one ;;
  _ <- follow node (last self) value ;;
  ret (mkList (head self) (dict_set (dict self) value (last self)) node).

(** [RemovalList.__init__]. *)
Definition RemovalList_init (l : list Doc) : M RemovalList :=
  self <- new_object ;;
  _ <- set_node self (mkNode None None) ;;
  foldM append l (mkList self [] self).

(** [RemovalList.get_length]. *)
Definition get_length (self : RemovalList) : nat := length (dict self).

(** [RemovalList.remove]; Python's [None] is never a key of the dict. *)
Definition remove (value : option Doc) (self : RemovalList) : M RemovalList :=
  match value with
  | None => ret self
  | Some v =>
      match dict_get (dict self) v with
      | None => ret self
      | Some prev =>
          let d := dict_pop (dict self) v in
          new_next_value <- remove_next prev ;;
          match new_next_value with
          | Some w => ret (mkList (head self) (dict_set d w prev) (last self))
          | None => ret (mkList (head self) d (last self))
          end
      end
  end.

(** [RemovalList.truncate]: the keys are copied before the loop. *)
Definition truncate (self : RemovalList) : M RemovalList :=
  foldM (λ rl v, remove (Some v) rl) (dict_keys (dict self)) self.

(** ** The numpy random source

    A seeded generator is a function of the number of draws made before:
    [random_random] is [np.random.random()], [random_randint] is
    [np.random.randint(0, 2)] (a bit), [random_shuffle] is the list
    [np.random.shuffle] leaves behind. *)

Record Rng (F : Type) := mkRng {
  random_random : nat → F;
  random_randint : nat → bool;
  random_shuffle : nat → list nat → list nat;
}.
Arguments random_random {F} _ _.
Arguments random_randint {F} _ _.
Arguments random_shuffle {F} _ _ _.

Definition draw {A} (g : nat → A) : M A :=
  λ s, Ok (g (draws s), mkState (nodes s) (pool s) (next_addr s) (S (draws s))).

(** [l[i]] for an index that is never negative. *)
Definition getitem {A} (l : list A) (i : nat) : M A :=
  match l !! i with
  | Some x => ret x
  | None => raise IndexError
  end.

(** ** Probabilistic *)

Section Probabilistic.
Context {F : Type} `{FloatOps F}.
Variable tau : F.
Variable rng : Rng F.

(** The [for i in range(0, n)] loop of [CumulationCache.choice_one_of];
    falling out of the loop returns Python's [None]. *)
Fixpoint choice_scan (f : F) (cumulation : list F) (idxs : list nat)
    (node : option addr) : M (option Doc) :=
  match idxs with
  | [] => ret None
  | i :: idxs' =>
      c <- getitem cumulation i ;;
      nd <- get_node node ;;
      if fltb f c then ret (next_value nd)
      else choice_scan f cumulation idxs' (next nd)
  end.

(** [CumulationCache.choice_one_of]. *)
Definition choice_one_of (r_l : RemovalList) : M (option Doc) :=
  let n := get_length r_l in
  f <- draw (random_random rng) ;;
  let cumulation := cumulation_cache tau n in
  choice_scan f cumulation (seq 0 n) (Some (head r_l)).

(** [Probabilistic._advance]. *)
Definition _advance (input_rankings : list RemovalList) (ranker_index : nat)
    (output_ranking : Ranking) : M (list RemovalList * Ranking) :=
  ranking <- getitem input_rankings ranker_index ;;
  document <- choice_one_of ranking ;;
  let output_ranking' :=
    mkRanking (documents output_ranking ++ [document])
              (rank_to_ranker_index output_ranking ++ [ranker_index])
              (number_of_rankers output_ranking) in
  input_rankings' <- forM (remove document) input_rankings ;;
  ret (input_rankings', output_ranking').

(** [len(result)]. *)
Definition len (r : Ranking) : Z := Z.of_nat (length (documents r)).

(** The [for i in range(k)] loop of [interleave]; when it runs out the
    method returns Python's [None]. *)
Fixpoint interleave_loop (iterations : nat) (k : Z)
    (rankings : list RemovalList) (result : Ranking) : M (option Ranking) :=
  match iterations with
  | 0 => ret None
  | S iterations' =>
      ranker_index <- draw (random_randint rng) ;;
      st <- _advance rankings (Nat.b2n ranker_index) result ;;
      let '(rankings', result') := st in
      if (k <=? len result')%Z then
        _ <- forM truncate rankings' ;;
        ret (Some result')
      else interleave_loop iterations' k rankings' result'
  end.

(** [Probabilistic.interleave]. *)
Definition interleave (k : Z) (a b : list Doc) : M (option Ranking) :=
  let result := mkRanking [] [] 2 in
  ra <- RemovalList_init a ;;
  rb <- RemovalList_init b ;;
  interleave_loop (Z.to_nat k) k [ra; rb] result.

(** The inner [while 0 < len(ranker_indexes)] loop of [multileave];
    [pop_order] lists the indexes in the order [pop()] hands them out.
    [inr] is the [return] inside the loop, [inl] the end of the round. *)
Fixpoint multileave_round (k : Z) (pop_order : list nat)
    (rankings : list RemovalList) (result : Ranking)
    : M (list RemovalList * Ranking + Ranking) :=
  match pop_order with
  | [] => ret (inl (rankings, result))
  | ranker_index :: pop_order' =>
      st <- _advance rankings ranker_index result ;;
      let '(rankings', result') := st in
      if (k <=? len result')%Z then
        _ <- forM truncate rankings' ;;
        ret (inr result')
      else multileave_round k pop_order' rankings' result'
  end.

(** The [while True] loop of [multileave], cut off after [fuel] rounds. *)
Fixpoint multileave_loop (fuel : nat) (k : Z)
    (rankings : list RemovalList) (result : Ranking) : M Ranking :=
  match fuel with
  | 0 => λ _, Timeout
  | S fuel' =>
      ranker_indexes <-
        draw (λ c, random_shuffle rng c (seq 0 (length rankings))) ;;
      r <- multileave_round k (rev ranker_indexes) rankings result ;;
      match r with
      | inr result' => ret result'
      | inl (rankings', result') => multileave_loop fuel' k rankings' result'
      end
  end.

(** [Probabilistic.multileave]. *)
Definition multileave (fuel : nat) (k : Z) (lists : list (list Doc))
    : M Ranking :=
  let result := mkRanking [] [] (length lists) in
  rankings <- forM RemovalList_init lists ;;
  multileave_loop fuel k rankings result.
End Probabilistic.

(** A process that has not built any list yet. *)
Definition initial_state : State := mkState ∅ [] 0 0.

(** ** Exact rational arithmetic as an instance of the float operations

    Used to run the model on concrete inputs.  The exponent is truncated to
    an integer, which is exact for integral [tau] such as the default
    [3.0]. *)

Module QFloat.
Definition q_pow (x t : Q) : Q := Qpower x (Qfloor t).

#[export] Instance Q_ops : FloatOps Q := {|
  of_int := inject_Z;
  fadd := Qplus;
  fdiv := Qdiv;
  fpow := q_pow;
  fltb x y := negb (Qle_bool y x);
|}.

(** A source that always gives the same answers: the bit [bit] for
    [randint(0, 2)], [f] for [random()], and a shuffle that leaves the
    list in the order given. *)
Definition const_rng (bit : bool) (f : Q) : Rng Q :=
  mkRng Q (λ _, f) (λ _, bit) (λ _ l, l).
End QFloat.

(** ** Representation invariants

    [own s X]: the pooled nodes and the nodes [X] of the live lists are
    pairwise distinct objects, all of them allocated. *)

Definition own (s : State) (X : list addr) : Prop :=
  NoDup (pool s ++ X) ∧ Forall (λ a, a < next_addr s) (pool s ++ X).

(** [repr nd rl vs fp]: in the store [nd] the list [rl] is the chain of
    nodes [fp], header first and tail sentinel last, whose [next_value]
    slots spell [vs]; the dict sends a value to the node before its last
    occurrence. *)
Record repr (nd : gmap addr RemovalNode) (rl : RemovalList)
    (vs : list Doc) (fp : list addr) : Prop := mkRepr {
  repr_length : length fp = S (length vs);
  repr_head : fp !! 0 = Some (head rl);
  repr_chain : ∀ i a, fp !! i = Some a →
    nd !! a = Some (mkNode (vs !! i) (fp !! S i));
  repr_dict_last : ∀ i v, vs !! i = Some v →
    (∀ j, i < j → vs !! j ≠ Some v) → dict_get (dict rl) v = fp !! i;
  repr_dict_absent : ∀ v, v ∉ vs → dict_get (dict rl) v = None;
  repr_keys : NoDup (dict_keys (dict rl));
}.

(** The stores agree on the objects [X]. *)
Definition frame (X : list addr) (s s' : State) : Prop :=
  ∀ a, a ∈ X → nodes s' !! a = nodes s !! a.

(** What is left of a surviving sequence once a document is removed. *)
Definition drop_doc (d : option Doc) (vs : list Doc) : list Doc :=
  match d with
  | None => vs
  | Some v => filter (λ u, u ≠ v) vs
  end.

(** The document [choice_one_of] returns from the surviving sequence [vs]
    when the random source answers [f]. *)
Section Pick.
Context {F : Type} `{FloatOps F}.

Fixpoint scan_pick (f : F) (cumulation : list F) (idxs : list nat)
    (vs : list Doc) : option Doc :=
  match idxs with
  | [] => None
  | i :: idxs' =>
      match cumulation !! i with
      | Some c => if fltb f c then vs !! i else scan_pick f cumulation idxs' vs
      | None => None
      end
  end.

Definition pick (tau f : F) (vs : list Doc) : option Doc :=
  scan_pick f (cumulation_cache tau (length vs)) (seq 0 (length vs)) vs.
End Pick.

(** [rankings_inv s rls vss]: in the state [s] the lists [rls] hold the
    surviving sequences [vss], none of which repeats a document, in
    pairwise separate nodes. *)
Definition rankings_inv (s : State) (rls : list RemovalList)
    (vss : list (list Doc)) : Prop :=
  ∃ fps, Forall3 (repr (nodes s)) rls vss fps
         ∧ Forall NoDup vss ∧ own s (concat fps).

(** The state of the store between two calls of the public methods. *)
Definition heap_wf (s : State) : Prop := own s [].

(** Assumptions on the random source: a shuffle permutes its argument,
    and [random()] lies below [1]. *)
Definition shuffle_ok {F} (rng : Rng F) : Prop :=
  ∀ c l, random_shuffle rng c l ≡ₚ l.

Definition random_below_one `{FloatOps F} (rng : Rng F) : Prop :=
  ∀ c, fltb (random_random rng c) (of_int 1) = true.

(** The documents of a result, without the [None] slots. *)
Definition chosen (r : Ranking) : list Doc := omap id (documents r).

(** A result over [n] rankers built from [lists]: no document twice, every
    document from one of the lists, one ranker index per slot. *)
Definition out_ok (lists : list (list Doc)) (n : nat) (out : Ranking) : Prop :=
  NoDup (chosen out)
  ∧ (∀ d, d ∈ chosen out → ∃ l, l ∈ lists ∧ d ∈ l)
  ∧ length (documents out) = length (rank_to_ranker_index out)
  ∧ Forall (λ i, i < n) (rank_to_ranker_index out).

(** The relation between the result so far and the surviving sequences. *)
Definition loop_inv (lists : list (list Doc)) (out : Ranking)
    (vss : list (list Doc)) : Prop :=
  out_ok lists (length vss) out
  ∧ (∀ d vs, d ∈ chosen out → vs ∈ vss → d ∉ vs)
  ∧ (∀ vs d, vs ∈ vss → d ∈ vs → ∃ l, l ∈ lists ∧ d ∈ l).

(** The sum of the surviving lengths. *)
Definition total_length (rls : list RemovalList) : nat :=
  sum_list (get_length <$> rls).

(** The values the scan of [choice_one_of] steps over: starting at the
    header it reads [next_value] and moves to [next], [n] times. *)
Fixpoint scan_values (nd : gmap addr RemovalNode) (n : nat) (node : option addr)
    : list (option Doc) :=
  match n with
  | 0 => []
  | S n' =>
      match node ≫= (nd !!.) with
      | Some cell => next_value cell :: scan_values nd n' (next cell)
      | None => []
      end
  end.

Definition traversal (s : State) (r_l : RemovalList) : list (option Doc) :=
  scan_values (nodes s) (get_length r_l) (Some (head r_l)).

(** The first occurrence of every value, in order. *)
Fixpoint first_occurrences (l : list Doc) : list Doc :=
  match l with
  | [] => []
  | x :: l' => x :: filter (λ y, y ≠ x) (first_occurrences l')
  end.

(** The states an [interleave] or [multileave] call goes through between
    two calls of [_advance]: the lists are built, then random numbers are
    drawn and [_advance] is called any number of times. *)
Inductive reachable `{FloatOps F} (tau : F) (rng : Rng F)
    : State → list RemovalList → Prop :=
| reach_build s lists rls s' :
    heap_wf s → Forall NoDup lists →
    forM RemovalList_init lists s = Ok (rls, s') →
    reachable tau rng s' rls
| reach_draw s rls n :
    reachable tau rng s rls →
    reachable tau rng (mkState (nodes s) (pool s) (next_addr s) n) rls
| reach_advance s rls i out rls' out' s' :
    reachable tau rng s rls →
    _advance tau rng rls i out s = Ok ((rls', out'), s') →
    reachable tau rng s' rls'.

(** The value a computation returns, without the final store. *)
Definition result_of {A} (o : outcome (A * State)) : outcome A :=
  match o with
  | Ok (a, _) => Ok a
  | Raise e => Raise e
  | Timeout => Timeout
  end.

(** The largest surviving length. *)
Definition max_length (rls : list RemovalList) : nat :=
  max_list (get_length <$> rls).

(** The ranker indexes [interleave] draws in [n] iterations that start at
    draw number [c]: each iteration calls [randint], then [random]. *)
Definition drawn_rankers {F} (rng : Rng F) (c n : nat) : list nat :=
  (λ j, Nat.b2n (random_randint rng (c + 2 * j))) <$> seq 0 n.

(** The turns [multileave] hands out in [rounds] rounds over [n] rankers,
    the first shuffle being draw number [c]: a round is the shuffled list
    of all the indexes, popped from its end; a full round makes one call
    of [shuffle] and [n] calls of [random]. *)
Fixpoint round_orders {F} (rng : Rng F) (n c rounds : nat) : list nat :=
  match rounds with
  | 0 => []
  | S rounds' =>
      rev (random_shuffle rng c (seq 0 n))
      ++ round_orders rng n (c + 1 + n) rounds'
  end.

(** The position Python reads for the index [d] of a list of length [n]:
    a negative index counts from the end. *)
Definition normalize_click (n : nat) (d : Z) : Z :=
  if (d <? 0)%Z then (d + Z.of_nat n)%Z else d.

(** ** The caches as objects

    The functions [member_cache], [sum_cache] and [cumulation_cache] above
    are what a lookup returns; here the memoisation itself is modelled, to
    show that it cannot be observed.  [DictDependingOnTau.__new__] keeps, in
    the class attribute [_tau_to_dict], one instance per class and [tau];
    an instance is a dict from the integer key to the value stored.  An
    instance is referred to by its class and its [tau]: the attributes
    [sum_cache] and [member_cache] that [__init__] sets always hold the
    instance of the same [tau].  A class has no instance for a [tau] it was
    never called with; a method call on such an instance is reported as
    [AttributeError].  Keys [tau] are compared with Leibniz equality. *)

Declare Scope cache_scope.
Delimit Scope cache_scope with C.

Section Memo.
Context {F : Type} `{FloatOps F} `{EqDecision F}.

(** The class attribute [_tau_to_dict]; before the first call the
    attribute is missing, which [__new__] treats like an empty dict. *)
Definition registry (V : Type) : Type := F → option (gmap nat V).

Record Instances := mkInstances {
  MemberCache_tau_to_dict : registry F;
  SumCache_tau_to_dict : registry F;
  CumulationCache_tau_to_dict : registry (list F);
}.

Definition MC (A : Type) : Type := Instances → outcome (A * Instances).

Definition cret {A} (a : A) : MC A := λ st, Ok (a, st).

Definition cbind {A B} (m : MC A) (k : A → MC B) : MC B :=
  λ st, match m st with
        | Ok (a, st') => k a st'
        | Raise e => Raise e
        | Timeout => Timeout
        end.

Notation "x <- e ;; k" := (cbind e (fun x => k))
  (at level 100, e at next level, right associativity) : cache_scope.
Local Open Scope cache_scope.

Definition tau_to_dict_set {V} (reg : registry V) (tau : F) (d : gmap nat V)
    : registry V :=
  λ t, if decide (t = tau) then Some d else reg t.

(** [DictDependingOnTau.__new__]: a new, empty dict only for a [tau] the
    class has not seen. *)
Definition DictDependingOnTau_new {V} (reg : registry V) (tau : F)
    : registry V :=
  match reg tau with
  | Some _ => reg
  | None => tau_to_dict_set reg tau ∅
  end.

(** [MemberCache(tau)]: [__new__], then [__init__], which stores [tau]. *)
Definition MemberCache_call (tau : F) : MC unit :=
  λ st, Ok (tt, mkInstances
                  (DictDependingOnTau_new (MemberCache_tau_to_dict st) tau)
                  (SumCache_tau_to_dict st)
                  (CumulationCache_tau_to_dict st)).

(** [SumCache(tau)]: [__new__], then [__init__], which calls
    [MemberCache(tau)]. *)
Definition SumCache_call (tau : F) : MC unit :=
  _ <- (λ st, Ok (tt, mkInstances
                        (MemberCache_tau_to_dict st)
                        (DictDependingOnTau_new (SumCache_tau_to_dict st) tau)
                        (CumulationCache_tau_to_dict st))) ;;
  MemberCache_call tau.

(** [CumulationCache(tau)]: [__new__], then [__init__], which calls
    [SumCache(tau)] and [MemberCache(tau)]. *)
Definition CumulationCache_call (tau : F) : MC unit :=
  _ <- (λ st, Ok (tt, mkInstances
                        (MemberCache_tau_to_dict st)
                        (SumCache_tau_to_dict st)
                        (DictDependingOnTau_new
                           (CumulationCache_tau_to_dict st) tau))) ;;
  _ <- SumCache_call tau ;;
  MemberCache_call tau.

(** [Probabilistic.__init__]. *)
Definition Probabilistic_init (tau : F) : MC unit := CumulationCache_call tau.

(** [self[r]] on the [MemberCache] of [tau]; [dict.__getitem__] calls
    [__missing__] when the key is absent. *)
Definition MemberCache_getitem (tau : F) (r : nat) : MC F :=
  λ st, match MemberCache_tau_to_dict st tau with
        | None => Raise AttributeError
        | Some d =>
            match d !! r with
            | Some x => Ok (x, st)
            | None =>
                let x := fdiv (of_int 1) (fpow (of_int (Z.of_nat r)) tau) in
                Ok (x, mkInstances
                         (tau_to_dict_set (MemberCache_tau_to_dict st) tau
                                          (<[r := x]> d))
                         (SumCache_tau_to_dict st)
                         (CumulationCache_tau_to_dict st))
            end
        end.

(** The list comprehension [[f(r) for r in rs]]. *)
Fixpoint mapMC {A B} (f : A → MC B) (l : list A) : MC (list B) :=
  match l with
  | [] => cret []
  | a :: l' => b <- f a ;; bs <- mapMC f l' ;; cret (b :: bs)
  end.

(** [self[n] = x; return self[n]] on the [SumCache] of [tau]. *)
Definition SumCache_setitem (tau : F) (n : nat) (x : F) : MC F :=
  λ st, match SumCache_tau_to_dict st tau with
        | None => Raise AttributeError
        | Some d =>
            Ok (x, mkInstances
                     (MemberCache_tau_to_dict st)
                     (tau_to_dict_set (SumCache_tau_to_dict st) tau
                                      (<[n := x]> d))
                     (CumulationCache_tau_to_dict st))
        end.

(** [self[n]] on the [SumCache] of [tau]. *)
Definition SumCache_getitem (tau : F) (n : nat) : MC F :=
  λ st, match SumCache_tau_to_dict st tau with
        | None => Raise AttributeError
        | Some d =>
            match d !! n with
            | Some x => Ok (x, st)
            | None =>
                (xs <- mapMC (MemberCache_getitem tau) (seq 1 n) ;;
                 SumCache_setitem tau n (fold_left fadd xs (of_int 0))) st
            end
        end.

(** The [for r in range(1, l)] loop of [CumulationCache.__missing__], with
    its lookups in the [MemberCache]. *)
Fixpoint cumulation_loopM (tau denominator : F) (rs : list nat)
    (numerator : F) (result : list F) : MC (list F) :=
  match rs with
  | [] => cret result
  | r :: rs' =>
      m <- MemberCache_getitem tau r ;;
      let numerator' := fadd numerator m in
      cumulation_loopM tau denominator rs' numerator'
        (result ++ [fdiv numerator' denominator])
  end.

(** [self[l] = result; return result] on the [CumulationCache]. *)
Definition CumulationCache_setitem (tau : F) (l : nat) (t : list F)
    : MC (list F) :=
  λ st, match CumulationCache_tau_to_dict st tau with
        | None => Raise AttributeError
        | Some d =>
            Ok (t, mkInstances
                     (MemberCache_tau_to_dict st)
                     (SumCache_tau_to_dict st)
                     (tau_to_dict_set (CumulationCache_tau_to_dict st) tau
                                      (<[l := t]> d)))
        end.

(** [self[l]] on the [CumulationCache] of [tau], as [choice_one_of]
    reads it. *)
Definition CumulationCache_getitem (tau : F) (l : nat) : MC (list F) :=
  λ st, match CumulationCache_tau_to_dict st tau with
        | None => Raise AttributeError
        | Some d =>
            match d !! l with
            | Some t => Ok (t, st)
            | None =>
                (denominator <- SumCache_getitem tau l ;;
                 result <- cumulation_loopM tau denominator (seq 1 (l - 1))
                             (of_int 0) [] ;;
                 CumulationCache_setitem tau l (result ++ [of_int 1])) st
            end
        end.

(** Every stored value is the value of the function memoised. *)
Definition cache_ok (st : Instances) : Prop :=
  (∀ tau d r x, MemberCache_tau_to_dict st tau = Some d → d !! r = Some x →
                x = member_cache tau r)
  ∧ (∀ tau d n x, SumCache_tau_to_dict st tau = Some d → d !! n = Some x →
                  x = sum_cache tau n)
  ∧ (∀ tau d l t, CumulationCache_tau_to_dict st tau = Some d →
                  d !! l = Some t → t = cumulation_cache tau l).

(** Instances and their entries are kept. *)
Definition registry_le {V} (reg reg' : registry V) : Prop :=
  ∀ tau d, reg tau = Some d → ∃ d', reg' tau = Some d' ∧ d ⊆ d'.

Definition instances_le (st st' : Instances) : Prop :=
  registry_le (MemberCache_tau_to_dict st) (MemberCache_tau_to_dict st')
  ∧ registry_le (SumCache_tau_to_dict st) (SumCache_tau_to_dict st')
  ∧ registry_le (CumulationCache_tau_to_dict st)
                (CumulationCache_tau_to_dict st').

(** The three instances for [tau] exist. *)
Definition constructed (st : Instances) (tau : F) : Prop :=
  is_Some (MemberCache_tau_to_dict st tau)
  ∧ is_Some (SumCache_tau_to_dict st tau)
  ∧ is_Some (CumulationCache_tau_to_dict st tau).

(** A process in which no cache class was called yet. *)
Definition no_instances : Instances :=
  mkInstances (λ _, None) (λ _, None) (λ _, None).
End Memo.

#[global] Instance Q_eq_dec : EqDecision Q.
Proof. solve_decision. Defined.

(** ** The methods on plain lists

    What [interleave] and [multileave] compute when a surviving sequence
    is a plain list, the scan of [choice_one_of] is [pick] and a removal
    is [drop_doc]: the reference for the linked lists, their dicts and
    the node pool.  [c] is the number of the next draw. *)

Section OnLists.
Context {F : Type} `{FloatOps F}.
Variable tau : F.
Variable rng : Rng F.

Definition advance_on_lists (c : nat) (vss : list (list Doc)) (i : nat)
    (out : Ranking) : list (list Doc) * Ranking :=
  let d := pick tau (random_random rng c) (default [] (vss !! i)) in
  (drop_doc d <$> vss,
   mkRanking (documents out ++ [d]) (rank_to_ranker_index out ++ [i])
             (number_of_rankers out)).

Fixpoint interleave_loop_on_lists (n c : nat) (vss : list (list Doc))
    (out : Ranking) : Ranking :=
  match n with
  | 0 => out
  | S n' =>
      let i := Nat.b2n (random_randint rng c) in
      let '(vss', out') := advance_on_lists (S c) vss i out in
      interleave_loop_on_lists n' (S (S c)) vss' out'
  end.

Definition interleave_on_lists (k : Z) (c : nat) (a b : list Doc)
    : option Ranking :=
  if (k <=? 0)%Z then None
  else Some (interleave_loop_on_lists (Z.to_nat k) c [a; b]
               (mkRanking [] [] 2)).

Fixpoint multileave_round_on_lists (k : Z) (pop_order : list nat) (c : nat)
    (vss : list (list Doc)) (out : Ranking)
    : list (list Doc) * Ranking * nat + Ranking :=
  match pop_order with
  | [] => inl (vss, out, c)
  | i :: pop_order' =>
      let '(vss', out') := advance_on_lists c vss i out in
      if (k <=? len out')%Z then inr out'
      else multileave_round_on_lists k pop_order' (S c) vss' out'
  end.

Fixpoint multileave_loop_on_lists (fuel : nat) (k : Z) (c : nat)
    (vss : list (list Doc)) (out : Ranking) : option Ranking :=
  match fuel with
  | 0 => None
  | S fuel' =>
      match multileave_round_on_lists k
              (rev (random_shuffle rng c (seq 0 (length vss)))) (S c) vss out
      with
      | inr r => Some r
      | inl (vss', out', c') => multileave_loop_on_lists fuel' k c' vss' out'
      end
  end.

Definition multileave_on_lists (fuel : nat) (k : Z) (c : nat)
    (lists : list (list Doc)) : option Ranking :=
  multileave_loop_on_lists fuel k c lists (mkRanking [] [] (length lists)).
End OnLists.

(** The random source with the two rankers of [interleave] exchanged:
    [randint] answers the other index. *)
Definition swap_rankers {F} (rng : Rng F) : Rng F :=
  mkRng F (random_random rng) (λ c, negb (random_randint rng c))
        (random_shuffle rng).

(** * Properties *)

(** ** The cumulative table *)

Section CumulationFacts.
Context {F : Type} `{FloatLaws F}.

Lemma sum_cache_spec (tau : F) (n : nat) :
  sum_cache tau n = spec_weight_sum tau n.
Proof.
  unfold sum_cache. induction n as [|n IH]; [done|].
  rewrite seq_S, map_app, fold_left_app, IH. done.
Qed.

Lemma cumulation_loop_spec (tau d : F) (j m : nat) (res : list F) :
  cumulation_loop tau d (seq (S m) j) (spec_weight_sum tau m) res
  = res ++ map (λ i, fdiv (spec_weight_sum tau (S i)) d) (seq m j).
Proof.
  revert m res. induction j as [|j IH]; intros m res; simpl.
  - by rewrite app_nil_r.
  - rewrite (IH (S m)). by rewrite <- app_assoc.
Qed.

Lemma cumulation_cache_unfold (tau : F) (n : nat) :
  cumulation_cache tau n
  = map (λ i, fdiv (spec_weight_sum tau (S i)) (spec_weight_sum tau n))
        (seq 0 (n - 1)) ++ [of_int 1].
Proof.
  unfold cumulation_cache.
  rewrite (cumulation_loop_spec tau _ (n - 1) 0 []), sum_cache_spec. done.
Qed.

Lemma length_cumulation_cache (tau : F) (n : nat) :
  length (cumulation_cache tau n) = S (n - 1).
Proof.
  rewrite cumulation_cache_unfold, length_app, length_map, length_seq.
  simpl. lia.
Qed.

Lemma cumulation_cache_last (tau : F) (n : nat) :
  cumulation_cache tau n !! (n - 1) = Some (of_int 1).
Proof.
  rewrite cumulation_cache_unfold.
  rewrite lookup_app_r; rewrite length_map, length_seq; [|lia].
  by rewrite Nat.sub_diag.
Qed.

Lemma cumulation_cache_lookup (tau : F) (n i : nat) :
  i < n - 1 →
  cumulation_cache tau n !! i
  = Some (fdiv (spec_weight_sum tau (S i)) (spec_weight_sum tau n)).
Proof.
  intros Hi. rewrite cumulation_cache_unfold.
  rewrite lookup_app_l by (rewrite length_map, length_seq; lia).
  rewrite list_lookup_fmap, lookup_seq_lt by lia. done.
Qed.

Section Monotone.
Variable tau : F.
Hypothesis tau_pos : fltb (of_int 0) tau = true.

Lemma spec_weight_sum_step (m : nat) :
  fle (spec_weight_sum tau m) (spec_weight_sum tau (S m)).
Proof.
  simpl. apply fadd_nonneg_r. apply weight_nonneg; [done|lia].
Qed.

Lemma spec_weight_sum_mono (m n : nat) :
  m ≤ n → fle (spec_weight_sum tau m) (spec_weight_sum tau n).
Proof.
  induction 1 as [|n Hle IH]; [apply fle_refl|].
  eapply fle_trans; [exact IH|apply spec_weight_sum_step].
Qed.

Lemma spec_weight_sum_pos (n : nat) :
  1 ≤ n → fltb (of_int 0) (spec_weight_sum tau n) = true.
Proof.
  intros Hn. eapply flt_le_trans; [apply (weight_one tau tau_pos)|].
  eapply fle_trans; [|apply (spec_weight_sum_mono 1 n Hn)].
  simpl. apply fadd_nonneg_l, fle_refl.
Qed.

Lemma cumulation_cache_non_decreasing (n : nat) :
  1 ≤ n → non_decreasing (cumulation_cache tau n).
Proof.
  intros Hn i x y Hx Hy.
  assert (S i < S (n - 1)) as Hi.
  { rewrite <- (length_cumulation_cache tau n). by eapply lookup_lt_Some. }
  rewrite cumulation_cache_lookup in Hx by lia.
  injection Hx as <-.
  destruct (decide (S i = n - 1)) as [Heq|Hne].
  - rewrite Heq, cumulation_cache_last in Hy. injection Hy as <-.
    apply fdiv_le_one; [by apply spec_weight_sum_pos|].
    apply (spec_weight_sum_mono (S i) n). lia.
  - rewrite cumulation_cache_lookup in Hy by lia. injection Hy as <-.
    apply fdiv_mono; [by apply spec_weight_sum_pos|].
    apply (spec_weight_sum_step (S i)).
Qed.
End Monotone.
End CumulationFacts.

(** ** evaluate *)

Section EvaluateFacts.

Lemma py_getitem_nat {A} (l : list A) (i : nat) (x : A) :
  l !! i = Some x → py_getitem l (Z.of_nat i) = Ok x.
Proof.
  intros Hi. pose proof (lookup_lt_Some _ _ _ Hi) as Hlt.
  unfold py_getitem.
  destruct (Z.ltb_spec (Z.of_nat i) 0); [lia|].
  destruct (Z.leb_spec 0 (Z.of_nat i)); [|lia].
  destruct (Z.ltb_spec (Z.of_nat i) (Z.of_nat (length l))); [|lia].
  simpl. by rewrite Nat2Z.id, Hi.
Qed.

Lemma py_getitem_total `{!Inhabited A} (l : list A) (i : nat) :
  i < length l → py_getitem l (Z.of_nat i) = Ok (l !!! i).
Proof.
  intros Hi. apply py_getitem_nat. by apply list_lookup_lookup_total_lt.
Qed.

(** A click is accepted exactly when it lies in [[-len, len)]. *)
Lemma py_getitem_ok_iff {A} (l : list A) (d : Z) :
  (∃ x, py_getitem l d = Ok x)
  ↔ (- Z.of_nat (length l) ≤ d < Z.of_nat (length l))%Z.
Proof.
  unfold py_getitem. set (n := Z.of_nat (length l)).
  assert (∀ pos : Z,
    (∃ x, (if ((0 <=? pos)%Z && (pos <? n)%Z)%bool
           then match l !! Z.to_nat pos with
                | Some x => Ok x
                | None => Raise IndexError
                end
           else Raise IndexError) = Ok x) ↔ (0 ≤ pos < n)%Z) as Hpos.
  { intros pos.
    destruct (Z.leb_spec 0 pos), (Z.ltb_spec pos n); simpl;
      try (split; [intros [x Hx]; discriminate | lia]).
    destruct (lookup_lt_is_Some_2 l (Z.to_nat pos)) as [x Hx]; [lia|].
    rewrite Hx. split; [lia|eauto]. }
  destruct (Z.ltb_spec d 0); rewrite Hpos; lia.
Qed.

Lemma tally_spec (rtri : list nat) (clicks : list Z) (counts : list nat) :
  Forall (λ d, ∃ j, py_getitem rtri d = Ok j ∧ j < length counts) clicks →
  ∃ counts', tally rtri clicks counts = Ok counts'
    ∧ length counts' = length counts
    ∧ ∀ i, counts' !!! i = counts !!! i + clicks_on rtri clicks i.
Proof.
  revert counts. induction clicks as [|d clicks IH]; intros counts Hv.
  - exists counts. simpl. repeat split; auto.
  - apply Forall_cons in Hv as [(j & Hj & Hlt) Hv]. simpl. rewrite Hj. simpl.
    unfold increment.
    destruct (lookup_lt_is_Some_2 counts j Hlt) as [c Hc]. rewrite Hc. simpl.
    destruct (IH (<[j := S c]> counts)) as (counts' & Ht & Hlen & Hcnt).
    { by rewrite length_insert. }
    exists counts'. rewrite Ht. split; [done|]. rewrite Hlen, length_insert.
    split; [done|]. intros i. rewrite Hcnt.
    destruct (decide (j = i)) as [->|Hne].
    + rewrite list_lookup_total_insert_eq by done.
      rewrite (list_lookup_total_correct _ _ _ Hc). lia.
    + by rewrite list_lookup_total_insert_ne.
Qed.

Lemma tally_fails (rtri : list nat) (clicks : list Z) (counts : list nat) :
  ¬ Forall (λ d, ∃ j, py_getitem rtri d = Ok j ∧ j < length counts) clicks →
  tally rtri clicks counts = Raise IndexError.
Proof.
  revert counts. induction clicks as [|d clicks IH]; intros counts Hv.
  - destruct Hv. constructor.
  - simpl. unfold py_getitem at 1.
    destruct (_ && _)%bool eqn:Hb; [|done].
    destruct (rtri !! _) as [j|] eqn:Hj; [|done]. simpl.
    assert (py_getitem rtri d = Ok j) as Hget.
    { unfold py_getitem. by rewrite Hb, Hj. }
    unfold increment. destruct (counts !! j) as [c|] eqn:Hc; [|done]. simpl.
    apply IH. rewrite length_insert. intros Hrest. apply Hv.
    constructor; [|done]. exists j. split; [done|]. by eapply lookup_lt_Some.
Qed.

Lemma compare_counts_app ci cj i j (result : list (nat * nat)) :
  compare_counts ci cj i j result = result ++ compare_counts ci cj i j [].
Proof.
  unfold compare_counts. repeat case_match; by rewrite ?app_nil_r.
Qed.

Lemma evaluate_inner_spec counts i js result :
  i < length counts → Forall (λ j, j < length counts) js →
  evaluate_inner counts i js result = Ok (result ++ pairs_inner counts i js).
Proof.
  intros Hi. revert result. induction js as [|j js IH]; intros result Hjs.
  - simpl. by rewrite app_nil_r.
  - apply Forall_cons in Hjs as [Hj Hjs]. simpl.
    rewrite !py_getitem_total by done. simpl.
    rewrite IH by done. rewrite compare_counts_app, <- app_assoc. done.
Qed.

Lemma evaluate_outer_spec counts n idxs result :
  length counts = n → Forall (λ i, i < n) idxs →
  evaluate_outer counts n idxs result
  = Ok (result ++ pairs_outer counts n idxs).
Proof.
  intros Hn. revert result. induction idxs as [|i idxs IH]; intros result Hi.
  - simpl. by rewrite app_nil_r.
  - apply Forall_cons in Hi as [Hi His]. simpl.
    rewrite evaluate_inner_spec; [|lia|].
    + simpl. rewrite IH by done. by rewrite <- app_assoc.
    + apply Forall_forall. intros j Hj%elem_of_seq. lia.
Qed.

Lemma elem_of_compare_counts ci cj i j (p : nat * nat) :
  p ∈ compare_counts ci cj i j []
  ↔ (p = (i, j) ∧ cj < ci) ∨ (p = (j, i) ∧ ci < cj).
Proof.
  unfold compare_counts.
  destruct (Nat.ltb_spec cj ci); [|destruct (Nat.ltb_spec ci cj)]; simpl.
  - rewrite list_elem_of_singleton. split; [auto|]. intros [[? ?]|[? ?]]; [done|lia].
  - rewrite list_elem_of_singleton. split; [auto|]. intros [[? ?]|[? ?]]; [lia|done].
  - split; [by intros ?%elem_of_nil|]. intros [[? ?]|[? ?]]; lia.
Qed.

Lemma elem_of_pairs_outer counts n (w l : nat) :
  (w, l) ∈ pairs_outer counts n (seq 0 n)
  ↔ w < n ∧ l < n ∧ counts !!! l < counts !!! w.
Proof.
  unfold pairs_outer, pairs_inner. rewrite list_elem_of_bind. split.
  - intros (i & (j & Hp & Hj%elem_of_seq)%list_elem_of_bind & Hi%elem_of_seq).
    apply elem_of_compare_counts in Hp as [[Hp ?]|[Hp ?]];
      injection Hp as -> ->; lia.
  - intros (Hw & Hl & Hc).
    assert (w ≠ l) as Hne by (intros ->; lia).
    exists (Nat.min w l). split; [|apply elem_of_seq; lia].
    apply list_elem_of_bind. exists (Nat.max w l).
    split; [|apply elem_of_seq; lia].
    apply elem_of_compare_counts.
    destruct (decide (w < l)).
    + left. rewrite Nat.min_l, Nat.max_r by lia. done.
    + right. rewrite Nat.min_r, Nat.max_l by lia. done.
Qed.

Lemma pairs_inner_sorted counts i js :
  Forall (λ j, i < j) js → StronglySorted lt js →
  StronglySorted lex_lt (unordered <$> pairs_inner counts i js)
  ∧ Forall (λ p, p.1 = i ∧ p.2 ∈ js) (unordered <$> pairs_inner counts i js).
Proof.
  unfold pairs_inner.
  induction js as [|j js IH]; intros Hlt Hs; [split; constructor|].
  apply Forall_cons in Hlt as [Hij Hlt].
  apply StronglySorted_cons in Hs as [Hj Hs].
  destruct (IH Hlt Hs) as [IHs IHf].
  assert (Forall (λ p, p = (i, j))
            (unordered <$> compare_counts (counts !!! i) (counts !!! j) i j []))
    as Hhd.
  { apply Forall_forall. intros p (q & -> & Hq)%list_elem_of_fmap.
    apply elem_of_compare_counts in Hq as [[-> _]|[-> _]];
      unfold unordered; simpl; f_equal; lia. }
  rewrite bind_cons, fmap_app. split.
  - apply StronglySorted_app. split; [|split; [|done]].
    + intros p q Hp Hq.
      rewrite Forall_forall in Hhd. rewrite (Hhd p Hp).
      rewrite Forall_forall in IHf. destruct (IHf q Hq) as [Hq1 Hq2].
      rewrite Forall_forall in Hj. right. simpl. split; [done|]. by apply Hj.
    + unfold compare_counts. repeat case_match; simpl; repeat constructor.
  - apply Forall_app. split.
    + eapply Forall_impl; [exact Hhd|]. intros p ->. simpl.
      split; [done|]. apply elem_of_cons. by left.
    + eapply Forall_impl; [exact IHf|]. intros p [? ?].
      split; [done|]. apply elem_of_cons. by right.
Qed.

Lemma seq_strongly_sorted (a m : nat) : StronglySorted lt (seq a m).
Proof.
  revert a. induction m as [|m IH]; intros a; simpl; constructor; [apply IH|].
  apply Forall_forall. intros x Hx%elem_of_seq. lia.
Qed.

Lemma pairs_outer_sorted counts n idxs :
  StronglySorted lt idxs →
  StronglySorted lex_lt (unordered <$> pairs_outer counts n idxs)
  ∧ Forall (λ p, p.1 ∈ idxs) (unordered <$> pairs_outer counts n idxs).
Proof.
  unfold pairs_outer.
  induction idxs as [|i idxs IH]; intros Hs; [split; constructor|].
  apply StronglySorted_cons in Hs as [Hi Hs].
  destruct (IH Hs) as [IHs IHf].
  destruct (pairs_inner_sorted counts i (seq (S i) (n - S i))) as [Hs1 Hf1].
  { apply Forall_forall. intros j Hj%elem_of_seq. lia. }
  { apply seq_strongly_sorted. }
  rewrite bind_cons, fmap_app. split.
  - apply StronglySorted_app. split; [|done].
    intros p q Hp Hq. left.
    rewrite Forall_forall in Hf1. destruct (Hf1 p Hp) as [-> _].
    rewrite Forall_forall in IHf. rewrite Forall_forall in Hi.
    apply Hi, IHf, Hq.
  - apply Forall_app. split.
    + eapply Forall_impl; [exact Hf1|]. intros p [-> _].
      apply elem_of_cons. by left.
    + eapply Forall_impl; [exact IHf|]. intros p ?.
      apply elem_of_cons. by right.
Qed.

(** What [evaluate] returns on valid clicks. *)
Lemma evaluate_ok (r : Ranking) (clicks : list Z) :
  clicks_valid r clicks →
  ∃ counts,
    evaluate r clicks
    = Ok (pairs_outer counts (number_of_rankers r) (seq 0 (number_of_rankers r)))
    ∧ length counts = number_of_rankers r
    ∧ ∀ i, counts !!! i = clicks_on (rank_to_ranker_index r) clicks i.
Proof.
  intros Hv. unfold evaluate.
  destruct (tally_spec (rank_to_ranker_index r) clicks
              (replicate (number_of_rankers r) 0)) as (counts & Ht & Hlen & Hc).
  { by rewrite length_replicate. }
  rewrite length_replicate in Hlen.
  exists counts. rewrite Ht. simpl. rewrite evaluate_outer_spec; [|done|].
  - split; [done|]. split; [done|]. intros i. rewrite Hc.
    destruct (decide (i < number_of_rankers r)).
    + by rewrite lookup_total_replicate_2.
    + rewrite list_lookup_total_alt, (proj1 (lookup_replicate_None _ _ _)); [done|lia].
  - apply Forall_forall. intros i Hi%elem_of_seq. lia.
Qed.

Lemma evaluate_invalid (r : Ranking) (clicks : list Z) :
  ¬ clicks_valid r clicks → evaluate r clicks = Raise IndexError.
Proof.
  intros Hv. unfold evaluate. rewrite tally_fails; [done|].
  by rewrite length_replicate.
Qed.
End EvaluateFacts.

(** ** Lists *)

Section ListFacts.
Context {A : Type}.

Lemma filter_all (P : A → Prop) `{!∀ x, Decision (P x)} (l : list A) :
  Forall P l → filter P l = l.
Proof.
  induction 1 as [|x l Hx Hl IH]; [done|].
  rewrite filter_cons_True by done. by rewrite IH.
Qed.

Lemma delete_filter_NoDup `{!EqDecision A} (l : list A) (i : nat) (x : A) :
  NoDup l → l !! i = Some x → delete i l = filter (λ y, y ≠ x) l.
Proof.
  intros Hnd. revert i. induction Hnd as [|y l Hy Hnd IH]; intros i Hi; [done|].
  destruct i as [|i]; simpl in *.
  - injection Hi as ->. rewrite filter_cons_False by (intros ?; done).
    symmetry. apply filter_all, Forall_forall. congruence.
  - rewrite filter_cons_True.
    + by rewrite (IH i).
    + intros ->. apply Hy. by eapply list_elem_of_lookup_2.
Qed.

Lemma filter_ne_not_elem `{!EqDecision A} (l : list A) (x : A) :
  x ∉ l → filter (λ y, y ≠ x) l = l.
Proof. intros Hx. apply filter_all, Forall_forall. congruence. Qed.

(** The last place where an element occurs. *)
Lemma elem_of_last_occurrence `{!EqDecision A} (l : list A) (x : A) :
  x ∈ l → ∃ i, l !! i = Some x ∧ ∀ j, i < j → l !! j ≠ Some x.
Proof.
  intros (l1 & l2 & -> & Hx)%list_elem_of_split_r.
  exists (length l1). split.
  - by rewrite list_lookup_middle.
  - intros j Hj Hl. rewrite lookup_app_r in Hl by lia.
    destruct (j - length l1) as [|m] eqn:E; [lia|]. simpl in Hl.
    apply Hx. by eapply list_elem_of_lookup_2.
Qed.
End ListFacts.

(** ** The dict of a RemovalList *)

Section DictFacts.
Implicit Types (d : pydict) (k : Doc) (a : addr).

Lemma dict_get_None d k : dict_get d k = None ↔ k ∉ dict_keys d.
Proof.
  unfold dict_keys. induction d as [|[k' a'] d IH]; simpl.
  - split; [intros _; apply not_elem_of_nil|done].
  - rewrite not_elem_of_cons. destruct (decide (k' = k)) as [->|Hne].
    + split; [done|]. intros [? _]. congruence.
    + rewrite IH. split; [intros ?; split; [congruence|done]|by intros [_ ?]].
Qed.

Lemma dict_get_is_Some d k : is_Some (dict_get d k) ↔ k ∈ dict_keys d.
Proof.
  rewrite <- not_eq_None_Some, dict_get_None.
  split; [apply dec_stable|auto].
Qed.

Lemma dict_get_set d k a k' :
  dict_get (dict_set d k a) k'
  = if decide (k = k') then Some a else dict_get d k'.
Proof.
  induction d as [|[k0 a0] d IH]; simpl.
  - destruct (decide (k = k')); done.
  - destruct (decide (k0 = k)) as [->|Hne]; simpl.
    + destruct (decide (k = k')); done.
    + destruct (decide (k0 = k')) as [->|Hne'].
      * destruct (decide (k = k')); [congruence|done].
      * apply IH.
Qed.

Lemma dict_keys_set d k a :
  dict_keys (dict_set d k a)
  = if decide (k ∈ dict_keys d) then dict_keys d else dict_keys d ++ [k].
Proof.
  unfold dict_keys. induction d as [|[k0 a0] d IH].
  - rewrite decide_False by apply not_elem_of_nil. done.
  - rewrite (fmap_cons fst (k0, a0) d). simpl dict_set. simpl fst.
    destruct (decide (k0 = k)) as [->|Hne].
    + rewrite decide_True by (apply elem_of_cons; by left). done.
    + rewrite fmap_cons, IH. simpl fst.
      destruct (decide (k ∈ d.*1)) as [Hin|Hn].
      * rewrite decide_True by (apply elem_of_cons; by right). done.
      * rewrite decide_False; [done|].
        intros [?|?]%elem_of_cons; [congruence|done].
Qed.

Lemma dict_keys_pop d k :
  NoDup (dict_keys d) →
  dict_keys (dict_pop d k) = filter (λ k', k' ≠ k) (dict_keys d).
Proof.
  unfold dict_keys. induction d as [|[k0 a0] d IH]; [done|].
  rewrite (fmap_cons fst (k0, a0) d). simpl fst. simpl dict_pop.
  intros [Hk0 Hnd]%NoDup_cons.
  destruct (decide (k0 = k)) as [->|Hne].
  - rewrite filter_cons_False by (intros ?; done).
    by rewrite filter_ne_not_elem.
  - rewrite filter_cons_True by done. rewrite fmap_cons. simpl fst.
    by rewrite IH.
Qed.

Lemma dict_get_pop d k k' :
  NoDup (dict_keys d) →
  dict_get (dict_pop d k) k'
  = if decide (k = k') then None else dict_get d k'.
Proof.
  induction d as [|[k0 a0] d IH].
  - intros _. simpl. destruct (decide (k = k')); done.
  - unfold dict_keys. rewrite (fmap_cons fst (k0, a0) d). simpl fst.
    intros [Hk0 Hnd]%NoDup_cons. simpl.
    destruct (decide (k0 = k)) as [->|Hne]; simpl.
    + destruct (decide (k = k')) as [->|_]; [|done].
      by apply dict_get_None.
    + destruct (decide (k0 = k')) as [->|Hne'].
      * destruct (decide (k = k')); [congruence|done].
      * by apply IH.
Qed.

Lemma dict_set_NoDup d k a :
  NoDup (dict_keys d) → NoDup (dict_keys (dict_set d k a)).
Proof.
  intros Hnd. rewrite dict_keys_set. case_decide; [done|].
  apply NoDup_app. split; [done|]. split; [|apply NoDup_singleton].
  intros x Hx ->%list_elem_of_singleton. done.
Qed.

Lemma dict_pop_NoDup d k :
  NoDup (dict_keys d) → NoDup (dict_keys (dict_pop d k)).
Proof. intros Hnd. rewrite dict_keys_pop by done. by apply NoDup_filter. Qed.
End DictFacts.

(** ** The store: allocation and construction *)

Section StoreFacts.
Implicit Types (s : State) (X Y fp : list addr) (vs : list Doc).

Lemma own_perm s X Y : X ≡ₚ Y → own s X → own s Y.
Proof. intros HP [Hnd Hlt]. split; by rewrite <- HP. Qed.

Lemma own_NoDup s X : own s X → NoDup X.
Proof. intros [Hnd _]. by apply NoDup_app in Hnd as (_ & _ & ?). Qed.

Lemma own_app_r s X Y : own s (X ++ Y) → own s Y.
Proof.
  intros [Hnd Hlt]. split.
  - rewrite (Permutation_app_comm X Y), app_assoc in Hnd.
    by apply NoDup_app in Hnd as (? & _ & _).
  - rewrite (Permutation_app_comm X Y), app_assoc in Hlt.
    by apply Forall_app in Hlt as [? _].
Qed.

Lemma own_nil s X : own s X → own s [].
Proof. intros Ho. apply (own_app_r s X []). by rewrite app_nil_r. Qed.

Lemma own_disjoint s X Y a : own s (X ++ Y) → a ∈ X → a ∉ Y.
Proof.
  intros Ho%own_NoDup Ha. apply NoDup_app in Ho as (_ & Hd & _). by apply Hd.
Qed.

Lemma frame_refl X s : frame X s s.
Proof. by intros a _. Qed.

Lemma frame_trans X s1 s2 s3 : frame X s1 s2 → frame X s2 s3 → frame X s1 s3.
Proof. intros H12 H23 a Ha. rewrite (H23 a Ha). by apply H12. Qed.

Lemma frame_mono X Y s s' : (∀ a, a ∈ Y → a ∈ X) → frame X s s' → frame Y s s'.
Proof. intros Hsub Hf a Ha. apply Hf, Hsub, Ha. Qed.

(** A list is untouched by updates outside of its nodes. *)
Lemma repr_frame s s' rl vs fp :
  frame fp s s' → repr (nodes s) rl vs fp → repr (nodes s') rl vs fp.
Proof.
  intros Hf [Hlen Hhd Hch Hd1 Hd2 Hk]. split; try done.
  intros i a Ha. rewrite Hf; [by apply Hch|]. by eapply list_elem_of_lookup_2.
Qed.

Lemma take_one_spec s Y :
  own s Y →
  ∃ a s', take_one s = Ok (a, s') ∧ nodes s' = nodes s
          ∧ draws s' = draws s ∧ own s' (Y ++ [a]).
Proof.
  intros [Hnd Hlt]. unfold take_one, new_object.
  destruct (pool s) as [|a p] eqn:Hp.
  - eexists _, _. repeat split; simpl in *.
    + apply NoDup_app. split; [done|]. split; [|apply NoDup_singleton].
      intros x Hx ->%list_elem_of_singleton.
      rewrite Forall_forall in Hlt. specialize (Hlt _ Hx). lia.
    + apply Forall_app. split.
      * eapply Forall_impl; [exact Hlt|]. simpl. lia.
      * repeat constructor.
  - eexists _, _. repeat split; simpl in *.
    + rewrite app_assoc. apply NoDup_app. apply NoDup_cons in Hnd as [Ha Hnd].
      split; [done|]. split; [|apply NoDup_singleton].
      by intros x Hx ->%list_elem_of_singleton.
    + apply Forall_cons in Hlt as [Ha Hlt]. rewrite app_assoc.
      apply Forall_app. split; [done|]. by repeat constructor.
Qed.

Lemma append_spec s X rl vs fp v :
  repr (nodes s) rl vs fp → fp !! length vs = Some (last rl) →
  own s (X ++ fp) →
  ∃ node s',
    append rl v s
    = Ok (mkList (head rl) (dict_set (dict rl) v (last rl)) node, s')
    ∧ repr (nodes s')
           (mkList (head rl) (dict_set (dict rl) v (last rl)) node)
           (vs ++ [v]) (fp ++ [node])
    ∧ own s' (X ++ fp ++ [node]) ∧ frame X s s' ∧ draws s' = draws s.
Proof.
  intros [Hlen Hhd Hch Hd1 Hd2 Hk] Hlast Hown.
  destruct (take_one_spec s _ Hown) as (node & s1 & Ht & Hn1 & Hdr1 & Hown1).
  unfold append, bind. rewrite Ht. simpl.
  eexists node, _. split; [reflexivity|]. simpl.
  assert (NoDup (fp ++ [node])) as Hndfp.
  { apply own_NoDup in Hown1. rewrite <- app_assoc in Hown1.
    by apply NoDup_app in Hown1 as (_ & _ & ?). }
  assert (node ∉ fp) as Hnode.
  { apply NoDup_app in Hndfp as (_ & Hd & _). intros Hin.
    apply (Hd node Hin). by apply list_elem_of_singleton. }
  assert (last rl ∈ fp) as Hlastin by (by eapply list_elem_of_lookup_2).
  assert (last rl ≠ node) as Hne by congruence.
  split; [|split; [|split]].
  - split; simpl.
    + rewrite !length_app. simpl. lia.
    + by rewrite lookup_app_l by lia.
    + intros i a Ha. rewrite Hn1.
      destruct (decide (i < length vs)) as [Hi|Hi].
      * rewrite lookup_app_l in Ha by lia.
        assert (a ≠ last rl) as Hal.
        { intros ->. apply NoDup_app in Hndfp as (Hndf & _ & _).
          pose proof (NoDup_lookup _ _ _ _ Hndf Ha Hlast). lia. }
        assert (a ≠ node) as Han.
        { intros ->. apply Hnode. by eapply list_elem_of_lookup_2. }
        rewrite lookup_insert_ne, lookup_insert_ne by done.
        rewrite (Hch i a Ha). f_equal.
        rewrite (lookup_app_l vs) by lia.
        rewrite (lookup_app_l fp) by lia. done.
      * destruct (decide (i = length vs)) as [->|Hi'].
        -- rewrite lookup_app_l in Ha by lia.
           assert (a = last rl) as -> by congruence.
           rewrite lookup_insert_ne, lookup_insert_eq by done. f_equal.
           rewrite (lookup_app_r vs), Nat.sub_diag by lia.
           rewrite (lookup_app_r fp), Hlen, Nat.sub_diag by lia. done.
        -- assert (i = length fp) as -> by
             (apply lookup_lt_Some in Ha; rewrite length_app in Ha; simpl in Ha; lia).
           rewrite lookup_app_r, Nat.sub_diag in Ha by lia.
           injection Ha as <-. rewrite lookup_insert_eq. f_equal.
           rewrite (proj2 (lookup_ge_None _ _)) by (rewrite length_app; simpl; lia).
           rewrite (proj2 (lookup_ge_None _ _)) by (rewrite length_app; simpl; lia).
           done.
    + intros i u Hu Hlater. rewrite dict_get_set.
      destruct (decide (i < length vs)) as [Hi|Hi].
      * rewrite lookup_app_l in Hu by lia.
        destruct (decide (v = u)) as [->|Hvu].
        { destruct (Hlater (length vs)); [lia|].
          by rewrite lookup_app_r, Nat.sub_diag by lia. }
        rewrite lookup_app_l by lia. apply Hd1; [done|].
        intros j Hj Hvj. apply (Hlater j Hj).
        apply lookup_app_Some. by left.
      * assert (i = length vs) as ->.
        { apply lookup_lt_Some in Hu. rewrite length_app in Hu. simpl in Hu. lia. }
        rewrite lookup_app_r, Nat.sub_diag in Hu by lia. injection Hu as ->.
        rewrite decide_True by done. by rewrite lookup_app_l by lia.
    + intros u Hu. rewrite dict_get_set.
      rewrite not_elem_of_app, not_elem_of_cons in Hu.
      destruct Hu as [Hu [Hvu _]]. rewrite decide_False by congruence.
      by apply Hd2.
    + by apply dict_set_NoDup.
  - by rewrite <- app_assoc in Hown1.
  - intros a Ha. simpl. rewrite Hn1.
    apply own_NoDup in Hown1.
    rewrite <- app_assoc in Hown1.
    apply NoDup_app in Hown1 as (_ & Hd & _). specialize (Hd a Ha).
    rewrite not_elem_of_app, list_elem_of_singleton in Hd. destruct Hd as [Hafp Han].
    rewrite !lookup_insert_ne; [done|congruence|congruence].
  - simpl. done.
Qed.
Lemma foldM_append_spec (l : list Doc) s X rl vs fp :
  repr (nodes s) rl vs fp → fp !! length vs = Some (last rl) →
  own s (X ++ fp) →
  ∃ rl' s' fp',
    foldM append l rl s = Ok (rl', s')
    ∧ repr (nodes s') rl' (vs ++ l) fp'
    ∧ fp' !! length (vs ++ l) = Some (last rl')
    ∧ own s' (X ++ fp') ∧ frame X s s' ∧ draws s' = draws s.
Proof.
  revert s rl vs fp. induction l as [|v l IH]; intros s rl vs fp Hr Hlast Hown.
  - exists rl, s, fp. rewrite app_nil_r. simpl. unfold ret.
    split_and!; try done.
  - destruct (append_spec s X rl vs fp v Hr Hlast Hown)
      as (node & s1 & Happ & Hr1 & Hown1 & Hf1 & Hd1).
    destruct (IH s1 _ (vs ++ [v]) (fp ++ [node]) Hr1) as
      (rl' & s' & fp' & Hfold & Hr' & Hlast' & Hown' & Hf' & Hd').
    { simpl. rewrite length_app. simpl.
      rewrite lookup_app_r by (rewrite (repr_length _ _ _ _ Hr); lia).
      rewrite (repr_length _ _ _ _ Hr).
      replace (length vs + 1 - S (length vs)) with 0 by lia. done. }
    { done. }
    exists rl', s', fp'. simpl. unfold bind. rewrite Happ.
    rewrite <- app_assoc in Hr', Hlast'. simpl in Hr', Hlast'.
    split_and!; try done.
    + by eapply frame_trans.
    + congruence.
Qed.

(** Building a list from any sequence of values, repeats included. *)
Lemma RemovalList_init_spec (l : list Doc) s X :
  own s X →
  ∃ rl s' fp,
    RemovalList_init l s = Ok (rl, s')
    ∧ repr (nodes s') rl l fp
    ∧ own s' (X ++ fp) ∧ frame X s s' ∧ draws s' = draws s.
Proof.
  intros Hown. unfold RemovalList_init, bind, new_object, set_node. simpl.
  set (s1 := mkState (<[next_addr s := mkNode None None]> (nodes s)) (pool s)
                     (S (next_addr s)) (draws s)).
  assert (next_addr s ∉ pool s ++ X) as Hfresh.
  { intros Hin. destruct Hown as [_ Hlt]. rewrite Forall_forall in Hlt.
    specialize (Hlt _ Hin). lia. }
  destruct (foldM_append_spec l s1 X (mkList (next_addr s) [] (next_addr s))
              [] [next_addr s]) as (rl' & s' & fp' & Hfold & Hr' & _ & Hown' & Hf' & Hd').
  - split; simpl; try done.
    + intros i a Ha. destruct i as [|i]; [|done]. simpl in Ha.
      injection Ha as <-. by rewrite lookup_insert_eq.
    + constructor.
  - done.
  - destruct Hown as [Hnd Hlt]. split; simpl.
    + rewrite app_assoc. apply NoDup_app. split; [done|].
      split; [|apply NoDup_singleton].
      by intros x Hx ->%list_elem_of_singleton.
    + rewrite app_assoc. apply Forall_app. split.
      * eapply Forall_impl; [exact Hlt|]. simpl. lia.
      * repeat constructor.
  - exists rl', s', fp'. split_and!; try done.
    intros a Ha. rewrite (Hf' a Ha). simpl.
      rewrite lookup_insert_ne; [done|]. intros <-. apply Hfresh.
      apply elem_of_app. by right.
Qed.

(** [get_length] counts the distinct values. *)
Lemma get_length_repr nd rl vs fp :
  repr nd rl vs fp → get_length rl = length (remove_dups vs).
Proof.
  intros Hr. unfold get_length.
  rewrite <- (length_fmap fst). change (dict rl).*1 with (dict_keys (dict rl)).
  apply Permutation_length, NoDup_Permutation.
  - apply Hr.
  - apply NoDup_remove_dups.
  - intros v. rewrite elem_of_remove_dups, <- dict_get_is_Some. split.
    + intros Hs. destruct (decide (v ∈ vs)) as [|Hn]; [done|].
      rewrite (repr_dict_absent _ _ _ _ Hr v Hn) in Hs. by destruct Hs.
    + intros (i & Hi & Hl)%elem_of_last_occurrence.
      rewrite (repr_dict_last _ _ _ _ Hr i v Hi Hl).
      apply lookup_lt_is_Some. rewrite (repr_length _ _ _ _ Hr).
      apply lookup_lt_Some in Hi. lia.
Qed.

Lemma get_length_NoDup nd rl vs fp :
  repr nd rl vs fp → NoDup vs → get_length rl = length vs.
Proof.
  intros Hr Hnd. rewrite (get_length_repr _ _ _ _ Hr).
  apply Permutation_length, NoDup_Permutation;
    [apply NoDup_remove_dups|done|apply elem_of_remove_dups].
Qed.
End StoreFacts.

(** ** Removal *)

Section RemoveFacts.
Implicit Types (s : State) (X Y fp : list addr) (vs : list Doc).

(** Unlinking the node after [fp !! i]: it takes over the slots of its
    successor, which leaves the chain. *)
Lemma repr_unlink nd rl vs fp i v a :
  repr nd rl vs fp → NoDup vs → NoDup fp →
  vs !! i = Some v → fp !! i = Some a →
  repr (<[a := mkNode (vs !! S i) (fp !! S (S i))]> nd)
       (mkList (head rl)
               (match vs !! S i with
                | Some w => dict_set (dict_pop (dict rl) v) w a
                | None => dict_pop (dict rl) v
                end)
               (last rl))
       (delete i vs) (delete (S i) fp).
Proof.
  intros [Hlen Hhd Hch Hd1 Hd2 Hk] Hndv Hndf Hv Ha.
  pose proof (lookup_lt_Some _ _ _ Hv) as Hi.
  assert (∀ j u, vs !! j = Some u → dict_get (dict rl) u = fp !! j) as Hd1'.
  { intros j u Hu. apply Hd1; [done|]. intros j' Hj' Hu'.
    pose proof (NoDup_lookup _ _ _ _ Hndv Hu Hu'). lia. }
  assert (∀ u, dict_get
            (match vs !! S i with
             | Some w => dict_set (dict_pop (dict rl) v) w a
             | None => dict_pop (dict rl) v
             end) u
          = if decide (vs !! S i = Some u) then Some a
            else if decide (v = u) then None else dict_get (dict rl) u) as Hget.
  { intros u. destruct (vs !! S i) as [w|] eqn:Hw.
    - rewrite dict_get_set, dict_get_pop by done.
      repeat case_decide; congruence.
    - rewrite dict_get_pop by done. repeat case_decide; congruence. }
  assert (∀ j b, fp !! j = Some b → j ≠ i → b ≠ a) as Hne.
  { intros j b Hb Hj ->. pose proof (NoDup_lookup _ _ _ _ Hndf Ha Hb). lia. }
  split; simpl.
  - rewrite !length_delete; [lia| |].
    + apply lookup_lt_is_Some. lia.
    + apply lookup_lt_is_Some. lia.
  - by rewrite list_lookup_delete_lt by lia.
  - intros j b Hb.
    destruct (decide (j < i)) as [Hj|Hj]; [|destruct (decide (j = i)) as [->|Hji]].
    + rewrite list_lookup_delete_lt in Hb by lia.
      rewrite (list_lookup_delete_lt vs), (list_lookup_delete_lt fp) by lia.
      rewrite lookup_insert_ne by (apply not_eq_sym, (Hne j); [done|lia]).
      by apply Hch.
    + rewrite list_lookup_delete_lt in Hb by lia.
      rewrite (list_lookup_delete_ge vs), (list_lookup_delete_ge fp) by lia.
      assert (b = a) as -> by congruence. by rewrite lookup_insert_eq.
    + rewrite list_lookup_delete_ge in Hb by lia.
      rewrite (list_lookup_delete_ge vs), (list_lookup_delete_ge fp) by lia.
      rewrite lookup_insert_ne by (apply not_eq_sym, (Hne (S j)); [done|lia]).
      by apply Hch.
  - intros j u Hu _. rewrite Hget.
    destruct (decide (j < i)) as [Hj|Hj]; [|destruct (decide (j = i)) as [->|Hji]].
    + rewrite list_lookup_delete_lt in Hu by lia.
      rewrite list_lookup_delete_lt by lia.
      case_decide as Hw.
      { pose proof (NoDup_lookup _ _ _ _ Hndv Hu Hw). lia. }
      case_decide as Hvu.
      { subst u. pose proof (NoDup_lookup _ _ _ _ Hndv Hu Hv). lia. }
      by apply Hd1'.
    + rewrite list_lookup_delete_ge in Hu by lia.
      rewrite list_lookup_delete_lt by lia.
      rewrite decide_True by done. done.
    + rewrite list_lookup_delete_ge in Hu by lia.
      rewrite list_lookup_delete_ge by lia.
      case_decide as Hw.
      { pose proof (NoDup_lookup _ _ _ _ Hndv Hu Hw). lia. }
      case_decide as Hvu.
      { subst u. pose proof (NoDup_lookup _ _ _ _ Hndv Hu Hv). lia. }
      by apply Hd1'.
  - intros u Hu. rewrite Hget.
    case_decide as Hw.
    { destruct Hu. apply list_elem_of_lookup. exists i.
      by rewrite list_lookup_delete_ge by lia. }
    case_decide as Hvu; [done|].
    apply Hd2. intros (j & Hj)%list_elem_of_lookup. apply Hu.
    apply list_elem_of_lookup.
    destruct (decide (j < i)).
    + exists j. by rewrite list_lookup_delete_lt by lia.
    + assert (j ≠ i) by (intros ->; congruence).
      exists (j - 1). rewrite list_lookup_delete_ge by lia.
      by replace (S (j - 1)) with j by lia.
  - destruct (vs !! S i).
    + by apply dict_set_NoDup, dict_pop_NoDup.
    + by apply dict_pop_NoDup.
Qed.

Lemma remove_spec s X rl vs fp d :
  repr (nodes s) rl vs fp → NoDup vs → own s (X ++ fp) →
  ∃ rl' s' fp',
    remove d rl s = Ok (rl', s')
    ∧ repr (nodes s') rl' (drop_doc d vs) fp'
    ∧ own s' (X ++ fp') ∧ frame X s s' ∧ draws s' = draws s
    ∧ head rl' = head rl.
Proof.
  intros Hr Hndv Hown.
  destruct d as [v|]; simpl; [|by exists rl, s, fp].
  destruct (decide (v ∈ vs)) as [Hin|Hnin].
  2:{ rewrite (repr_dict_absent _ _ _ _ Hr v Hnin).
      rewrite filter_ne_not_elem by done. by exists rl, s, fp. }
  apply list_elem_of_lookup in Hin as [i Hv].
  pose proof (lookup_lt_Some _ _ _ Hv) as Hi.
  pose proof (repr_length _ _ _ _ Hr) as Hlen.
  destruct (lookup_lt_is_Some_2 fp i) as [a Ha]; [lia|].
  destruct (lookup_lt_is_Some_2 fp (S i)) as [nx Hnx]; [lia|].
  assert (NoDup fp) as Hndf by (eapply own_NoDup, own_app_r, Hown).
  rewrite (repr_dict_last _ _ _ _ Hr i v Hv), Ha.
  2:{ intros j Hj Hu. pose proof (NoDup_lookup _ _ _ _ Hndv Hv Hu). lia. }
  unfold bind, remove_next, bind, get_node, pool_push, set_node, ret, raise.
  rewrite (repr_chain _ _ _ _ Hr i a Ha), Hv, Hnx. simpl.
  rewrite (repr_chain _ _ _ _ Hr (S i) nx Hnx). simpl.
  pose proof (repr_unlink _ _ _ _ i v a Hr Hndv Hndf Hv Ha) as Hr'.
  rewrite <- (delete_filter_NoDup vs i v Hndv Hv).
  assert (own (mkState (<[a := mkNode (vs !! S i) (fp !! S (S i))]> (nodes s))
                       (nx :: pool s) (next_addr s) (draws s))
              (X ++ delete (S i) fp)) as Hown'.
  { destruct Hown as [Hnd Hlt]. unfold own. simpl.
    assert ((nx :: pool s) ++ X ++ delete (S i) fp ≡ₚ pool s ++ X ++ fp) as HP.
    { rewrite (delete_Permutation fp (S i) nx Hnx) at 2.
      simpl. rewrite <- !Permutation_middle. done. }
    split; by rewrite HP. }
  assert (frame X s (mkState (<[a := mkNode (vs !! S i) (fp !! S (S i))]> (nodes s))
                       (nx :: pool s) (next_addr s) (draws s))) as Hfr.
  { intros b Hb. simpl. rewrite lookup_insert_ne; [done|]. intros <-.
    eapply (own_disjoint s X fp a); [exact Hown|exact Hb|].
    by eapply list_elem_of_lookup_2. }
  destruct (vs !! S i) as [w|] eqn:Hw;
    eexists _, _, _; (split; [reflexivity|]); split_and!; done.
Qed.
End RemoveFacts.

(** ** choice_one_of and _advance *)

Section AdvanceFacts.
Context {F : Type} `{FloatOps F}.
Variable tau : F.
Variable rng : Rng F.
Implicit Types (s : State) (X Y fp : list addr) (vs : list Doc).

Lemma choice_scan_spec s rl vs fp (f : F) (cumulation : list F) m i :
  repr (nodes s) rl vs fp → i + m ≤ length vs →
  (∀ j, j < i + m → is_Some (cumulation !! j)) →
  choice_scan f cumulation (seq i m) (fp !! i) s
  = Ok (scan_pick f cumulation (seq i m) vs, s).
Proof.
  intros Hr. revert i. induction m as [|m IH]; intros i Hle Hc; [done|].
  simpl. unfold bind, getitem.
  destruct (Hc i) as [c Hci]; [lia|]. rewrite Hci. unfold ret at 1.
  destruct (lookup_lt_is_Some_2 fp i) as [a Ha].
  { rewrite (repr_length _ _ _ _ Hr). lia. }
  rewrite Ha. unfold get_node. rewrite (repr_chain _ _ _ _ Hr i a Ha).
  simpl. destruct (fltb f c); [done|].
  apply IH; [lia|]. intros j Hj. apply Hc. lia.
Qed.

Lemma choice_one_of_spec s rl vs fp :
  repr (nodes s) rl vs fp → NoDup vs →
  choice_one_of tau rng rl s
  = Ok (pick tau (random_random rng (draws s)) vs,
        mkState (nodes s) (pool s) (next_addr s) (S (draws s))).
Proof.
  intros Hr Hnd. unfold choice_one_of, bind, draw.
  rewrite (get_length_NoDup _ _ _ _ Hr Hnd).
  rewrite <- (repr_head _ _ _ _ Hr).
  apply (choice_scan_spec (mkState _ _ _ _) rl vs fp); simpl; [done|lia|].
  intros j Hj. apply lookup_lt_is_Some.
  rewrite length_cumulation_cache. lia.
Qed.

Lemma scan_pick_elem (f : F) cumulation idxs vs v :
  scan_pick f cumulation idxs vs = Some v → v ∈ vs.
Proof.
  induction idxs as [|i idxs IH]; simpl; [done|].
  destruct (cumulation !! i) as [c|]; [|done].
  destruct (fltb f c); [|done]. intros Hv. by eapply list_elem_of_lookup_2.
Qed.

Lemma pick_elem (f : F) vs v : pick tau f vs = Some v → v ∈ vs.
Proof. apply scan_pick_elem. Qed.

Lemma scan_pick_found (f : F) cumulation vs m i :
  i + S m = length vs →
  (∀ j, j < length vs → is_Some (cumulation !! j)) →
  (∃ c, cumulation !! (length vs - 1) = Some c ∧ fltb f c = true) →
  is_Some (scan_pick f cumulation (seq i (S m)) vs).
Proof.
  intros Hlen Hc (c1 & Hc1 & Hf). revert i Hlen.
  induction m as [|m IH]; intros i Hlen.
  - simpl. replace i with (length vs - 1) by lia. rewrite Hc1, Hf.
    apply lookup_lt_is_Some. lia.
  - change (seq i (S (S m))) with (i :: seq (S i) (S m)).
    cbn [scan_pick]. destruct (Hc i) as [c Hci]; [lia|]. rewrite Hci.
    destruct (fltb f c).
    + apply lookup_lt_is_Some. lia.
    + apply IH. lia.
Qed.

(** A draw below [1] from a non-empty sequence yields one of its
    documents. *)
Lemma pick_is_Some (f : F) vs :
  vs ≠ [] → fltb f (of_int 1) = true → is_Some (pick tau f vs).
Proof.
  intros Hne Hf. unfold pick.
  destruct vs as [|v vs']; [done|]. set (vs := v :: vs').
  change (length vs) with (S (length vs')).
  apply (scan_pick_found f _ vs (length vs') 0); [done| |].
  - intros j Hj. apply lookup_lt_is_Some. rewrite length_cumulation_cache.
    simpl in *. lia.
  - exists (of_int 1). split; [|done]. apply cumulation_cache_last.
Qed.
Lemma Forall3_repr_frame s s' rls vss fps :
  frame (concat fps) s s' →
  Forall3 (repr (nodes s)) rls vss fps → Forall3 (repr (nodes s')) rls vss fps.
Proof.
  intros Hf Hall. induction Hall as [|rl vs fp rls vss fps Hr Hall IH];
    constructor.
  - eapply repr_frame; [|exact Hr]. eapply frame_mono; [|exact Hf].
    intros a Ha. simpl. apply elem_of_app. by left.
  - apply IH. eapply frame_mono; [|exact Hf].
    intros a Ha. simpl. apply elem_of_app. by right.
Qed.

(** An operation that works on the nodes of one list lifts to a loop over
    all the lists. *)
Lemma forM_local (f : RemovalList → M RemovalList)
    (R : list Doc → list Doc → Prop) :
  (∀ s X rl vs fp,
      repr (nodes s) rl vs fp → NoDup vs → own s (X ++ fp) →
      ∃ rl' s' vs' fp',
        f rl s = Ok (rl', s') ∧ repr (nodes s') rl' vs' fp' ∧ NoDup vs'
        ∧ R vs vs' ∧ own s' (X ++ fp') ∧ frame X s s' ∧ draws s' = draws s) →
  ∀ rls vss fps s X,
    Forall3 (repr (nodes s)) rls vss fps → Forall NoDup vss →
    own s (X ++ concat fps) →
    ∃ rls' s' vss' fps',
      forM f rls s = Ok (rls', s')
      ∧ Forall3 (repr (nodes s')) rls' vss' fps' ∧ Forall NoDup vss'
      ∧ Forall2 R vss vss' ∧ own s' (X ++ concat fps')
      ∧ frame X s s' ∧ draws s' = draws s.
Proof.
  intros Hop rls. induction rls as [|rl rls IH]; intros vss fps s X Hall Hnd Hown.
  - inversion Hall; subst. exists [], s, [], []. simpl. unfold ret.
    split_and!; try done; constructor.
  - inversion Hall as [|? vs fp ? vss0 fps0 Hr Hrest]; subst.
    apply Forall_cons in Hnd as [Hndv Hnd]. simpl in Hown.
    destruct (Hop s (X ++ concat fps0) rl vs fp Hr Hndv)
      as (rl' & s1 & vs' & fp' & Hf & Hr' & Hndv' & HR & Hown1 & Hfr1 & Hd1).
    { eapply own_perm; [|exact Hown].
      rewrite <- !app_assoc. apply Permutation_app_head, Permutation_app_comm. }
    destruct (IH vss0 fps0 s1 (X ++ fp'))
      as (rls' & s' & vss' & fps' & Hfm & Hall' & Hnd' & HR' & Hown' & Hfr' & Hd').
    { eapply Forall3_repr_frame; [|exact Hrest]. eapply frame_mono; [|exact Hfr1].
      intros a Ha. apply elem_of_app. by right. }
    { done. }
    { eapply own_perm; [|exact Hown1].
      rewrite <- !app_assoc. apply Permutation_app_head, Permutation_app_comm. }
    exists (rl' :: rls'), s', (vs' :: vss'), (fp' :: fps'). simpl.
    unfold bind. rewrite Hf, Hfm. unfold ret. split_and!; try done.
    + constructor; [|done]. eapply repr_frame; [|exact Hr'].
      eapply frame_mono; [|exact Hfr']. intros a Ha. apply elem_of_app. by right.
    + by constructor.
    + by constructor.
    + by rewrite <- app_assoc in Hown'.
    + eapply frame_trans.
      * eapply frame_mono; [|exact Hfr1]. intros a Ha. apply elem_of_app. by left.
      * eapply frame_mono; [|exact Hfr']. intros a Ha. apply elem_of_app. by left.
    + congruence.
Qed.

Lemma Forall2_eq_fmap {A B} (g : A → B) (l : list A) (k : list B) :
  Forall2 (λ x y, y = g x) l k → k = g <$> l.
Proof. induction 1 as [|x y l k Hxy Hlk IH]; [done|]. rewrite fmap_cons. by rewrite Hxy, IH. Qed.

Lemma drop_doc_NoDup d vs : NoDup vs → NoDup (drop_doc d vs).
Proof. destruct d; simpl; [apply NoDup_filter|done]. Qed.

Lemma remove_all_spec d s rls vss :
  rankings_inv s rls vss →
  ∃ rls' s',
    forM (remove d) rls s = Ok (rls', s')
    ∧ rankings_inv s' rls' (drop_doc d <$> vss) ∧ draws s' = draws s.
Proof.
  intros (fps & Hall & Hnd & Hown).
  destruct (forM_local (remove d) (λ vs vs', vs' = drop_doc d vs)) with
    (rls := rls) (vss := vss) (fps := fps) (s := s) (X := @nil addr)
    as (rls' & s' & vss' & fps' & Hfm & Hall' & Hnd' & HR & Hown' & _ & Hd');
    try done.
  - intros s0 X rl vs fp Hr Hndv Ho.
    destruct (remove_spec s0 X rl vs fp d Hr Hndv Ho)
      as (rl' & s1 & fp' & Hrm & Hr' & Ho' & Hf' & Hdr & _).
    exists rl', s1, (drop_doc d vs), fp'. split_and!; try done.
    by apply drop_doc_NoDup.
  - exists rls', s'. split; [done|]. split; [|done].
    apply Forall2_eq_fmap in HR. subst vss'. by exists fps'.
Qed.

Lemma advance_spec s rls vss i vs out :
  rankings_inv s rls vss → vss !! i = Some vs →
  ∃ rls' s',
    _advance tau rng rls i out s
    = Ok ((rls',
           mkRanking
             (documents out ++ [pick tau (random_random rng (draws s)) vs])
             (rank_to_ranker_index out ++ [i])
             (number_of_rankers out)), s')
    ∧ rankings_inv s' rls'
        (drop_doc (pick tau (random_random rng (draws s)) vs) <$> vss)
    ∧ draws s' = S (draws s).
Proof.
  intros (fps & Hall & Hnd & Hown) Hi.
  destruct (Forall3_lookup_m _ _ _ _ _ _ Hall Hi) as (rl & fp & Hrl & Hfp & Hr).
  unfold _advance, bind, getitem. rewrite Hrl. unfold ret at 1.
  rewrite (choice_one_of_spec s rl vs fp Hr).
  2:{ rewrite Forall_forall in Hnd. apply Hnd. by eapply list_elem_of_lookup_2. }
  set (d := pick tau (random_random rng (draws s)) vs).
  destruct (remove_all_spec d
              (mkState (nodes s) (pool s) (next_addr s) (S (draws s))) rls vss)
    as (rls' & s' & Hfm & Hinv & Hdr).
  { by exists fps. }
  exists rls', s'. rewrite Hfm. unfold ret. done.
Qed.

Lemma foldM_remove_spec (ks : list Doc) s X rl vs fp :
  repr (nodes s) rl vs fp → NoDup vs → own s (X ++ fp) →
  ∃ rl' s' vs' fp',
    foldM (λ r v, remove (Some v) r) ks rl s = Ok (rl', s')
    ∧ repr (nodes s') rl' vs' fp' ∧ NoDup vs'
    ∧ own s' (X ++ fp') ∧ frame X s s' ∧ draws s' = draws s.
Proof.
  revert s rl vs fp. induction ks as [|k ks IH]; intros s rl vs fp Hr Hnd Hown.
  - exists rl, s, vs, fp. simpl. unfold ret. split_and!; done.
  - destruct (remove_spec s X rl vs fp (Some k) Hr Hnd Hown)
      as (rl1 & s1 & fp1 & Hrm & Hr1 & Ho1 & Hf1 & Hd1 & _).
    destruct (IH s1 rl1 _ fp1 Hr1 (drop_doc_NoDup (Some k) vs Hnd) Ho1)
      as (rl' & s' & vs' & fp' & Hfold & Hr' & Hnd' & Ho' & Hf' & Hd').
    exists rl', s', vs', fp'. cbn [foldM]. unfold bind. rewrite Hrm.
    split_and!; try done; [by eapply frame_trans|congruence].
Qed.

Lemma truncate_all_spec s rls vss :
  rankings_inv s rls vss →
  ∃ rls' s', forM truncate rls s = Ok (rls', s')
             ∧ heap_wf s' ∧ draws s' = draws s.
Proof.
  intros (fps & Hall & Hnd & Hown).
  destruct (forM_local truncate (λ _ _, True)) with
    (rls := rls) (vss := vss) (fps := fps) (s := s) (X := @nil addr)
    as (rls' & s' & vss' & fps' & Hfm & Hall' & Hnd' & HR & Hown' & _ & Hd');
    try done.
  - intros s0 X rl vs fp Hr Hndv Ho.
    destruct (foldM_remove_spec (dict_keys (dict rl)) s0 X rl vs fp Hr Hndv Ho)
      as (rl' & s1 & vs' & fp' & Hrm & Hr' & Hnd1 & Ho' & Hf' & Hdr).
    exists rl', s1, vs', fp'. split_and!; done.
  - exists rls', s'. split; [done|]. split; [|done].
    unfold heap_wf. by eapply own_nil.
Qed.

Lemma build_rankings_spec (lists : list (list Doc)) s :
  heap_wf s → Forall NoDup lists →
  ∃ rls s', forM RemovalList_init lists s = Ok (rls, s')
            ∧ rankings_inv s' rls lists ∧ draws s' = draws s.
Proof.
  intros Hwf Hnd.
  assert (∀ X s0, own s0 X →
    ∃ rls s' fps, forM RemovalList_init lists s0 = Ok (rls, s')
      ∧ Forall3 (repr (nodes s')) rls lists fps ∧ own s' (X ++ concat fps)
      ∧ frame X s0 s' ∧ draws s' = draws s0) as Hgen.
  { clear Hwf Hnd s. induction lists as [|l lists IH]; intros X s0 Hown.
    - exists [], s0, []. simpl. unfold ret. rewrite app_nil_r.
      split_and!; try done; constructor.
    - destruct (RemovalList_init_spec l s0 X Hown)
        as (rl & s1 & fp & Hin & Hr & Ho1 & Hf1 & Hd1).
      destruct (IH (X ++ fp) s1 Ho1)
        as (rls & s' & fps & Hfm & Hall & Ho' & Hf' & Hd').
      exists (rl :: rls), s', (fp :: fps). simpl. unfold bind.
      rewrite Hin, Hfm. unfold ret. split_and!; try done.
      + constructor; [|done]. eapply repr_frame; [|exact Hr].
        eapply frame_mono; [|exact Hf']. intros a Ha. apply elem_of_app. by right.
      + by rewrite <- app_assoc in Ho'.
      + eapply frame_trans; [exact Hf1|].
        eapply frame_mono; [|exact Hf']. intros a Ha. apply elem_of_app. by left.
      + congruence. }
  destruct (Hgen [] s Hwf) as (rls & s' & fps & Hfm & Hall & Ho & _ & Hd).
  exists rls, s'. split; [done|]. split; [|done]. by exists fps.
Qed.
End AdvanceFacts.

(** ** The loops of interleave and multileave *)

Section LoopFacts.
Context {F : Type} `{FloatOps F}.
Variable tau : F.
Variable rng : Rng F.

Lemma rankings_inv_draws s rls vss n :
  rankings_inv s rls vss →
  rankings_inv (mkState (nodes s) (pool s) (next_addr s) n) rls vss.
Proof. intros (fps & ? & ? & ?). by exists fps. Qed.

Lemma rankings_inv_length s rls vss :
  rankings_inv s rls vss → length rls = length vss.
Proof. intros (fps & Hall & _). by eapply Forall3_length_lm. Qed.

Lemma elem_of_drop_doc d vs v :
  v ∈ drop_doc d vs ↔ v ∈ vs ∧ d ≠ Some v.
Proof.
  destruct d as [u|]; simpl.
  - rewrite list_elem_of_filter. split; intros [? ?]; split; congruence.
  - split; [done|by intros [? _]].
Qed.

Lemma chosen_snoc out d i :
  chosen (mkRanking (documents out ++ [d]) (rank_to_ranker_index out ++ [i])
                    (number_of_rankers out))
  = chosen out ++ match d with Some v => [v] | None => [] end.
Proof. unfold chosen. simpl. rewrite omap_app. by destruct d. Qed.

Lemma loop_inv_step lists out vss i vs d :
  loop_inv lists out vss → vss !! i = Some vs →
  (∀ v, d = Some v → v ∈ vs) →
  loop_inv lists
    (mkRanking (documents out ++ [d]) (rank_to_ranker_index out ++ [i])
               (number_of_rankers out))
    (drop_doc d <$> vss).
Proof.
  intros ((Hnd & Hsrc & Hlen & Hidx) & Hdis & Hin) Hi Hd.
  assert (vs ∈ vss) as Hvs by (by eapply list_elem_of_lookup_2).
  unfold loop_inv, out_ok. rewrite chosen_snoc, length_fmap. simpl.
  split_and!.
  - destruct d as [v|]; [|by rewrite app_nil_r].
    apply NoDup_app. split; [done|]. split; [|apply NoDup_singleton].
    intros x Hx ->%list_elem_of_singleton.
    apply (Hdis v vs Hx Hvs). by apply Hd.
  - intros x [Hx|Hx]%elem_of_app; [by apply Hsrc|].
    destruct d as [v|]; [|by apply elem_of_nil in Hx].
    apply list_elem_of_singleton in Hx as ->.
    apply (Hin vs v Hvs). by apply Hd.
  - rewrite !length_app. simpl. lia.
  - apply Forall_app. split; [done|]. repeat constructor.
    by eapply lookup_lt_Some.
  - intros x vs' [Hx|Hx]%elem_of_app (vs0 & -> & Hvs0)%list_elem_of_fmap.
    + rewrite elem_of_drop_doc. intros [Hx0 _]. by apply (Hdis x vs0).
    + destruct d as [v|]; [|by apply elem_of_nil in Hx].
      apply list_elem_of_singleton in Hx as ->.
      rewrite elem_of_drop_doc. by intros [_ ?].
  - intros vs' x (vs0 & -> & Hvs0)%list_elem_of_fmap [Hx _]%elem_of_drop_doc.
    by apply (Hin vs0).
Qed.

(** One call of [_advance] on a state of the loop. *)
Lemma advance_step lists s rls vss i out :
  rankings_inv s rls vss → loop_inv lists out vss → i < length vss →
  ∃ rls' s' out' vss',
    _advance tau rng rls i out s = Ok ((rls', out'), s')
    ∧ rankings_inv s' rls' vss' ∧ length vss' = length vss
    ∧ loop_inv lists out' vss'
    ∧ length (documents out') = S (length (documents out))
    ∧ number_of_rankers out' = number_of_rankers out.
Proof.
  intros Hinv HJ Hi.
  destruct (lookup_lt_is_Some_2 vss i Hi) as [vs Hvs].
  destruct (advance_spec tau rng s rls vss i vs out Hinv Hvs)
    as (rls' & s' & Hadv & Hinv' & _).
  eexists rls', s', _, _. split; [exact Hadv|]. split; [exact Hinv'|].
  split; [by rewrite length_fmap|]. split.
  - apply (loop_inv_step lists out vss i vs); [done|done|].
    intros v. apply pick_elem.
  - simpl. rewrite length_app. simpl. split; [lia|done].
Qed.

Lemma loop_inv_init lists n :
  n = length lists → loop_inv lists (mkRanking [] [] n) lists.
Proof.
  intros ->. unfold loop_inv, out_ok, chosen. simpl. split_and!; try done.
  - constructor.
  - by intros d ?%elem_of_nil.
  - by intros d vs ?%elem_of_nil.
  - intros vs d ??. by exists vs.
Qed.

Lemma interleave_loop_spec lists n (k : Z) s rls vss out :
  rankings_inv s rls vss → length vss = 2 → loop_inv lists out vss →
  (Z.of_nat (length (documents out)) + Z.of_nat (S n) = k)%Z →
  ∃ r s',
    interleave_loop tau rng (S n) k rls out s = Ok (Some r, s')
    ∧ heap_wf s' ∧ out_ok lists 2 r
    ∧ Z.of_nat (length (documents r)) = k
    ∧ number_of_rankers r = number_of_rankers out.
Proof.
  revert s rls vss out. induction n as [|n IH]; intros s rls vss out Hinv Hlen HJ Hk.
  - cbn [interleave_loop]. unfold bind at 1. unfold draw at 1.
    destruct (advance_step lists
                (mkState (nodes s) (pool s) (next_addr s) (S (draws s))) rls vss
                (Nat.b2n (random_randint rng (draws s))) out)
      as (rls' & s1 & out' & vss' & Hadv & Hinv' & Hlen' & HJ' & Hlo & Hnr).
    { by apply rankings_inv_draws. } { done. }
    { rewrite Hlen. destruct (random_randint rng (draws s)); simpl; lia. }
    unfold bind at 1. rewrite Hadv.
    unfold len. rewrite Hlo.
    destruct (Z.leb_spec k (Z.of_nat (S (length (documents out))))); [|lia].
    destruct (truncate_all_spec s1 rls' vss' Hinv') as (rls2 & s2 & Ht & Hwf & _).
    unfold bind. rewrite Ht. unfold ret.
    exists out', s2. split_and!; try done.
    + destruct HJ' as [Hok _]. by rewrite Hlen', Hlen in Hok.
    + rewrite Hlo. lia.
  - cbn [interleave_loop]. unfold bind at 1. unfold draw at 1.
    destruct (advance_step lists
                (mkState (nodes s) (pool s) (next_addr s) (S (draws s))) rls vss
                (Nat.b2n (random_randint rng (draws s))) out)
      as (rls' & s1 & out' & vss' & Hadv & Hinv' & Hlen' & HJ' & Hlo & Hnr).
    { by apply rankings_inv_draws. } { done. }
    { rewrite Hlen. destruct (random_randint rng (draws s)); simpl; lia. }
    unfold bind at 1. rewrite Hadv.
    unfold len at 1. rewrite Hlo.
    destruct (Z.leb_spec k (Z.of_nat (S (length (documents out))))); [lia|].
    destruct (IH s1 rls' vss' out') as (r & s' & Hloop & Hwf & Hok & Hlr & Hnr');
      try done.
    { congruence. } { rewrite Hlo. lia. }
    exists r, s'. split_and!; try done. congruence.
Qed.

Lemma interleave_spec (k : Z) (a b : list Doc) s :
  heap_wf s → NoDup a → NoDup b → (1 ≤ k)%Z →
  ∃ r s',
    interleave tau rng k a b s = Ok (Some r, s')
    ∧ heap_wf s' ∧ out_ok [a; b] 2 r
    ∧ Z.of_nat (length (documents r)) = k
    ∧ number_of_rankers r = 2.
Proof.
  intros Hwf Ha Hb Hk.
  destruct (build_rankings_spec [a; b] s Hwf) as (rls & s1 & Hb1 & Hinv & _).
  { by repeat constructor. }
  pose proof (rankings_inv_length _ _ _ Hinv) as Hl.
  destruct rls as [|ra [|rb [|? ?]]]; try done.
  cbn [forM] in Hb1. unfold bind, ret in Hb1.
  destruct (RemovalList_init a s) as [[ra' sa]| |] eqn:Ea; try done.
  destruct (RemovalList_init b sa) as [[rb' sb]| |] eqn:Eb; try done.
  injection Hb1 as -> -> ->.
  unfold interleave, bind. rewrite Ea, Eb.
  destruct (Z.to_nat k) as [|n] eqn:En; [lia|].
  apply (interleave_loop_spec [a; b] n k s1 [ra; rb] [a; b]); try done.
  - by apply loop_inv_init.
  - simpl. lia.
Qed.

(** With [k <= 0] the loop body never runs and the method returns
    [None]; the lists may be arbitrary. *)
Lemma interleave_nonpositive (k : Z) (a b : list Doc) s :
  heap_wf s → (k ≤ 0)%Z →
  ∃ s', interleave tau rng k a b s = Ok (None, s').
Proof.
  intros Hwf Hk.
  destruct (RemovalList_init_spec a s [] Hwf) as (ra & s1 & fa & Ha & _ & Ho1 & _).
  destruct (RemovalList_init_spec b s1 _ Ho1) as (rb & s2 & fb & Hb & _).
  unfold interleave, bind. rewrite Ha, Hb.
  replace (Z.to_nat k) with 0 by lia. by eexists.
Qed.
Lemma multileave_round_spec lists (k : Z) pop_order s rls vss out :
  rankings_inv s rls vss → loop_inv lists out vss →
  Forall (λ i, i < length vss) pop_order →
  length (documents out) < Z.to_nat (Z.max k 1) →
  ∃ res s',
    multileave_round tau rng k pop_order rls out s = Ok (res, s')
    ∧ match res with
      | inr r =>
          heap_wf s' ∧ out_ok lists (length vss) r
          ∧ length (documents r) = Z.to_nat (Z.max k 1)
          ∧ number_of_rankers r = number_of_rankers out
      | inl (rls', out') =>
          ∃ vss', rankings_inv s' rls' vss' ∧ length vss' = length vss
            ∧ loop_inv lists out' vss'
            ∧ length (documents out')
              = length (documents out) + length pop_order
            ∧ length (documents out') < Z.to_nat (Z.max k 1)
            ∧ number_of_rankers out' = number_of_rankers out
      end.
Proof.
  revert s rls vss out.
  induction pop_order as [|i pop_order IH]; intros s rls vss out Hinv HJ Hidx Hlt.
  - exists (inl (rls, out)), s. split; [done|]. exists vss.
    simpl. split_and!; try done; lia.
  - apply Forall_cons in Hidx as [Hi Hidx].
    destruct (advance_step lists s rls vss i out Hinv HJ Hi)
      as (rls' & s1 & out' & vss' & Hadv & Hinv' & Hlen' & HJ' & Hlo & Hnr).
    cbn [multileave_round]. unfold bind at 1. rewrite Hadv.
    unfold len at 1. rewrite Hlo.
    destruct (Z.leb_spec k (Z.of_nat (S (length (documents out))))) as [Hk|Hk].
    + destruct (truncate_all_spec s1 rls' vss' Hinv') as (rls2 & s2 & Ht & Hwf & _).
      unfold bind. rewrite Ht. unfold ret.
      exists (inr out'), s2. split; [done|]. split_and!; try done.
      * destruct HJ' as [Hok _]. by rewrite Hlen' in Hok.
      * rewrite Hlo. lia.
    + destruct (IH s1 rls' vss' out' Hinv' HJ') as (res & s' & Hround & Hres).
      { by rewrite Hlen'. } { rewrite Hlo. lia. }
      exists res, s'. split; [done|].
      destruct res as [[rls2 out2]|r].
      * destruct Hres as (vss2 & ? & ? & ? & ? & ? & ?).
        exists vss2. split_and!; try done; try congruence.
        all: simpl; lia.
      * destruct Hres as (? & ? & ? & ?). split_and!; try done; try congruence.
        all: by rewrite <- Hlen'.
Qed.

Lemma multileave_loop_spec lists (k : Z) fuel s rls vss out :
  shuffle_ok rng →
  rankings_inv s rls vss → loop_inv lists out vss → 1 ≤ length vss →
  length (documents out) < Z.to_nat (Z.max k 1) →
  Z.to_nat (Z.max k 1) - length (documents out) ≤ fuel →
  ∃ r s',
    multileave_loop tau rng fuel k rls out s = Ok (r, s')
    ∧ heap_wf s' ∧ out_ok lists (length vss) r
    ∧ length (documents r) = Z.to_nat (Z.max k 1)
    ∧ number_of_rankers r = number_of_rankers out.
Proof.
  intros Hsh. revert s rls vss out.
  induction fuel as [|fuel IH]; intros s rls vss out Hinv HJ Hn Hlt Hfuel; [lia|].
  cbn [multileave_loop]. unfold bind at 1. unfold draw at 1.
  set (perm := random_shuffle rng (draws s) (seq 0 (length rls))).
  assert (perm ≡ₚ seq 0 (length vss)) as Hperm.
  { unfold perm. rewrite Hsh. by rewrite (rankings_inv_length _ _ _ Hinv). }
  destruct (multileave_round_spec lists k (rev perm)
              (mkState (nodes s) (pool s) (next_addr s) (S (draws s)))
              rls vss out) as (res & s1 & Hround & Hres); try done.
  { apply Forall_forall. intros i Hi.
    rewrite <- Permutation_rev, Hperm in Hi. apply elem_of_seq in Hi. lia. }
  unfold bind. rewrite Hround.
  destruct res as [[rls' out']|r].
  - destruct Hres as (vss' & Hinv' & Hlen' & HJ' & Hlo & Hlt' & Hnr).
    assert (length (rev perm) = length vss) as Hlp.
    { by rewrite length_rev, Hperm, length_seq. }
    destruct (IH s1 rls' vss' out') as (r & s' & Hloop & Hwf & Hok & Hlr & Hnr');
      try done; try lia.
    exists r, s'. split_and!; try done; try congruence.
  - destruct Hres as (? & ? & ? & ?). by exists r, s1.
Qed.

Lemma multileave_spec (fuel : nat) (k : Z) (lists : list (list Doc)) s :
  shuffle_ok rng → heap_wf s → Forall NoDup lists → lists ≠ [] →
  Z.to_nat (Z.max k 1) ≤ fuel →
  ∃ r s',
    multileave tau rng fuel k lists s = Ok (r, s')
    ∧ heap_wf s' ∧ out_ok lists (length lists) r
    ∧ length (documents r) = Z.to_nat (Z.max k 1)
    ∧ number_of_rankers r = length lists.
Proof.
  intros Hsh Hwf Hnd Hne Hfuel.
  destruct (build_rankings_spec lists s Hwf Hnd) as (rls & s1 & Hb & Hinv & _).
  unfold multileave, bind. rewrite Hb.
  apply (multileave_loop_spec lists k fuel s1 rls lists); try done.
  - by apply loop_inv_init.
  - destruct lists; [done|simpl; lia].
  - simpl. lia.
  - simpl. lia.
Qed.

(** Without rankers every round is empty and the outer loop never ends. *)
Lemma multileave_no_rankers (fuel : nat) (k : Z) s :
  shuffle_ok rng → multileave tau rng fuel k [] s = Timeout.
Proof.
  intros Hsh. unfold multileave, bind. simpl. unfold ret.
  generalize (mkRanking [] [] 0). revert s.
  induction fuel as [|fuel IH]; intros s out; [done|].
  cbn [multileave_loop]. unfold bind, draw. simpl.
  rewrite (proj1 (Permutation_nil_r _) (Hsh (draws s) [])). simpl. unfold ret.
  apply IH.
Qed.
End LoopFacts.

(** ** Progress of _advance *)

Section ProgressFacts.
Context {F : Type} `{FloatOps F}.
Variable tau : F.
Variable rng : Rng F.

Lemma reachable_inv s rls :
  reachable tau rng s rls → ∃ vss, rankings_inv s rls vss.
Proof.
  induction 1 as [s lists rls s' Hwf Hnd Hb|s rls n _ [vss IH]
                 |s rls i out rls' out' s' _ [vss IH] Hadv].
  - destruct (build_rankings_spec lists s Hwf Hnd) as (rls0 & s0 & Hb0 & Hinv & _).
    exists lists. congruence.
  - exists vss. by apply rankings_inv_draws.
  - destruct (vss !! i) as [vs|] eqn:Hi.
    + destruct (advance_spec tau rng s rls vss i vs out IH Hi)
        as (rls0 & s0 & Hadv0 & Hinv & _).
      rewrite Hadv0 in Hadv. injection Hadv as <- _ <-. eauto.
    + apply lookup_ge_None in Hi.
      rewrite <- (rankings_inv_length _ _ _ IH) in Hi.
      unfold _advance, bind, getitem in Hadv.
      rewrite (proj2 (lookup_ge_None _ _) Hi) in Hadv. done.
Qed.

Lemma get_lengths_inv s rls vss :
  rankings_inv s rls vss → get_length <$> rls = length <$> vss.
Proof.
  intros (fps & Hall & Hnd & _).
  induction Hall as [|rl vs fp rls vss fps Hr Hall IH]; [done|].
  apply Forall_cons in Hnd as [Hndv Hnd]. rewrite !fmap_cons.
  rewrite (get_length_NoDup _ _ _ _ Hr Hndv). by rewrite IH.
Qed.

Lemma length_drop_doc_le d vs : length (drop_doc d vs) ≤ length vs.
Proof. destruct d; simpl; [apply length_filter|done]. Qed.

Lemma sum_drop_doc_le d (vss : list (list Doc)) :
  sum_list (length <$> (drop_doc d <$> vss)) ≤ sum_list (length <$> vss).
Proof.
  induction vss as [|vs vss IH]; [done|]. rewrite !fmap_cons.
  cbn [sum_list_with id]. pose proof (length_drop_doc_le d vs). lia.
Qed.

Lemma sum_drop_doc_lt v (vss : list (list Doc)) i vs :
  vss !! i = Some vs → v ∈ vs →
  sum_list (length <$> (drop_doc (Some v) <$> vss))
  < sum_list (length <$> vss).
Proof.
  revert i. induction vss as [|vs0 vss IH]; intros i Hi Hv; [done|].
  rewrite !fmap_cons. cbn [sum_list_with id]. destruct i as [|i]; simpl in Hi.
  - injection Hi as ->.
    pose proof (sum_drop_doc_le (Some v) vss).
    assert (length (drop_doc (Some v) vs) < length vs); [|lia].
    simpl. apply (length_filter_lt _ _ v); [done|]. by intros ?.
  - pose proof (length_drop_doc_le (Some v) vs0).
    specialize (IH i Hi Hv). lia.
Qed.

(** On a non-empty sequence [_advance] takes a document away: the sum of
    the surviving lengths goes down, and the result grows by one. *)
Lemma advance_progress s rls i rl out :
  reachable tau rng s rls → random_below_one rng →
  rls !! i = Some rl → 0 < get_length rl →
  ∃ rls' out' s',
    _advance tau rng rls i out s = Ok ((rls', out'), s')
    ∧ total_length rls' < total_length rls
    ∧ length (documents out') = S (length (documents out)).
Proof.
  intros [vss Hinv]%reachable_inv Hrand Hrl Hpos.
  pose proof (get_lengths_inv _ _ _ Hinv) as Hlens.
  assert (∃ vs, vss !! i = Some vs ∧ length vs = get_length rl) as (vs & Hvs & Hlvs).
  { pose proof (f_equal (λ l, l !! i) Hlens) as Hi. simpl in Hi.
    rewrite !list_lookup_fmap, Hrl in Hi. simpl in Hi.
    destruct (vss !! i) as [vs|]; [|done]. exists vs. split; [done|].
    simpl in Hi. congruence. }
  destruct (advance_spec tau rng s rls vss i vs out Hinv Hvs)
    as (rls' & s' & Hadv & Hinv' & _).
  destruct (pick_is_Some tau (random_random rng (draws s)) vs) as [v Hv].
  { intros ->. simpl in Hlvs. lia. } { apply Hrand. }
  eexists rls', _, s'. split; [exact Hadv|]. split.
  - unfold total_length. rewrite Hlens, (get_lengths_inv _ _ _ Hinv'), Hv.
    apply (sum_drop_doc_lt v vss i vs Hvs). by eapply pick_elem.
  - simpl. rewrite length_app. simpl. lia.
Qed.

(** Every call of [_advance] in a reachable state succeeds and adds one
    slot to the result, whether or not the sequence drawn from is empty;
    no surviving length grows. *)
Lemma advance_total s rls i out :
  reachable tau rng s rls → i < length rls →
  ∃ rls' out' s',
    _advance tau rng rls i out s = Ok ((rls', out'), s')
    ∧ total_length rls' ≤ total_length rls
    ∧ length (documents out') = S (length (documents out)).
Proof.
  intros [vss Hinv]%reachable_inv Hi.
  pose proof (get_lengths_inv _ _ _ Hinv) as Hlens.
  rewrite (rankings_inv_length _ _ _ Hinv) in Hi.
  destruct (lookup_lt_is_Some_2 vss i Hi) as [vs Hvs].
  destruct (advance_spec tau rng s rls vss i vs out Hinv Hvs)
    as (rls' & s' & Hadv & Hinv' & _).
  eexists rls', _, s'. split; [exact Hadv|]. split.
  - unfold total_length. rewrite Hlens, (get_lengths_inv _ _ _ Hinv').
    apply sum_drop_doc_le.
  - simpl. rewrite length_app. simpl. lia.
Qed.
End ProgressFacts.

(** ** The order of the draws *)

Section DrawFacts.
Context {F : Type} `{FloatOps F}.
Variable tau : F.
Variable rng : Rng F.

Lemma drawn_rankers_S c n :
  drawn_rankers rng c (S n)
  = Nat.b2n (random_randint rng c) :: drawn_rankers rng (S (S c)) n.
Proof.
  unfold drawn_rankers. cbn [seq]. rewrite fmap_cons, <- fmap_S_seq.
  rewrite <- list_fmap_compose. f_equal.
  - f_equal. f_equal. lia.
  - apply list_fmap_ext. intros _ j _. simpl. f_equal. f_equal. lia.
Qed.

Lemma pick_nil (f : F) : pick tau f [] = None.
Proof. done. Qed.

Lemma length_drop_doc_ge d (vs : list Doc) :
  NoDup vs → length vs ≤ S (length (drop_doc d vs)).
Proof.
  intros Hnd. destruct d as [v|]; simpl; [|lia].
  destruct (decide (v ∈ vs)) as [[i Hi]%list_elem_of_lookup|Hn].
  - rewrite <- (delete_filter_NoDup vs i v Hnd Hi).
    rewrite length_delete by eauto. lia.
  - rewrite filter_ne_not_elem by done. lia.
Qed.

Lemma interleave_loop_draws n (k : Z) s rls vss out :
  rankings_inv s rls vss → length vss = 2 →
  (Z.of_nat (length (documents out)) + Z.of_nat (S n) = k)%Z →
  ∃ r s',
    interleave_loop tau rng (S n) k rls out s = Ok (Some r, s')
    ∧ rank_to_ranker_index r
      = rank_to_ranker_index out ++ drawn_rankers rng (draws s) (S n)
    ∧ (random_below_one rng → Forall (λ vs, S n ≤ length vs) vss →
       Forall is_Some (documents out) → Forall is_Some (documents r)).
Proof.
  revert s rls vss out. induction n as [|n IH]; intros s rls vss out Hinv Hlen Hk.
  all: cbn [interleave_loop]; unfold bind at 1; unfold draw at 1.
  all: set (i := Nat.b2n (random_randint rng (draws s))).
  all: assert (i < length vss) as Hi
    by (rewrite Hlen; unfold i; destruct (random_randint rng (draws s)); simpl; lia).
  all: destruct (lookup_lt_is_Some_2 vss i Hi) as [vs Hvs].
  all: destruct (advance_spec tau rng
                   (mkState (nodes s) (pool s) (next_addr s) (S (draws s)))
                   rls vss i vs out (rankings_inv_draws s rls vss _ Hinv) Hvs)
         as (rls' & s1 & Hadv & Hinv' & Hdr); simpl in Hadv, Hinv', Hdr.
  all: unfold bind at 1; rewrite Hadv; unfold len at 1; cbn [documents].
  all: rewrite length_app; cbn [length].
  - destruct (Z.leb_spec k (Z.of_nat (length (documents out) + 1))); [|lia].
    destruct (truncate_all_spec s1 rls' _ Hinv') as (rls2 & s2 & Ht & _ & _).
    unfold bind. rewrite Ht. unfold ret. eexists _, s2. split; [done|].
    simpl. split.
    + rewrite drawn_rankers_S. done.
    + intros Hrand Hne Hout. apply Forall_app. split; [done|].
      repeat constructor. apply pick_is_Some; [|apply Hrand].
      rewrite Forall_forall in Hne. intros ->.
      specialize (Hne [] (list_elem_of_lookup_2 _ _ _ Hvs)). simpl in Hne. lia.
  - destruct (Z.leb_spec k (Z.of_nat (length (documents out) + 1))); [lia|].
    destruct (IH s1 rls' _
                (mkRanking
                   (documents out ++ [pick tau (random_random rng (S (draws s))) vs])
                   (rank_to_ranker_index out ++ [i]) (number_of_rankers out))
                Hinv') as (r & s' & Hloop & Hrt & Hdocs).
    { by rewrite length_fmap. }
    { simpl. rewrite length_app. simpl. lia. }
    exists r, s'. split; [done|]. split.
    + rewrite Hrt. simpl. rewrite Hdr, <- app_assoc. simpl.
      by rewrite (drawn_rankers_S (draws s)).
    + intros Hrand Hne Hout. apply Hdocs; [done| |].
      * destruct Hinv as (fps & _ & Hnd & _).
        rewrite Forall_forall in Hne, Hnd.
        apply Forall_forall. intros vs' (vs0 & -> & Hvs0)%list_elem_of_fmap.
        pose proof (length_drop_doc_ge
                      (pick tau (random_random rng (S (draws s))) vs) vs0
                      (Hnd _ Hvs0)).
        specialize (Hne _ Hvs0). simpl in Hne. lia.
      * simpl. apply Forall_app. split; [done|]. repeat constructor.
        apply pick_is_Some; [|apply Hrand].
        rewrite Forall_forall in Hne. intros ->.
        specialize (Hne [] (list_elem_of_lookup_2 _ _ _ Hvs)). simpl in Hne. lia.
Qed.

(** The indexes of a result of [interleave] are the answers of [randint],
    whatever the lists hold; when neither list is shorter than [k] every
    slot holds a document. *)
Lemma interleave_draws (k : Z) (a b : list Doc) s :
  heap_wf s → NoDup a → NoDup b → (1 ≤ k)%Z →
  ∃ r s',
    interleave tau rng k a b s = Ok (Some r, s')
    ∧ rank_to_ranker_index r = drawn_rankers rng (draws s) (Z.to_nat k)
    ∧ (random_below_one rng →
       Z.to_nat k ≤ length a → Z.to_nat k ≤ length b →
       Forall is_Some (documents r)).
Proof.
  intros Hwf Ha Hb Hk.
  destruct (build_rankings_spec [a; b] s Hwf) as (rls & s1 & Hb1 & Hinv & Hdr).
  { by repeat constructor. }
  pose proof (rankings_inv_length _ _ _ Hinv) as Hl.
  destruct rls as [|ra [|rb [|? ?]]]; try done.
  cbn [forM] in Hb1. unfold bind, ret in Hb1.
  destruct (RemovalList_init a s) as [[ra' sa]| |] eqn:Ea; try done.
  destruct (RemovalList_init b sa) as [[rb' sb]| |] eqn:Eb; try done.
  injection Hb1 as -> -> ->.
  unfold interleave, bind. rewrite Ea, Eb.
  destruct (Z.to_nat k) as [|n] eqn:En; [lia|].
  destruct (interleave_loop_draws n k s1 [ra; rb] [a; b] (mkRanking [] [] 2))
    as (r & s' & Hloop & Hrt & Hdocs); try done.
  { simpl. lia. }
  exists r, s'. split; [done|]. split.
  - by rewrite Hrt, Hdr.
  - intros Hrand Hla Hlb. apply Hdocs; [done| |constructor].
    by repeat constructor.
Qed.

Lemma multileave_round_draws (k : Z) pop_order s rls vss out :
  rankings_inv s rls vss → Forall (λ i, i < length vss) pop_order →
  length (documents out) < Z.to_nat (Z.max k 1) →
  ∃ res s',
    multileave_round tau rng k pop_order rls out s = Ok (res, s')
    ∧ match res with
      | inr r =>
          rank_to_ranker_index r
          = rank_to_ranker_index out
            ++ take (Z.to_nat (Z.max k 1) - length (documents out)) pop_order
          ∧ Z.to_nat (Z.max k 1) - length (documents out) ≤ length pop_order
      | inl (rls', out') =>
          rank_to_ranker_index out' = rank_to_ranker_index out ++ pop_order
          ∧ draws s' = draws s + length pop_order
          ∧ length (documents out')
            = length (documents out) + length pop_order
          ∧ length (documents out') < Z.to_nat (Z.max k 1)
          ∧ ∃ vss', rankings_inv s' rls' vss' ∧ length vss' = length vss
      end.
Proof.
  revert s rls vss out.
  induction pop_order as [|i pop_order IH]; intros s rls vss out Hinv Hidx Hlt.
  - exists (inl (rls, out)), s. split; [done|]. simpl.
    rewrite app_nil_r. split_and!; try done; try lia. by exists vss.
  - apply Forall_cons in Hidx as [Hi Hidx].
    destruct (lookup_lt_is_Some_2 vss i Hi) as [vs Hvs].
    destruct (advance_spec tau rng s rls vss i vs out Hinv Hvs)
      as (rls' & s1 & Hadv & Hinv' & Hdr).
    cbn [multileave_round]. unfold bind at 1. rewrite Hadv.
    unfold len at 1. cbn [documents]. rewrite length_app. cbn [length].
    destruct (Z.leb_spec k (Z.of_nat (length (documents out) + 1))) as [Hk|Hk].
    + destruct (truncate_all_spec s1 rls' _ Hinv') as (rls2 & s2 & Ht & _ & _).
      unfold bind. rewrite Ht. unfold ret.
      eexists (inr _), s2. split; [done|]. simpl.
      replace (Z.to_nat (Z.max k 1) - length (documents out)) with 1 by lia.
      split; [done|lia].
    + destruct (IH s1 rls' _
                  (mkRanking (documents out ++ [pick tau (random_random rng (draws s)) vs])
                             (rank_to_ranker_index out ++ [i])
                             (number_of_rankers out)) Hinv')
        as (res & s' & Hround & Hres).
      { by rewrite length_fmap. }
      { simpl. rewrite length_app. simpl. lia. }
      exists res, s'. split; [done|].
      destruct res as [[rls2 out2]|r]; simpl in Hres.
      * destruct Hres as (Hrt & Hd & Hlo & Hlt' & vss2 & Hinv2 & Hlen2).
        rewrite length_app in Hlo. simpl in Hlo.
        split_and!.
        -- by rewrite Hrt, <- app_assoc.
        -- simpl. lia.
        -- simpl. lia.
        -- done.
        -- exists vss2. split; [done|]. by rewrite Hlen2, length_fmap.
      * destruct Hres as (Hrt & Hle).
        rewrite length_app in Hrt, Hle. simpl in Hrt, Hle.
        split.
        -- rewrite Hrt, <- app_assoc. simpl. f_equal.
           replace (Z.to_nat (Z.max k 1) - length (documents out))
             with (S (Z.to_nat (Z.max k 1) - (length (documents out) + 1))) by lia.
           done.
        -- simpl. lia.
Qed.

Lemma multileave_loop_draws (k : Z) fuel s rls vss out :
  shuffle_ok rng → rankings_inv s rls vss → 1 ≤ length vss →
  length (documents out) < Z.to_nat (Z.max k 1) →
  Z.to_nat (Z.max k 1) - length (documents out) ≤ fuel →
  ∃ r s',
    multileave_loop tau rng fuel k rls out s = Ok (r, s')
    ∧ rank_to_ranker_index r
      = rank_to_ranker_index out
        ++ take (Z.to_nat (Z.max k 1) - length (documents out))
                (round_orders rng (length vss) (draws s) fuel).
Proof.
  intros Hsh. revert s rls vss out.
  induction fuel as [|fuel IH]; intros s rls vss out Hinv Hn Hlt Hfuel; [lia|].
  cbn [multileave_loop round_orders]. unfold bind at 1. unfold draw at 1.
  rewrite (rankings_inv_length _ _ _ Hinv).
  set (perm := random_shuffle rng (draws s) (seq 0 (length vss))).
  assert (perm ≡ₚ seq 0 (length vss)) as Hperm by apply Hsh.
  assert (length (rev perm) = length vss) as Hlp.
  { by rewrite length_rev, Hperm, length_seq. }
  destruct (multileave_round_draws k (rev perm)
              (mkState (nodes s) (pool s) (next_addr s) (S (draws s)))
              rls vss out) as (res & s1 & Hround & Hres); try done.
  { apply Forall_forall. intros i Hi.
    rewrite <- Permutation_rev, Hperm in Hi. apply elem_of_seq in Hi. lia. }
  unfold bind. rewrite Hround.
  destruct res as [[rls' out']|r].
  - destruct Hres as (Hrt & Hd & Hlo & Hlt' & vss' & Hinv' & Hlen').
    simpl in Hd.
    destruct (IH s1 rls' vss' out') as (r & s' & Hloop & Hrt'); try done; try lia.
    exists r, s'. split; [done|].
    rewrite Hrt', Hrt, <- app_assoc. f_equal.
    rewrite take_app_ge by lia. f_equal.
    rewrite Hlen', Hd, Hlp, Hlo, Hlp. f_equal; [lia|].
    f_equal. lia.
  - destruct Hres as (Hrt & Hle). exists r, s1. split; [done|].
    rewrite Hrt. f_equal. by rewrite take_app_le.
Qed.

(** The indexes of a result of [multileave] are the turns of its rounds,
    each round a permutation of all the indexes. *)
Lemma multileave_draws (fuel : nat) (k : Z) (lists : list (list Doc)) s :
  shuffle_ok rng → heap_wf s → Forall NoDup lists → lists ≠ [] →
  Z.to_nat (Z.max k 1) ≤ fuel →
  ∃ r s',
    multileave tau rng fuel k lists s = Ok (r, s')
    ∧ rank_to_ranker_index r
      = take (Z.to_nat (Z.max k 1))
             (round_orders rng (length lists) (draws s) fuel).
Proof.
  intros Hsh Hwf Hnd Hne Hfuel.
  destruct (build_rankings_spec lists s Hwf Hnd) as (rls & s1 & Hb & Hinv & Hdr).
  unfold multileave, bind. rewrite Hb.
  destruct (multileave_loop_draws k fuel s1 rls lists
              (mkRanking [] [] (length lists))) as (r & s' & Hloop & Hrt);
    try done.
  - destruct lists; [done|simpl; lia].
  - simpl. lia.
  - simpl. lia.
  - exists r, s'. split; [done|]. rewrite Hrt, Hdr. simpl. by rewrite Nat.sub_0_r.
Qed.

Lemma round_orders_first n c rounds :
  shuffle_ok rng → 1 ≤ rounds →
  take n (round_orders rng n c rounds) ≡ₚ seq 0 n.
Proof.
  intros Hsh Hr. destruct rounds as [|rounds]; [lia|]. cbn [round_orders].
  rewrite take_app_length'.
  - by rewrite <- Permutation_rev.
  - by rewrite length_rev, (Hsh c), length_seq.
Qed.
End DrawFacts.

(** ** Construction from a list with repeats *)

Section ConstructionFacts.

Lemma length_remove_dups_le (l : list Doc) :
  length (remove_dups l) ≤ length l.
Proof.
  induction l as [|x l IH]; simpl; [done|]. case_decide; simpl; lia.
Qed.

Lemma scan_values_repr nd rl vs fp n i :
  repr nd rl vs fp → i + n ≤ length vs →
  scan_values nd n (fp !! i) = Some <$> take n (drop i vs).
Proof.
  intros Hr. revert i. induction n as [|n IH]; intros i Hle; [done|].
  destruct (lookup_lt_is_Some_2 fp i) as [a Ha].
  { rewrite (repr_length _ _ _ _ Hr). lia. }
  destruct (lookup_lt_is_Some_2 vs i) as [v Hv]; [lia|].
  cbn [scan_values]. rewrite Ha. simpl.
  rewrite (repr_chain _ _ _ _ Hr i a Ha). simpl.
  rewrite (IH (S i)) by lia.
  rewrite (drop_S vs v i Hv). simpl. by rewrite Hv.
Qed.

Lemma traversal_repr s rl vs fp :
  repr (nodes s) rl vs fp →
  traversal s rl = Some <$> take (length (remove_dups vs)) vs.
Proof.
  intros Hr. unfold traversal.
  rewrite (get_length_repr _ _ _ _ Hr), <- (repr_head _ _ _ _ Hr).
  rewrite (scan_values_repr _ rl vs fp _ 0 Hr); [done|].
  pose proof (length_remove_dups_le vs). simpl. lia.
Qed.
End ConstructionFacts.

(** ** Rational arithmetic satisfies the laws *)

Module QFloatLaws.
Import QFloat.

Lemma q_fle (x y : Q) : fle x y ↔ (x <= y)%Q.
Proof.
  unfold fle. simpl. rewrite negb_false_iff. apply Qle_bool_iff.
Qed.

Lemma q_flt (x y : Q) : fltb x y = true ↔ (x < y)%Q.
Proof.
  simpl. rewrite negb_true_iff, <- not_true_iff_false, Qle_bool_iff.
  split; [apply Qnot_le_lt|apply Qlt_not_le].
Qed.

Lemma q_weight_pos (x t : Q) : (0 < x)%Q → (0 < 1 / q_pow x t)%Q.
Proof.
  intros Hx. unfold Qdiv. rewrite Qmult_1_l.
  apply Qinv_lt_0_compat. by apply Qpower_0_lt.
Qed.

#[export] Instance Q_laws : FloatLaws Q.
Proof.
  split.
  - intros x. apply q_fle, Qle_refl.
  - intros x y z Hxy%q_fle Hyz%q_fle. apply q_fle. by eapply Qle_trans.
  - intros x y Hy%q_fle. apply q_fle.
    rewrite <- (Qplus_0_r x) at 1. by apply Qplus_le_r.
  - intros x y Hx%q_fle. apply q_fle.
    rewrite <- (Qplus_0_l y) at 1. by apply Qplus_le_l.
  - intros x y d Hd%q_flt Hxy%q_fle. apply q_fle.
    apply Qmult_le_compat_r; [done|]. by apply Qinv_le_0_compat, Qlt_le_weak.
  - intros x d Hd%q_flt Hxd%q_fle. apply q_fle.
    apply Qle_shift_div_r; [done|]. by rewrite Qmult_1_l.
  - intros tau r _ Hr. apply q_fle, Qlt_le_weak, (q_weight_pos (inject_Z (Z.of_nat r))).
    change 0%Q with (inject_Z 0). rewrite <- Zlt_Qlt. lia.
  - intros tau _. apply q_flt. by apply (q_weight_pos (inject_Z 1)).
  - intros x y z Hxy%q_flt Hyz%q_fle. apply q_flt. by eapply Qlt_le_trans.
Qed.
End QFloatLaws.

Import QFloat QFloatLaws.

(** * The properties of the specification *)



Section EvaluateClaims.

Lemma lex_lt_sorted_NoDup (l : list (nat * nat)) :
  StronglySorted lex_lt l → NoDup l.
Proof.
  induction 1 as [|p l Hs IH Hall]; constructor; [|done].
  intros Hin. rewrite Forall_forall in Hall.
  destruct (Hall p Hin) as [?|[_ ?]]; lia.
Qed.

Lemma tally_length rtri clicks counts counts' :
  tally rtri clicks counts = Ok counts' → length counts' = length counts.
Proof.
  revert counts. induction clicks as [|d clicks IH]; intros counts; simpl.
  - by intros [= ->].
  - destruct (py_getitem rtri d) as [j| |]; simpl; try done.
    unfold increment. destruct (counts !! j) as [c|]; simpl; try done.
    intros Ht%IH. by rewrite length_insert in Ht.
Qed.

Lemma evaluate_Ok_inv (r : Ranking) (clicks : list Z) res :
  evaluate r clicks = Ok res →
  ∃ counts,
    res = pairs_outer counts (number_of_rankers r) (seq 0 (number_of_rankers r)).
Proof.
  unfold evaluate.
  destruct (tally _ clicks _) as [counts| |] eqn:Ht; simpl; try done.
  apply tally_length in Ht. rewrite length_replicate in Ht.
  rewrite evaluate_outer_spec; [|done|].
  - intros [= <-]. by exists counts.
  - apply Forall_forall. intros i Hi%elem_of_seq. lia.
Qed.

Lemma pairs_outer_tie counts n :
  (∀ i j, i < n → j < n → counts !!! i = counts !!! j) →
  pairs_outer counts n (seq 0 n) = [].
Proof.
  intros Htie. apply elem_of_nil_inv. intros [w l] Hin.
  apply elem_of_pairs_outer in Hin as (Hw & Hl & Hlt).
  rewrite (Htie l w Hl Hw) in Hlt. lia.
Qed.
End EvaluateClaims.

(** C9: on clicks that are positions of the result, [evaluate] counts one
    click per position through [rank_to_ranker_index] and returns, once
    each, exactly the pairs [(w, l)] of rankers in which [w] has strictly
    more clicks than [l]; a tie gives no pair.  For the assignment
    [0,1,0,1] and the clicks [0,2] the result is [(0,1)]; without clicks
    it is empty; with equal counts of two rankers it is empty. *)
Theorem evaluate_pairs (r : Ranking) (clicks : list Z) :
  clicks_valid r clicks →
  (∃ res,
      evaluate r clicks = Ok res
      ∧ NoDup res
      ∧ (∀ w l, (w, l) ∈ res ↔
           w < number_of_rankers r ∧ l < number_of_rankers r
           ∧ clicks_on (rank_to_ranker_index r) clicks l
             < clicks_on (rank_to_ranker_index r) clicks w)
      ∧ (number_of_rankers r = 2 →
         clicks_on (rank_to_ranker_index r) clicks 0
         = clicks_on (rank_to_ranker_index r) clicks 1 →
         res = []))
  ∧ (∀ docs, evaluate (mkRanking docs [0; 1; 0; 1] 2) [0; 2]%Z = Ok [(0, 1)])
  ∧ (∀ r0, evaluate r0 [] = Ok []).
Proof.
  intros Hv. split_and!.
  - destruct (evaluate_ok r clicks Hv) as (counts & Hev & Hlen & Hc).
    eexists. split; [exact Hev|]. split_and!.
    + eapply NoDup_fmap_1, lex_lt_sorted_NoDup, pairs_outer_sorted.
      apply seq_strongly_sorted.
    + intros w l. rewrite elem_of_pairs_outer, !Hc. done.
    + intros Hn Htie. apply pairs_outer_tie. intros i j Hi Hj.
      rewrite !Hc. rewrite Hn in Hi, Hj.
      destruct i as [|[|i]], j as [|[|j]]; try lia; congruence.
  - intros docs. reflexivity.
  - intros r0. destruct (evaluate_ok r0 []) as (counts & Hev & Hlen & Hc).
    { constructor. }
    rewrite Hev. f_equal. apply pairs_outer_tie. intros i j _ _.
    by rewrite !Hc.
Qed.

Lemma evaluate_pairs_witness :
  (∃ res,
      evaluate (mkRanking [] [0; 1; 0; 1] 2) [0; 2]%Z = Ok res
      ∧ NoDup res
      ∧ (∀ w l, (w, l) ∈ res ↔
           w < 2 ∧ l < 2
           ∧ clicks_on [0; 1; 0; 1] [0; 2]%Z l < clicks_on [0; 1; 0; 1] [0; 2]%Z w)
      ∧ (2 = 2 →
         clicks_on [0; 1; 0; 1] [0; 2]%Z 0 = clicks_on [0; 1; 0; 1] [0; 2]%Z 1 →
         res = []))
  ∧ (∀ docs, evaluate (mkRanking docs [0; 1; 0; 1] 2) [0; 2]%Z = Ok [(0, 1)])
  ∧ (∀ r0, evaluate r0 [] = Ok []).
Proof.
  apply (evaluate_pairs (mkRanking [] [0; 1; 0; 1] 2) [0; 2]%Z).
  repeat constructor; simpl; eexists; (split; [reflexivity|lia]).
Defined.

(** C10: the outcome of [evaluate] is a function of the position-to-ranker
    mapping, the ranker count and the clicks alone, whatever the documents
    are; in the pairs it returns no unordered pair of rankers occurs
    twice, and they are listed by ascending smaller index (then ascending
    larger index). *)
Theorem evaluate_depends_on_mapping (r1 r2 : Ranking) (clicks : list Z) :
  rank_to_ranker_index r1 = rank_to_ranker_index r2 →
  number_of_rankers r1 = number_of_rankers r2 →
  evaluate r1 clicks = evaluate r2 clicks
  ∧ ∀ res, evaluate r1 clicks = Ok res →
      StronglySorted lex_lt (unordered <$> res) ∧ NoDup (unordered <$> res).
Proof.
  intros Hm Hn. split.
  - unfold evaluate. by rewrite Hm, Hn.
  - intros res (counts & ->)%evaluate_Ok_inv.
    assert (StronglySorted lex_lt
              (unordered <$> pairs_outer counts (number_of_rankers r1)
                               (seq 0 (number_of_rankers r1)))) as Hs.
    { apply pairs_outer_sorted, seq_strongly_sorted. }
    split; [done|]. by apply lex_lt_sorted_NoDup.
Qed.

Lemma evaluate_depends_on_mapping_witness :
  evaluate (mkRanking [Some 7; Some 8; Some 9]%Z [0; 1; 2] 3) [0; 0; 2]%Z
  = evaluate (mkRanking [None; Some 1; Some 2]%Z [0; 1; 2] 3) [0; 0; 2]%Z
  ∧ ∀ res,
      evaluate (mkRanking [Some 7; Some 8; Some 9]%Z [0; 1; 2] 3) [0; 0; 2]%Z
      = Ok res →
      StronglySorted lex_lt (unordered <$> res) ∧ NoDup (unordered <$> res).
Proof.
  apply (evaluate_depends_on_mapping
           (mkRanking [Some 7; Some 8; Some 9]%Z [0; 1; 2] 3)
           (mkRanking [None; Some 1; Some 2]%Z [0; 1; 2] 3) [0; 0; 2]%Z);
    reflexivity.
Defined.






(** C8, as stated, fails: built from [1, 1, 2] the list has length 2, and
    the two nodes the scan of [choice_one_of] steps over both hold [1];
    the distinct documents in order of first occurrence would be
    [1, 2]. *)
Lemma repeated_document_kept :
  match RemovalList_init [1; 1; 2]%Z initial_state with
  | Ok (r_l, s) =>
      get_length r_l = 2
      ∧ traversal s r_l = [Some 1%Z; Some 1%Z]
      ∧ traversal s r_l ≠ Some <$> first_occurrences [1; 1; 2]%Z
  | _ => False
  end.
Proof. vm_compute. split_and!; [reflexivity|reflexivity|discriminate]. Qed.

(** C8: [append] neither rejects nor ignores a document that is present.
    Built from [l], a list links one node per element of [l], repeats
    included, in order; [get_length] is the number of distinct documents;
    the scan of [choice_one_of], which steps over [get_length] nodes,
    yields that many leading elements of [l].  When [l] has no repeats
    these are the elements of [l], each once, in order. *)
Theorem removal_list_construction (l : list Doc) (s : State) :
  heap_wf s →
  ∃ r_l s' fp,
    RemovalList_init l s = Ok (r_l, s')
    ∧ repr (nodes s') r_l l fp
    ∧ get_length r_l = length (remove_dups l)
    ∧ traversal s' r_l = Some <$> take (length (remove_dups l)) l
    ∧ (NoDup l → get_length r_l = length l ∧ traversal s' r_l = Some <$> l)
    ∧ heap_wf s'.
Proof.
  intros Hwf.
  destruct (RemovalList_init_spec l s [] Hwf) as (rl & s' & fp & Hi & Hr & Ho & _).
  exists rl, s', fp. split_and!; try done.
  - by eapply get_length_repr.
  - by eapply traversal_repr.
  - intros Hnd. pose proof (get_length_NoDup _ _ _ _ Hr Hnd) as Hlen.
    split; [done|]. rewrite (traversal_repr _ _ _ _ Hr).
    rewrite <- (get_length_repr _ _ _ _ Hr), Hlen. by rewrite firstn_all.
  - by eapply own_nil.
Qed.

Lemma removal_list_construction_witness :
  ∃ r_l s' fp,
    RemovalList_init [1; 1; 2]%Z initial_state = Ok (r_l, s')
    ∧ repr (nodes s') r_l [1; 1; 2]%Z fp
    ∧ get_length r_l = length (remove_dups [1; 1; 2]%Z)
    ∧ traversal s' r_l
      = Some <$> take (length (remove_dups [1; 1; 2]%Z)) [1; 1; 2]%Z
    ∧ (NoDup [1; 1; 2]%Z →
       get_length r_l = length [1; 1; 2]%Z
       ∧ traversal s' r_l = Some <$> [1; 1; 2]%Z)
    ∧ heap_wf s'.
Proof.
  apply (removal_list_construction [1; 1; 2]%Z initial_state).
  split; constructor.
Defined.

Section ValidationFacts.

Lemma py_getitem_elem {A} (l : list A) (d : Z) (x : A) :
  py_getitem l d = Ok x → x ∈ l.
Proof.
  unfold py_getitem. destruct (_ && _)%bool; [|done].
  destruct (l !! _) as [y|] eqn:Hy; [|done].
  intros [= <-]. by eapply list_elem_of_lookup_2.
Qed.

Lemma clicks_valid_bounds (r : Ranking) (clicks : list Z) :
  Forall (λ i, i < number_of_rankers r) (rank_to_ranker_index r) →
  clicks_valid r clicks
  ↔ Forall (λ d, (- Z.of_nat (length (rank_to_ranker_index r)) ≤ d
                  < Z.of_nat (length (rank_to_ranker_index r)))%Z) clicks.
Proof.
  intros Hidx. unfold clicks_valid. apply Forall_iff. intros d.
  rewrite <- py_getitem_ok_iff. split.
  - intros (j & Hj & _). eauto.
  - intros (j & Hj). exists j. split; [done|].
    rewrite Forall_forall in Hidx. by eapply Hidx, py_getitem_elem.
Qed.

Lemma tally_Ok_valid rtri clicks counts counts' :
  tally rtri clicks counts = Ok counts' →
  Forall (λ d, ∃ j, py_getitem rtri d = Ok j ∧ j < length counts) clicks.
Proof.
  revert counts. induction clicks as [|d clicks IH]; intros counts; simpl.
  - constructor.
  - destruct (py_getitem rtri d) as [j| |] eqn:Hj; simpl; try done.
    unfold increment. destruct (counts !! j) as [c|] eqn:Hc; simpl; try done.
    intros Ht%IH. rewrite length_insert in Ht. constructor; [|done].
    exists j. split; [done|]. by eapply lookup_lt_Some.
Qed.

Lemma evaluate_Ok_iff (r : Ranking) (clicks : list Z) :
  (∃ res, evaluate r clicks = Ok res) ↔ clicks_valid r clicks.
Proof.
  split.
  - intros [res Hres]. unfold evaluate in Hres.
    destruct (tally _ clicks _) as [counts| |] eqn:Ht; try done.
    apply tally_Ok_valid in Ht. by rewrite length_replicate in Ht.
  - intros Hv. destruct (evaluate_ok r clicks Hv) as (counts & Hev & _). eauto.
Qed.
End ValidationFacts.




(** C1 fails on the code: asked for [k = 2] documents from [a = [1]] and
    [b = [1]], which hold one document between them, [interleave] returns
    two slots whatever the random source answers; with ranker 0 drawn
    twice the second slot is [None]. *)
Theorem interleave_exhausted_input :
  (∀ rng : Rng Q,
      ∃ r s', interleave (3 # 1)%Q rng 2 [1]%Z [1]%Z initial_state
              = Ok (Some r, s')
              ∧ length (documents r) = 2)
  ∧ result_of (interleave (3 # 1)%Q (const_rng false 0%Q) 2 [1]%Z [1]%Z
                 initial_state)
    = Ok (Some (mkRanking [Some 1%Z; None] [0; 0] 2)).
Proof.
  split; [|vm_compute; reflexivity].
  intros rng.
  destruct (interleave_spec (3 # 1)%Q rng 2 [1]%Z [1]%Z initial_state)
    as (r & s' & Hi & _ & _ & Hlen & _).
  - split; constructor.
  - compute_done.
  - compute_done.
  - lia.
  - exists r, s'. split; [done|]. lia.
Qed.







(** * Further properties of the code *)

(** ** evaluate *)

Section EvaluateMore.

Lemma py_getitem_cases {A} (l : list A) (d : Z) :
  (∃ x, py_getitem l d = Ok x) ∨ py_getitem l d = Raise IndexError.
Proof.
  unfold py_getitem. destruct (_ && _)%bool; [|by right].
  destruct (l !! _); [left; eauto|by right].
Qed.

Lemma increment_cases (counts : list nat) (i : nat) :
  (∃ c, counts !! i = Some c ∧ increment counts i = Ok (<[i := S c]> counts))
  ∨ (counts !! i = None ∧ increment counts i = Raise IndexError).
Proof.
  unfold increment. destruct (counts !! i) as [c|]; [left; eauto|by right].
Qed.

Lemma tally_swap rtri d1 d2 cs counts :
  tally rtri (d1 :: d2 :: cs) counts = tally rtri (d2 :: d1 :: cs) counts.
Proof.
  cbn [tally].
  destruct (py_getitem_cases rtri d1) as [[i ->]| ->],
           (py_getitem_cases rtri d2) as [[j ->]| ->]; simpl; try done.
  - destruct (increment_cases counts i) as [(ci & Hi & ->)|[Hi ->]],
             (increment_cases counts j) as [(cj & Hj & ->)|[Hj ->]]; simpl.
    + destruct (decide (i = j)) as [->|Hne].
      * assert (ci = cj) as -> by congruence. done.
      * unfold increment.
        rewrite !list_lookup_insert_ne, Hi, Hj by done. simpl.
        by rewrite list_insert_insert_ne.
    + unfold increment. destruct (decide (i = j)) as [->|Hne]; [congruence|].
      by rewrite list_lookup_insert_ne, Hj.
    + unfold increment. destruct (decide (i = j)) as [->|Hne]; [congruence|].
      by rewrite list_lookup_insert_ne, Hi.
    + done.
  - by destruct (increment_cases counts i) as [(c & _ & ->)|[_ ->]].
  - by destruct (increment_cases counts j) as [(c & _ & ->)|[_ ->]].
Qed.

Lemma tally_Permutation rtri c1 c2 counts :
  c1 ≡ₚ c2 → tally rtri c1 counts = tally rtri c2 counts.
Proof.
  intros HP. revert counts.
  induction HP as [|d c1 c2 _ IH|d1 d2 cs|c1 c2 c3 _ IH1 _ IH2]; intros counts.
  - done.
  - cbn [tally]. destruct (py_getitem rtri d); simpl; try done.
    destruct (increment counts a); simpl; try done.
  - apply tally_swap.
  - by rewrite IH1.
Qed.

Lemma py_getitem_wrap {A} (l : list A) (d : Z) :
  (- Z.of_nat (length l) ≤ d)%Z →
  py_getitem l (normalize_click (length l) d) = py_getitem l d.
Proof.
  intros Hd. unfold normalize_click, py_getitem.
  destruct (Z.ltb_spec d 0) as [Hneg|Hpos].
  - destruct (Z.ltb_spec (d + Z.of_nat (length l)) 0); [lia|].
    by rewrite (Z.add_comm d).
  - destruct (Z.ltb_spec d 0); [lia|done].
Qed.

Lemma tally_wrap rtri clicks counts :
  Forall (λ d, (- Z.of_nat (length rtri) ≤ d)%Z) clicks →
  tally rtri (normalize_click (length rtri) <$> clicks) counts
  = tally rtri clicks counts.
Proof.
  intros Hall. revert counts.
  induction Hall as [|d clicks Hd _ IH]; intros counts; [done|].
  rewrite fmap_cons. cbn [tally]. rewrite (py_getitem_wrap rtri d Hd).
  destruct (py_getitem rtri d); simpl; try done.
  destruct (increment counts a); simpl; try done.
Qed.

Lemma omap_id_Some {A} (l : list (option A)) :
  Forall is_Some l → Some <$> omap id l = l.
Proof.
  induction 1 as [|x l [y ->] _ IH]; [done|].
  change (omap id (Some y :: l)) with (y :: omap id l).
  rewrite fmap_cons. by rewrite IH.
Qed.
End EvaluateMore.

(** X1: the pairs [evaluate] returns are a strict order between rankers:
    no ranker beats itself, no two rankers beat each other, and a ranker
    that beats a second one beats every ranker the second one beats; two
    rankers are left unordered exactly when they got equally many
    clicks. *)
Theorem evaluate_strict_order (r : Ranking) (clicks : list Z)
    (res : list (nat * nat)) :
  evaluate r clicks = Ok res →
  (∀ i, (i, i) ∉ res)
  ∧ (∀ i j, (i, j) ∈ res → (j, i) ∉ res)
  ∧ (∀ i j l, (i, j) ∈ res → (j, l) ∈ res → (i, l) ∈ res)
  ∧ (∀ i j, i < number_of_rankers r → j < number_of_rankers r →
       ((¬ (i, j) ∈ res ∧ ¬ (j, i) ∈ res)
        ↔ clicks_on (rank_to_ranker_index r) clicks i
          = clicks_on (rank_to_ranker_index r) clicks j)).
Proof.
  intros Hres.
  assert (clicks_valid r clicks) as Hv by (apply evaluate_Ok_iff; eauto).
  destruct (evaluate_ok r clicks Hv) as (counts & Hev & _ & Hc).
  rewrite Hev in Hres. injection Hres as <-.
  split_and!.
  - intros i. rewrite elem_of_pairs_outer. lia.
  - intros i j. rewrite !elem_of_pairs_outer. lia.
  - intros i j l. rewrite !elem_of_pairs_outer. lia.
  - intros i j Hi Hj. rewrite !elem_of_pairs_outer, !Hc. lia.
Qed.

Lemma evaluate_strict_order_witness :
  (∀ i, (i, i) ∉ [(0, 1); (0, 2); (2, 1)])
  ∧ (∀ i j, (i, j) ∈ [(0, 1); (0, 2); (2, 1)] →
       (j, i) ∉ [(0, 1); (0, 2); (2, 1)])
  ∧ (∀ i j l, (i, j) ∈ [(0, 1); (0, 2); (2, 1)] →
       (j, l) ∈ [(0, 1); (0, 2); (2, 1)] →
       (i, l) ∈ [(0, 1); (0, 2); (2, 1)])
  ∧ (∀ i j, i < 3 → j < 3 →
       ((¬ (i, j) ∈ [(0, 1); (0, 2); (2, 1)] ∧ ¬ (j, i) ∈ [(0, 1); (0, 2); (2, 1)])
        ↔ clicks_on [0; 1; 2] [0; 0; 2]%Z i = clicks_on [0; 1; 2] [0; 0; 2]%Z j)).
Proof.
  apply (evaluate_strict_order (mkRanking [] [0; 1; 2] 3) [0; 0; 2]%Z).
  reflexivity.
Defined.

(** X2: the outcome of [evaluate], a list of pairs or [IndexError], does
    not depend on the order in which the clicks are given. *)
Theorem evaluate_click_order (r : Ranking) (clicks1 clicks2 : list Z) :
  clicks1 ≡ₚ clicks2 → evaluate r clicks1 = evaluate r clicks2.
Proof.
  intros HP. unfold evaluate. by rewrite (tally_Permutation _ _ _ _ HP).
Qed.

Lemma evaluate_click_order_witness :
  evaluate (mkRanking [] [0; 1; 0; 1] 2) [0; 2; 3]%Z
  = evaluate (mkRanking [] [0; 1; 0; 1] 2) [3; 0; 2]%Z.
Proof.
  apply (evaluate_click_order (mkRanking [] [0; 1; 0; 1] 2)).
  change [0; 2; 3]%Z with ([0; 2]%Z ++ [3%Z]).
  apply Permutation_app_comm.
Defined.

(** X3: a negative click is read from the end of the result: as long as
    no click lies below [-len], replacing every negative click [d] by
    [d + len] leaves the outcome of [evaluate] unchanged. *)
Theorem evaluate_negative_clicks (r : Ranking) (clicks : list Z) :
  Forall (λ d, (- Z.of_nat (length (rank_to_ranker_index r)) ≤ d)%Z) clicks →
  evaluate r (normalize_click (length (rank_to_ranker_index r)) <$> clicks)
  = evaluate r clicks.
Proof. intros Hall. unfold evaluate. by rewrite tally_wrap. Qed.

Lemma evaluate_negative_clicks_witness :
  evaluate (mkRanking [] [0; 1; 0; 1] 2)
    (normalize_click (length [0; 1; 0; 1]) <$> [-1; 0; -4]%Z)
  = evaluate (mkRanking [] [0; 1; 0; 1] 2) [-1; 0; -4]%Z.
Proof.
  apply (evaluate_negative_clicks (mkRanking [] [0; 1; 0; 1] 2) [-1; 0; -4]%Z).
  repeat constructor; simpl; lia.
Defined.

(** ** interleave followed by evaluate *)





(** ** The linked list: removal, truncation and the node pool *)

Section StoreMore.
Implicit Types (s : State) (X fp : list addr) (vs : list Doc).

Lemma repr_keys_elem nd rl vs fp v :
  repr nd rl vs fp → v ∈ dict_keys (dict rl) ↔ v ∈ vs.
Proof.
  intros Hr. unfold dict_keys. rewrite <- dict_get_is_Some. split.
  - intros Hs. destruct (decide (v ∈ vs)) as [|Hn]; [done|].
    rewrite (repr_dict_absent _ _ _ _ Hr v Hn) in Hs. by destruct Hs.
  - intros (i & Hi & Hl)%elem_of_last_occurrence.
    rewrite (repr_dict_last _ _ _ _ Hr i v Hi Hl).
    apply lookup_lt_is_Some. rewrite (repr_length _ _ _ _ Hr).
    apply lookup_lt_Some in Hi. lia.
Qed.

Lemma traversal_NoDup s rl vs fp :
  repr (nodes s) rl vs fp → NoDup vs → traversal s rl = Some <$> vs.
Proof.
  intros Hr Hnd. rewrite (traversal_repr _ _ _ _ Hr).
  rewrite <- (get_length_repr _ _ _ _ Hr), (get_length_NoDup _ _ _ _ Hr Hnd).
  by rewrite firstn_all.
Qed.

(** [remove] moves at most one node from the list to the pool and
    allocates nothing. *)
Lemma remove_pool s X rl vs fp d :
  repr (nodes s) rl vs fp → NoDup vs → own s (X ++ fp) →
  ∃ rl' s' fp',
    remove d rl s = Ok (rl', s')
    ∧ repr (nodes s') rl' (drop_doc d vs) fp'
    ∧ own s' (X ++ fp') ∧ frame X s s' ∧ draws s' = draws s
    ∧ next_addr s' = next_addr s
    ∧ length (pool s') + length (drop_doc d vs) = length (pool s) + length vs.
Proof.
  intros Hr Hndv Hown.
  destruct (remove_spec s X rl vs fp d Hr Hndv Hown)
    as (rl' & s' & fp' & Hrm & Hr' & Ho' & Hf' & Hd' & _).
  exists rl', s', fp'.
  assert (next_addr s' = next_addr s
          ∧ length (pool s') + length (drop_doc d vs)
            = length (pool s) + length vs) as [Hna Hp];
    [|by split_and!].
  clear Hr' Ho' Hf' Hd'.
  destruct d as [v|]; cbn [remove drop_doc] in *;
    [|unfold ret in Hrm; by injection Hrm as <- <-].
  destruct (decide (v ∈ vs)) as [Hin|Hnin].
  2:{ rewrite (repr_dict_absent _ _ _ _ Hr v Hnin) in Hrm.
      unfold ret in Hrm. injection Hrm as <- <-.
      by rewrite filter_ne_not_elem by done. }
  apply list_elem_of_lookup in Hin as [i Hv].
  pose proof (lookup_lt_Some _ _ _ Hv) as Hi.
  pose proof (repr_length _ _ _ _ Hr) as Hlen.
  destruct (lookup_lt_is_Some_2 fp i) as [a Ha]; [lia|].
  destruct (lookup_lt_is_Some_2 fp (S i)) as [nx Hnx]; [lia|].
  rewrite (repr_dict_last _ _ _ _ Hr i v Hv), Ha in Hrm.
  2:{ intros j Hj Hu. pose proof (NoDup_lookup _ _ _ _ Hndv Hv Hu). lia. }
  unfold bind, remove_next, bind, get_node, pool_push, set_node, ret, raise in Hrm.
  rewrite (repr_chain _ _ _ _ Hr i a Ha), Hv, Hnx in Hrm. simpl in Hrm.
  rewrite (repr_chain _ _ _ _ Hr (S i) nx Hnx) in Hrm. simpl in Hrm.
  rewrite <- (delete_filter_NoDup vs i v Hndv Hv).
  rewrite length_delete by eauto.
  destruct (vs !! S i); injection Hrm as <- <-; simpl; lia.
Qed.

Lemma filter_not_elem_cons (k : Doc) (ks : list Doc) vs :
  filter (λ x, x ∉ ks) (filter (λ u, u ≠ k) vs) = filter (λ x, x ∉ k :: ks) vs.
Proof.
  rewrite list_filter_filter. apply list_filter_iff. intros x.
  rewrite not_elem_of_cons. tauto.
Qed.

(** Removing the values [ks] one after the other leaves the values that
    are not among them, in their order. *)
Lemma foldM_remove_filter (ks : list Doc) s X rl vs fp :
  repr (nodes s) rl vs fp → NoDup vs → own s (X ++ fp) →
  ∃ rl' s' fp',
    foldM (λ r v, remove (Some v) r) ks rl s = Ok (rl', s')
    ∧ repr (nodes s') rl' (filter (λ x, x ∉ ks) vs) fp'
    ∧ own s' (X ++ fp') ∧ frame X s s' ∧ draws s' = draws s
    ∧ next_addr s' = next_addr s
    ∧ length (pool s') + length (filter (λ x, x ∉ ks) vs)
      = length (pool s) + length vs.
Proof.
  revert s rl vs fp. induction ks as [|k ks IH]; intros s rl vs fp Hr Hnd Hown.
  - exists rl, s, fp. cbn [foldM]. unfold ret.
    rewrite filter_all
      by (apply Forall_forall; intros x _; apply not_elem_of_nil).
    by split_and!.
  - destruct (remove_pool s X rl vs fp (Some k) Hr Hnd Hown)
      as (rl1 & s1 & fp1 & Hrm & Hr1 & Ho1 & Hf1 & Hd1 & Hn1 & Hp1).
    destruct (IH s1 rl1 _ fp1 Hr1 (drop_doc_NoDup (Some k) vs Hnd) Ho1)
      as (rl' & s' & fp' & Hfold & Hr' & Ho' & Hf' & Hd' & Hn' & Hp').
    cbn [drop_doc] in *. rewrite filter_not_elem_cons in Hr', Hp'.
    exists rl', s', fp'. cbn [foldM]. unfold bind. rewrite Hrm.
    split_and!; try done; [by eapply frame_trans|congruence|congruence|lia].
Qed.

Lemma filter_keys_nil nd rl vs fp :
  repr nd rl vs fp → filter (λ x, x ∉ dict_keys (dict rl)) vs = [].
Proof.
  intros Hr. apply elem_of_nil_inv. intros x.
  rewrite list_elem_of_filter, (repr_keys_elem _ _ _ _ x Hr). tauto.
Qed.

(** [truncate] hands every node but the header back to the pool. *)
Lemma truncate_pool s X rl vs fp :
  repr (nodes s) rl vs fp → NoDup vs → own s (X ++ fp) →
  ∃ rl' s' fp',
    truncate rl s = Ok (rl', s')
    ∧ repr (nodes s') rl' [] fp'
    ∧ own s' (X ++ fp') ∧ frame X s s' ∧ draws s' = draws s
    ∧ next_addr s' = next_addr s
    ∧ length (pool s') = length (pool s) + length vs.
Proof.
  intros Hr Hnd Hown.
  destruct (foldM_remove_filter (dict_keys (dict rl)) s X rl vs fp Hr Hnd Hown)
    as (rl' & s' & fp' & Hfold & Hr' & Ho' & Hf' & Hd' & Hn' & Hp').
  rewrite (filter_keys_nil _ _ _ _ Hr) in Hr', Hp'. simpl in Hp'.
  exists rl', s', fp'. split_and!; try done. lia.
Qed.

(** Building a list takes nodes from the pool while there are any and
    allocates the others. *)
Lemma append_pool rl (v : Doc) s :
  ∃ rl' s',
    append rl v s = Ok (rl', s')
    ∧ pool s' = drop 1 (pool s)
    ∧ next_addr s' = next_addr s + (1 - length (pool s))
    ∧ head rl' = head rl ∧ draws s' = draws s.
Proof.
  unfold append, bind, take_one, follow, bind, set_node, new_object, ret.
  destruct (pool s) as [|a p] eqn:Hp; simpl;
    eexists _, _; (split; [reflexivity|]); simpl; split_and!; try done; lia.
Qed.

Lemma foldM_append_pool (l : list Doc) rl s :
  ∃ rl' s',
    foldM append l rl s = Ok (rl', s')
    ∧ pool s' = drop (length l) (pool s)
    ∧ next_addr s' = next_addr s + (length l - length (pool s))
    ∧ head rl' = head rl ∧ draws s' = draws s.
Proof.
  revert rl s. induction l as [|v l IH]; intros rl s.
  - exists rl, s. cbn [foldM]. unfold ret. rewrite drop_0. simpl.
    split_and!; try done; lia.
  - destruct (append_pool rl v s) as (rl1 & s1 & Ha & Hp1 & Hn1 & Hh1 & Hd1).
    destruct (IH rl1 s1) as (rl' & s' & Hf & Hp' & Hn' & Hh' & Hd').
    exists rl', s'. cbn [foldM]. unfold bind. rewrite Ha.
    split_and!; try done; try congruence.
    + rewrite Hp', Hp1, drop_drop. done.
    + rewrite Hn', Hn1, Hp1, length_drop. simpl. lia.
Qed.

End StoreMore.

(** X6: [RemovalList.remove] keeps the order of what it leaves.  After a
    list is built from [l] (no repeats) and the values [ds] are removed
    one after the other, traversal yields the documents of [l] that are
    not in [ds], in the order of [l], and [get_length] is their number;
    [ds] may name a value twice or name values the list never held, such
    a removal changes nothing. *)
Theorem removal_list_removes (l ds : list Doc) (s : State) :
  heap_wf s → NoDup l →
  ∃ r0 s0 r1 s1,
    RemovalList_init l s = Ok (r0, s0)
    ∧ foldM (λ r v, remove (Some v) r) ds r0 s0 = Ok (r1, s1)
    ∧ traversal s1 r1 = Some <$> filter (λ x, x ∉ ds) l
    ∧ get_length r1 = length (filter (λ x, x ∉ ds) l)
    ∧ heap_wf s1.
Proof.
  intros Hwf Hnd.
  destruct (RemovalList_init_spec l s [] Hwf)
    as (r0 & s0 & fp & Hin & Hr & Ho & _ & _).
  destruct (foldM_remove_filter ds s0 [] r0 l fp Hr Hnd Ho)
    as (r1 & s1 & fp1 & Hf & Hr1 & Ho1 & _).
  assert (NoDup (filter (λ x, x ∉ ds) l)) as Hnd1 by (by apply NoDup_filter).
  exists r0, s0, r1, s1. split_and!; try done.
  - by apply (traversal_NoDup s1 r1 _ fp1).
  - by apply (get_length_NoDup (nodes s1) r1 _ fp1).
  - by eapply own_nil.
Qed.

Lemma removal_list_removes_witness :
  ∃ r0 s0 r1 s1,
    RemovalList_init [10; 20; 30; 40]%Z initial_state = Ok (r0, s0)
    ∧ foldM (λ r v, remove (Some v) r) [30; 7; 10; 30]%Z r0 s0 = Ok (r1, s1)
    ∧ traversal s1 r1
      = Some <$> filter (λ x, x ∉ [30; 7; 10; 30]%Z) [10; 20; 30; 40]%Z
    ∧ get_length r1
      = length (filter (λ x, x ∉ [30; 7; 10; 30]%Z) [10; 20; 30; 40]%Z)
    ∧ heap_wf s1.
Proof.
  apply (removal_list_removes [10; 20; 30; 40]%Z [30; 7; 10; 30]%Z initial_state).
  - split; constructor.
  - compute_done.
Defined.

(** X7: [RemovalList.truncate] empties the list and hands its nodes back
    to the pool.  Whatever was removed from a list built from [l] (no
    repeats) before, after [truncate] the length is 0, traversal yields
    nothing, the pool holds [length l] nodes more than after the
    construction, and no object was allocated by the removals or the
    truncation. *)
Theorem truncate_returns_nodes (l ds : list Doc) (s : State) :
  heap_wf s → NoDup l →
  ∃ r0 s0 r1 s1 r2 s2,
    RemovalList_init l s = Ok (r0, s0)
    ∧ foldM (λ r v, remove (Some v) r) ds r0 s0 = Ok (r1, s1)
    ∧ truncate r1 s1 = Ok (r2, s2)
    ∧ get_length r2 = 0 ∧ traversal s2 r2 = []
    ∧ length (pool s2) = length (pool s0) + length l
    ∧ next_addr s2 = next_addr s0
    ∧ heap_wf s2.
Proof.
  intros Hwf Hnd.
  destruct (RemovalList_init_spec l s [] Hwf)
    as (r0 & s0 & fp & Hin & Hr & Ho & _ & _).
  destruct (foldM_remove_filter ds s0 [] r0 l fp Hr Hnd Ho)
    as (r1 & s1 & fp1 & Hf & Hr1 & Ho1 & _ & _ & Hn1 & Hp1).
  assert (NoDup (filter (λ x, x ∉ ds) l)) as Hnd1 by (by apply NoDup_filter).
  destruct (truncate_pool s1 [] r1 _ fp1 Hr1 Hnd1 Ho1)
    as (r2 & s2 & fp2 & Ht & Hr2 & Ho2 & _ & _ & Hn2 & Hp2).
  exists r0, s0, r1, s1, r2, s2. split_and!; try done.
  - by rewrite (get_length_NoDup _ _ _ _ Hr2) by constructor.
  - by rewrite (traversal_NoDup _ _ _ _ Hr2) by constructor.
  - lia.
  - congruence.
  - by eapply own_nil.
Qed.

Lemma truncate_returns_nodes_witness :
  ∃ r0 s0 r1 s1 r2 s2,
    RemovalList_init [10; 20; 30]%Z initial_state = Ok (r0, s0)
    ∧ foldM (λ r v, remove (Some v) r) [20]%Z r0 s0 = Ok (r1, s1)
    ∧ truncate r1 s1 = Ok (r2, s2)
    ∧ get_length r2 = 0 ∧ traversal s2 r2 = []
    ∧ length (pool s2) = length (pool s0) + length [10; 20; 30]%Z
    ∧ next_addr s2 = next_addr s0
    ∧ heap_wf s2.
Proof.
  apply (truncate_returns_nodes [10; 20; 30]%Z [20]%Z initial_state).
  - split; constructor.
  - compute_done.
Defined.


(** ** choice_one_of on the store *)



(** ** The node pool across a whole call *)

Section PoolFacts.
Context {F : Type} `{FloatOps F}.
Variable tau : F.
Variable rng : Rng F.

Lemma forM_init_pool (lists : list (list Doc)) (s : State) :
  ∃ rls s',
    forM RemovalList_init lists s = Ok (rls, s')
    ∧ length (pool s') = length (pool s) - sum_list (length <$> lists)
    ∧ next_addr s'
      = next_addr s + length lists
        + (sum_list (length <$> lists) - length (pool s)).
Proof.
  revert s. induction lists as [|l lists IH]; intros s.
  - exists [], s. cbn. unfold ret. split_and!; try done; lia.
  - assert (∃ rl s1, RemovalList_init l s = Ok (rl, s1)
              ∧ pool s1 = drop (length l) (pool s)
              ∧ next_addr s1 = next_addr s + 1 + (length l - length (pool s)))
      as (rl & s1 & Hi & Hp1 & Hn1).
    { unfold RemovalList_init, bind, new_object, set_node.
      match goal with |- context [foldM append l ?r ?t] =>
        destruct (foldM_append_pool l r t) as (rl & s1 & Hf & Hp & Hn & _) end.
      simpl in *. exists rl, s1. split_and!; try done. lia. }
    destruct (IH s1) as (rls & s' & Hf & Hp' & Hn').
    exists (rl :: rls), s'. cbn [forM]. unfold bind. rewrite Hi, Hf.
    unfold ret. split; [done|]. rewrite fmap_cons. cbn [sum_list_with id length].
    rewrite Hp', Hn', Hn1, Hp1, length_drop. lia.
Qed.

(** An operation on one list that conserves the nodes lifts to the loop
    over all the lists. *)
Lemma forM_local_pool (f : RemovalList → M RemovalList)
    (R : list Doc → list Doc → Prop) :
  (∀ s X rl vs fp,
      repr (nodes s) rl vs fp → NoDup vs → own s (X ++ fp) →
      ∃ rl' s' vs' fp',
        f rl s = Ok (rl', s') ∧ repr (nodes s') rl' vs' fp' ∧ NoDup vs'
        ∧ R vs vs' ∧ own s' (X ++ fp') ∧ frame X s s' ∧ draws s' = draws s
        ∧ next_addr s' = next_addr s
        ∧ length (pool s') + length vs' = length (pool s) + length vs) →
  ∀ rls vss fps s X,
    Forall3 (repr (nodes s)) rls vss fps → Forall NoDup vss →
    own s (X ++ concat fps) →
    ∃ rls' s' vss' fps',
      forM f rls s = Ok (rls', s')
      ∧ Forall3 (repr (nodes s')) rls' vss' fps' ∧ Forall NoDup vss'
      ∧ Forall2 R vss vss' ∧ own s' (X ++ concat fps')
      ∧ draws s' = draws s
      ∧ frame X s s'
      ∧ next_addr s' = next_addr s
      ∧ length (pool s') + sum_list (length <$> vss')
        = length (pool s) + sum_list (length <$> vss).
Proof.
  intros Hop rls. induction rls as [|rl rls IH]; intros vss fps s X Hall Hnd Hown.
  - inversion Hall; subst. exists [], s, [], []. simpl. unfold ret.
    split_and!; try done; constructor.
  - inversion Hall as [|? vs fp ? vss0 fps0 Hr Hrest]; subst.
    apply Forall_cons in Hnd as [Hndv Hnd]. simpl in Hown.
    destruct (Hop s (X ++ concat fps0) rl vs fp Hr Hndv)
      as (rl' & s1 & vs' & fp' & Hf & Hr' & Hndv' & HR & Hown1 & Hfr1 & Hd1
          & Hn1 & Hp1).
    { eapply own_perm; [|exact Hown].
      rewrite <- !app_assoc. apply Permutation_app_head, Permutation_app_comm. }
    destruct (IH vss0 fps0 s1 (X ++ fp'))
      as (rls' & s' & vss' & fps' & Hfm & Hall' & Hnd' & HR' & Hown' & Hd'
          & Hfr' & Hn' & Hp').
    { eapply Forall3_repr_frame; [|exact Hrest]. eapply frame_mono; [|exact Hfr1].
      intros a Ha. apply elem_of_app. by right. }
    { done. }
    { eapply own_perm; [|exact Hown1].
      rewrite <- !app_assoc. apply Permutation_app_head, Permutation_app_comm. }
    exists (rl' :: rls'), s', (vs' :: vss'), (fp' :: fps'). cbn [forM].
    unfold bind. rewrite Hf, Hfm. unfold ret. rewrite !fmap_cons.
    cbn [sum_list_with id concat].
    split_and!; try done.
    + constructor; [|done]. eapply repr_frame; [|exact Hr'].
      eapply frame_mono; [|exact Hfr']. intros a Ha. apply elem_of_app. by right.
    + by constructor.
    + by constructor.
    + by rewrite <- app_assoc in Hown'.
    + congruence.
    + eapply frame_trans.
      * eapply frame_mono; [|exact Hfr1]. intros a Ha. apply elem_of_app. by left.
      * eapply frame_mono; [|exact Hfr']. intros a Ha. apply elem_of_app. by left.
    + congruence.
    + lia.
Qed.

Lemma remove_all_pool d s rls vss :
  rankings_inv s rls vss →
  ∃ rls' s',
    forM (remove d) rls s = Ok (rls', s')
    ∧ rankings_inv s' rls' (drop_doc d <$> vss) ∧ draws s' = draws s
    ∧ next_addr s' = next_addr s
    ∧ length (pool s') + sum_list (length <$> (drop_doc d <$> vss))
      = length (pool s) + sum_list (length <$> vss).
Proof.
  intros (fps & Hall & Hnd & Hown).
  destruct (forM_local_pool (remove d) (λ vs vs', vs' = drop_doc d vs)) with
    (rls := rls) (vss := vss) (fps := fps) (s := s) (X := @nil addr)
    as (rls' & s' & vss' & fps' & Hfm & Hall' & Hnd' & HR & Hown' & Hd' & _
        & Hn' & Hp');
    try done.
  - intros s0 X rl vs fp Hr Hndv Ho.
    destruct (remove_pool s0 X rl vs fp d Hr Hndv Ho)
      as (rl' & s1 & fp' & Hrm & Hr' & Ho' & Hf' & Hdr & Hn1 & Hp1).
    exists rl', s1, (drop_doc d vs), fp'. split_and!; try done.
    by apply drop_doc_NoDup.
  - exists rls', s'. apply Forall2_eq_fmap in HR. subst vss'.
    split_and!; try done. by exists fps'.
Qed.

Lemma advance_pool s rls vss i out :
  rankings_inv s rls vss → i < length vss →
  ∃ rls' s' out' vss',
    _advance tau rng rls i out s = Ok ((rls', out'), s')
    ∧ rankings_inv s' rls' vss' ∧ length vss' = length vss
    ∧ length (documents out') = S (length (documents out))
    ∧ next_addr s' = next_addr s
    ∧ length (pool s') + sum_list (length <$> vss')
      = length (pool s) + sum_list (length <$> vss).
Proof.
  intros Hinv Hi. pose proof Hinv as (fps & Hall & Hnd & Hown).
  destruct (lookup_lt_is_Some_2 vss i Hi) as [vs Hvs].
  destruct (Forall3_lookup_m _ _ _ _ _ _ Hall Hvs) as (rl & fp & Hrl & Hfp & Hr).
  unfold _advance, bind, getitem. rewrite Hrl. unfold ret at 1.
  rewrite (choice_one_of_spec tau rng s rl vs fp Hr).
  2:{ rewrite Forall_forall in Hnd. apply Hnd. by eapply list_elem_of_lookup_2. }
  set (d := pick tau (random_random rng (draws s)) vs).
  destruct (remove_all_pool d
              (mkState (nodes s) (pool s) (next_addr s) (S (draws s))) rls vss)
    as (rls' & s' & Hfm & Hinv' & Hdr & Hn' & Hp').
  { by exists fps. }
  eexists rls', s', _, _. rewrite Hfm. unfold ret.
  split; [reflexivity|]. split; [exact Hinv'|]. simpl in *.
  rewrite length_fmap, length_app. simpl. split_and!; try done. lia.
Qed.

Lemma sum_length_nil (vss vss' : list (list Doc)) :
  Forall2 (λ _ vs', vs' = []) vss vss' → sum_list (length <$> vss') = 0.
Proof. induction 1 as [|? ? ? ? -> _ IH]; [done|]. by rewrite fmap_cons. Qed.

Lemma truncate_all_pool s rls vss :
  rankings_inv s rls vss →
  ∃ rls' s',
    forM truncate rls s = Ok (rls', s')
    ∧ heap_wf s' ∧ draws s' = draws s ∧ next_addr s' = next_addr s
    ∧ length (pool s') = length (pool s) + sum_list (length <$> vss).
Proof.
  intros (fps & Hall & Hnd & Hown).
  destruct (forM_local_pool truncate (λ _ vs', vs' = [])) with
    (rls := rls) (vss := vss) (fps := fps) (s := s) (X := @nil addr)
    as (rls' & s' & vss' & fps' & Hfm & Hall' & Hnd' & HR & Hown' & Hd' & _
        & Hn' & Hp');
    try done.
  - intros s0 X rl vs fp Hr Hndv Ho.
    destruct (truncate_pool s0 X rl vs fp Hr Hndv Ho)
      as (rl' & s1 & fp' & Ht & Hr' & Ho' & Hf' & Hdr & Hn1 & Hp1).
    exists rl', s1, [], fp'. split_and!; try done; [constructor|simpl; lia].
  - exists rls', s'. rewrite (sum_length_nil _ _ HR) in Hp'.
    split_and!; try done; [|lia]. unfold heap_wf. by eapply own_nil.
Qed.

Lemma interleave_loop_pool n (k : Z) s rls vss out :
  rankings_inv s rls vss → length vss = 2 →
  (Z.of_nat (length (documents out)) + Z.of_nat (S n) = k)%Z →
  ∃ r s',
    interleave_loop tau rng (S n) k rls out s = Ok (Some r, s')
    ∧ heap_wf s' ∧ next_addr s' = next_addr s
    ∧ length (pool s') = length (pool s) + sum_list (length <$> vss).
Proof.
  revert s rls vss out. induction n as [|n IH]; intros s rls vss out Hinv Hlen Hk.
  all: cbn [interleave_loop]; unfold bind at 1; unfold draw at 1.
  all: destruct (advance_pool
                (mkState (nodes s) (pool s) (next_addr s) (S (draws s))) rls vss
                (Nat.b2n (random_randint rng (draws s))) out)
      as (rls' & s1 & out' & vss' & Hadv & Hinv' & Hlen' & Hlo & Hn1 & Hp1);
    [by apply rankings_inv_draws
    |rewrite Hlen; destruct (random_randint rng (draws s)); simpl; lia|].
  all: unfold bind at 1; rewrite Hadv; unfold len at 1; rewrite Hlo.
  all: simpl in Hn1, Hp1.
  - destruct (Z.leb_spec k (Z.of_nat (S (length (documents out))))); [|lia].
    destruct (truncate_all_pool s1 rls' vss' Hinv')
      as (rls2 & s2 & Ht & Hwf & _ & Hn2 & Hp2).
    unfold bind. rewrite Ht. unfold ret.
    exists out', s2. split_and!; try done; [congruence|lia].
  - destruct (Z.leb_spec k (Z.of_nat (S (length (documents out))))); [lia|].
    destruct (IH s1 rls' vss' out') as (r & s' & Hloop & Hwf & Hn' & Hp');
      try done.
    { congruence. } { rewrite Hlo. lia. }
    exists r, s'. split_and!; try done; [congruence|lia].
Qed.

Lemma multileave_round_pool (k : Z) pop_order s rls vss out :
  rankings_inv s rls vss → Forall (λ i, i < length vss) pop_order →
  length (documents out) < Z.to_nat (Z.max k 1) →
  ∃ res s',
    multileave_round tau rng k pop_order rls out s = Ok (res, s')
    ∧ match res with
      | inr r =>
          heap_wf s' ∧ next_addr s' = next_addr s
          ∧ length (pool s') = length (pool s) + sum_list (length <$> vss)
      | inl (rls', out') =>
          ∃ vss', rankings_inv s' rls' vss' ∧ length vss' = length vss
            ∧ length (documents out')
              = length (documents out) + length pop_order
            ∧ length (documents out') < Z.to_nat (Z.max k 1)
            ∧ next_addr s' = next_addr s
            ∧ length (pool s') + sum_list (length <$> vss')
              = length (pool s) + sum_list (length <$> vss)
      end.
Proof.
  revert s rls vss out.
  induction pop_order as [|i pop_order IH]; intros s rls vss out Hinv Hidx Hlt.
  - exists (inl (rls, out)), s. split; [done|]. exists vss.
    simpl. split_and!; try done; lia.
  - apply Forall_cons in Hidx as [Hi Hidx].
    destruct (advance_pool s rls vss i out Hinv Hi)
      as (rls' & s1 & out' & vss' & Hadv & Hinv' & Hlen' & Hlo & Hn1 & Hp1).
    cbn [multileave_round]. unfold bind at 1. rewrite Hadv.
    unfold len at 1. rewrite Hlo.
    destruct (Z.leb_spec k (Z.of_nat (S (length (documents out))))) as [Hk|Hk].
    + destruct (truncate_all_pool s1 rls' vss' Hinv')
        as (rls2 & s2 & Ht & Hwf & _ & Hn2 & Hp2).
      unfold bind. rewrite Ht. unfold ret.
      exists (inr out'), s2. split; [done|]. split_and!; try done;
        [congruence|lia].
    + destruct (IH s1 rls' vss' out' Hinv') as (res & s' & Hround & Hres).
      { by rewrite Hlen'. } { rewrite Hlo. lia. }
      exists res, s'. split; [done|].
      destruct res as [[rls2 out2]|r].
      * destruct Hres as (vss2 & ? & ? & ? & ? & ? & ?).
        exists vss2. split_and!; try done; try congruence.
        all: simpl; lia.
      * destruct Hres as (? & ? & ?). split_and!; try done; [congruence|lia].
Qed.

Lemma multileave_loop_pool (k : Z) fuel s rls vss out :
  shuffle_ok rng →
  rankings_inv s rls vss → 1 ≤ length vss →
  length (documents out) < Z.to_nat (Z.max k 1) →
  Z.to_nat (Z.max k 1) - length (documents out) ≤ fuel →
  ∃ r s',
    multileave_loop tau rng fuel k rls out s = Ok (r, s')
    ∧ heap_wf s' ∧ next_addr s' = next_addr s
    ∧ length (pool s') = length (pool s) + sum_list (length <$> vss).
Proof.
  intros Hsh. revert s rls vss out.
  induction fuel as [|fuel IH]; intros s rls vss out Hinv Hn Hlt Hfuel; [lia|].
  cbn [multileave_loop]. unfold bind at 1. unfold draw at 1.
  set (perm := random_shuffle rng (draws s) (seq 0 (length rls))).
  assert (perm ≡ₚ seq 0 (length vss)) as Hperm.
  { unfold perm. rewrite Hsh. by rewrite (rankings_inv_length _ _ _ Hinv). }
  destruct (multileave_round_pool k (rev perm)
              (mkState (nodes s) (pool s) (next_addr s) (S (draws s)))
              rls vss out) as (res & s1 & Hround & Hres); try done.
  { apply Forall_forall. intros i Hi.
    rewrite <- Permutation_rev, Hperm in Hi. apply elem_of_seq in Hi. lia. }
  unfold bind. rewrite Hround.
  destruct res as [[rls' out']|r].
  - destruct Hres as (vss' & Hinv' & Hlen' & Hlo & Hlt' & Hn1 & Hp1).
    assert (length (rev perm) = length vss) as Hlp.
    { by rewrite length_rev, Hperm, length_seq. }
    simpl in Hn1, Hp1.
    destruct (IH s1 rls' vss' out') as (r & s' & Hloop & Hwf & Hn' & Hp');
      try done; try lia.
    exists r, s'. split_and!; try done; [congruence|lia].
  - destruct Hres as (? & ? & ?). by exists r, s1.
Qed.

End PoolFacts.





(** ** multileave on lists that are long enough *)

Section DocsFacts.
Context {F : Type} `{FloatOps F}.
Variable tau : F.
Variable rng : Rng F.

Lemma advance_docs s rls vss i out (K : nat) :
  rankings_inv s rls vss → i < length vss → random_below_one rng →
  Forall (λ vs, K ≤ length (documents out) + length vs) vss →
  length (documents out) < K →
  Forall is_Some (documents out) →
  ∃ rls' s' out' vss',
    _advance tau rng rls i out s = Ok ((rls', out'), s')
    ∧ rankings_inv s' rls' vss' ∧ length vss' = length vss
    ∧ length (documents out') = S (length (documents out))
    ∧ Forall (λ vs, K ≤ length (documents out') + length vs) vss'
    ∧ Forall is_Some (documents out').
Proof.
  intros Hinv Hi Hrand Hlong Hlt Hsome.
  destruct (lookup_lt_is_Some_2 vss i Hi) as [vs Hvs].
  destruct (advance_spec tau rng s rls vss i vs out Hinv Hvs)
    as (rls' & s' & Hadv & Hinv' & _).
  eexists rls', s', _, _. split; [exact Hadv|]. split; [exact Hinv'|].
  cbn [documents]. rewrite length_fmap, length_app. cbn [length].
  split_and!; try done; [lia| |].
  - destruct Hinv as (fps & _ & Hnd & _).
    rewrite Forall_forall in Hlong, Hnd.
    apply Forall_forall. intros vs' (vs0 & -> & Hvs0)%list_elem_of_fmap.
    pose proof (length_drop_doc_ge
                  (pick tau (random_random rng (draws s)) vs) vs0 (Hnd _ Hvs0)).
    specialize (Hlong _ Hvs0). simpl in Hlong. lia.
  - apply Forall_app. split; [done|]. repeat constructor.
    apply pick_is_Some; [|apply Hrand].
    rewrite Forall_forall in Hlong. intros ->.
    specialize (Hlong [] (list_elem_of_lookup_2 _ _ _ Hvs)). simpl in Hlong. lia.
Qed.

Lemma multileave_round_docs (k : Z) pop_order s rls vss out :
  rankings_inv s rls vss → Forall (λ i, i < length vss) pop_order →
  random_below_one rng →
  Forall (λ vs, Z.to_nat (Z.max k 1) ≤ length (documents out) + length vs) vss →
  length (documents out) < Z.to_nat (Z.max k 1) →
  Forall is_Some (documents out) →
  ∃ res s',
    multileave_round tau rng k pop_order rls out s = Ok (res, s')
    ∧ match res with
      | inr r => Forall is_Some (documents r)
      | inl (rls', out') =>
          ∃ vss', rankings_inv s' rls' vss' ∧ length vss' = length vss
            ∧ length (documents out')
              = length (documents out) + length pop_order
            ∧ length (documents out') < Z.to_nat (Z.max k 1)
            ∧ Forall (λ vs, Z.to_nat (Z.max k 1)
                            ≤ length (documents out') + length vs) vss'
            ∧ Forall is_Some (documents out')
      end.
Proof.
  revert s rls vss out.
  induction pop_order as [|i pop_order IH];
    intros s rls vss out Hinv Hidx Hrand Hlong Hlt Hsome.
  - exists (inl (rls, out)), s. split; [done|]. exists vss.
    simpl. split_and!; try done; lia.
  - apply Forall_cons in Hidx as [Hi Hidx].
    destruct (advance_docs s rls vss i out _ Hinv Hi Hrand Hlong Hlt Hsome)
      as (rls' & s1 & out' & vss' & Hadv & Hinv' & Hlen' & Hlo & Hlong' & Hsome').
    cbn [multileave_round]. unfold bind at 1. rewrite Hadv.
    unfold len at 1. rewrite Hlo.
    destruct (Z.leb_spec k (Z.of_nat (S (length (documents out))))) as [Hk|Hk].
    + destruct (truncate_all_spec s1 rls' vss' Hinv') as (rls2 & s2 & Ht & _ & _).
      unfold bind. rewrite Ht. unfold ret.
      by exists (inr out'), s2.
    + destruct (IH s1 rls' vss' out' Hinv') as (res & s' & Hround & Hres);
        try done.
      { by rewrite Hlen'. } { rewrite Hlo. lia. }
      exists res, s'. split; [done|].
      destruct res as [[rls2 out2]|r]; [|done].
      destruct Hres as (vss2 & ? & ? & ? & ? & ? & ?).
      exists vss2. split_and!; try done; try congruence.
      simpl; lia.
Qed.

Lemma multileave_loop_docs (k : Z) fuel s rls vss out :
  shuffle_ok rng → random_below_one rng →
  rankings_inv s rls vss → 1 ≤ length vss →
  Forall (λ vs, Z.to_nat (Z.max k 1) ≤ length (documents out) + length vs) vss →
  length (documents out) < Z.to_nat (Z.max k 1) →
  Forall is_Some (documents out) →
  Z.to_nat (Z.max k 1) - length (documents out) ≤ fuel →
  ∃ r s',
    multileave_loop tau rng fuel k rls out s = Ok (r, s')
    ∧ Forall is_Some (documents r).
Proof.
  intros Hsh Hrand. revert s rls vss out.
  induction fuel as [|fuel IH];
    intros s rls vss out Hinv Hn Hlong Hlt Hsome Hfuel; [lia|].
  cbn [multileave_loop]. unfold bind at 1. unfold draw at 1.
  set (perm := random_shuffle rng (draws s) (seq 0 (length rls))).
  assert (perm ≡ₚ seq 0 (length vss)) as Hperm.
  { unfold perm. rewrite Hsh. by rewrite (rankings_inv_length _ _ _ Hinv). }
  destruct (multileave_round_docs k (rev perm)
              (mkState (nodes s) (pool s) (next_addr s) (S (draws s)))
              rls vss out) as (res & s1 & Hround & Hres); try done.
  { apply Forall_forall. intros i Hi.
    rewrite <- Permutation_rev, Hperm in Hi. apply elem_of_seq in Hi. lia. }
  unfold bind. rewrite Hround.
  destruct res as [[rls' out']|r].
  - destruct Hres as (vss' & Hinv' & Hlen' & Hlo & Hlt' & Hlong' & Hsome').
    assert (length (rev perm) = length vss) as Hlp.
    { by rewrite length_rev, Hperm, length_seq. }
    destruct (IH s1 rls' vss' out') as (r & s' & Hloop & Hdocs);
      try done; try lia.
    by exists r, s'.
  - by exists r, s1.
Qed.

Lemma multileave_docs (fuel : nat) (k : Z) (lists : list (list Doc)) s :
  shuffle_ok rng → random_below_one rng →
  heap_wf s → Forall NoDup lists → lists ≠ [] →
  Forall (λ l, Z.to_nat (Z.max k 1) ≤ length l) lists →
  Z.to_nat (Z.max k 1) ≤ fuel →
  ∃ r s',
    multileave tau rng fuel k lists s = Ok (r, s')
    ∧ Forall is_Some (documents r).
Proof.
  intros Hsh Hrand Hwf Hnd Hne Hlong Hfuel.
  destruct (build_rankings_spec lists s Hwf Hnd) as (rls & s1 & Hb & Hinv & _).
  unfold multileave, bind. rewrite Hb.
  apply (multileave_loop_docs k fuel s1 rls lists); try done;
    simpl; try lia.
  destruct lists; [done|simpl; lia].
Qed.
End DocsFacts.



(** ** The interval of draws that selects a rank *)

Section ChoiceInterval.
Context {F : Type} `{FloatLaws F}.

Lemma non_decreasing_le (t : list F) j i x y :
  non_decreasing t → j ≤ i → t !! j = Some x → t !! i = Some y → fle x y.
Proof.
  intros Hnd Hle Hx. revert y. induction Hle as [|i Hle IH]; intros y Hy.
  - assert (x = y) as -> by congruence. apply fle_refl.
  - destruct (lookup_lt_is_Some_2 t i) as [z Hz].
    { apply lookup_lt_Some in Hy. lia. }
    eapply fle_trans; [apply (IH z Hz)|]. by apply (Hnd i).
Qed.

Lemma scan_pick_first (f : F) (t : list F) (vs : list Doc) j m i c :
  j ≤ i < j + m → t !! i = Some c → fltb f c = true →
  (∀ j', j ≤ j' < i → ∃ c', t !! j' = Some c' ∧ fltb f c' = false) →
  scan_pick f t (seq j m) vs = vs !! i.
Proof.
  revert j. induction m as [|m IH]; intros j Hi Hc Hf Hbefore; [lia|].
  cbn [seq scan_pick]. destruct (decide (j = i)) as [->|Hne].
  - by rewrite Hc, Hf.
  - destruct (Hbefore j) as (c' & Hc' & Hf'); [lia|]. rewrite Hc', Hf'.
    apply IH; [lia|done|done|]. intros j' Hj'. apply Hbefore. lia.
Qed.

Lemma scan_pick_inv (f : F) (t : list F) (vs : list Doc) j m v :
  scan_pick f t (seq j m) vs = Some v →
  ∃ i c, j ≤ i < j + m ∧ vs !! i = Some v ∧ t !! i = Some c
    ∧ fltb f c = true
    ∧ ∀ j', j ≤ j' < i → ∃ c', t !! j' = Some c' ∧ fltb f c' = false.
Proof.
  revert j. induction m as [|m IH]; intros j; [done|].
  cbn [seq scan_pick]. destruct (t !! j) as [c|] eqn:Hc; [|done].
  destruct (fltb f c) eqn:Hf.
  - intros Hv. exists j, c. split_and!; try done; lia.
  - intros (i & c0 & Hi & Hv & Hc0 & Hf0 & Hb)%IH.
    exists i, c0. split_and!; try done; try lia.
    intros j' Hj'. destruct (decide (j' = j)) as [->|]; [eauto|]. apply Hb. lia.
Qed.

(** The scan returns the document of rank [i] exactly for the draws that
    lie below entry [i] of the table and not below entry [i - 1]. *)
Lemma pick_interval (tau f : F) (vs : list Doc) i v :
  fltb (of_int 0) tau = true → NoDup vs → vs !! i = Some v →
  pick tau f vs = Some v
  ↔ ∃ c, cumulation_cache tau (length vs) !! i = Some c
      ∧ fltb f c = true
      ∧ ∀ c', 1 ≤ i →
          cumulation_cache tau (length vs) !! (i - 1) = Some c' →
          fltb f c' = false.
Proof.
  intros Htau Hnd Hv. pose proof (lookup_lt_Some _ _ _ Hv) as Hi.
  unfold pick. split.
  - intros (i0 & c & Hi0 & Hv0 & Hc & Hf & Hb)%scan_pick_inv.
    assert (i0 = i) as -> by (by eapply NoDup_lookup).
    exists c. split_and!; try done. intros c' Hi1 Hc'.
    destruct (Hb (i - 1)) as (c0 & Hc0 & Hf0); [lia|]. congruence.
  - intros (c & Hc & Hf & Hprev).
    rewrite (scan_pick_first f _ vs 0 (length vs) i c); try done; [lia|].
    intros j' Hj'.
    destruct (lookup_lt_is_Some_2 (cumulation_cache tau (length vs)) j')
      as [cj Hcj].
    { rewrite length_cumulation_cache. lia. }
    destruct (lookup_lt_is_Some_2 (cumulation_cache tau (length vs)) (i - 1))
      as [cp Hcp].
    { rewrite length_cumulation_cache. lia. }
    exists cj. split; [done|].
    destruct (fltb f cj) eqn:Hfj; [|done].
    rewrite <- (Hprev cp); [|lia|done]. symmetry.
    apply (flt_le_trans f cj cp Hfj).
    apply (non_decreasing_le (cumulation_cache tau (length vs)) j' (i - 1));
      try done; [|lia].
    apply cumulation_cache_non_decreasing; [done|lia].
Qed.
End ChoiceInterval.



(** ** append after the last document was removed *)

Section StaleLast.
Implicit Types (s : State) (X fp : list addr) (vs : list Doc).

(** The slot [last] of a list that was just built is the end of its
    chain. *)
Lemma RemovalList_init_last (l : list Doc) s X :
  own s X →
  ∃ rl s' fp,
    RemovalList_init l s = Ok (rl, s')
    ∧ repr (nodes s') rl l fp
    ∧ fp !! length l = Some (last rl)
    ∧ own s' (X ++ fp).
Proof.
  intros Hown. unfold RemovalList_init, bind, new_object, set_node. simpl.
  set (s1 := mkState (<[next_addr s := mkNode None None]> (nodes s)) (pool s)
                     (S (next_addr s)) (draws s)).
  destruct (foldM_append_spec l s1 X (mkList (next_addr s) [] (next_addr s))
              [] [next_addr s]) as (rl' & s' & fp' & Hfold & Hr' & Hl' & Hown' & _).
  - split; simpl; try done.
    + intros i a Ha. destruct i as [|i]; [|done]. simpl in Ha.
      injection Ha as <-. by rewrite lookup_insert_eq.
    + constructor.
  - done.
  - assert (next_addr s ∉ pool s ++ X) as Hfresh.
    { intros Hin. destruct Hown as [_ Hlt]. rewrite Forall_forall in Hlt.
      specialize (Hlt _ Hin). lia. }
    destruct Hown as [Hnd Hlt]. split; simpl.
    + rewrite app_assoc. apply NoDup_app. split; [done|].
      split; [|apply NoDup_singleton].
      by intros x Hx ->%list_elem_of_singleton.
    + rewrite app_assoc. apply Forall_app. split.
      * eapply Forall_impl; [exact Hlt|]. simpl. lia.
      * repeat constructor.
  - by exists rl', s', fp'.
Qed.

(** Scanning one step further than the documents reach reads the empty
    slot of the node that ends the chain. *)
Lemma scan_values_past nd rl vs fp n i :
  repr nd rl vs fp → i + n = length vs →
  scan_values nd (S n) (fp !! i) = (Some <$> drop i vs) ++ [None].
Proof.
  intros Hr. revert i. induction n as [|n IH]; intros i Hi.
  - destruct (lookup_lt_is_Some_2 fp i) as [a Ha].
    { rewrite (repr_length _ _ _ _ Hr). lia. }
    cbn [scan_values]. rewrite Ha. simpl.
    rewrite (repr_chain _ _ _ _ Hr i a Ha). simpl.
    rewrite (proj2 (lookup_ge_None vs i)) by lia.
    by rewrite drop_ge by lia.
  - destruct (lookup_lt_is_Some_2 fp i) as [a Ha].
    { rewrite (repr_length _ _ _ _ Hr). lia. }
    destruct (lookup_lt_is_Some_2 vs i) as [x Hx]; [lia|].
    remember (S n) as m eqn:Hm. cbn [scan_values]. rewrite Ha. simpl.
    rewrite (repr_chain _ _ _ _ Hr i a Ha). simpl. subst m.
    rewrite (IH (S i)) by lia. rewrite (drop_S vs x i Hx), Hx. done.
Qed.

Lemma filter_ne_last (l : list Doc) (v : Doc) :
  NoDup (l ++ [v]) → filter (λ u, u ≠ v) (l ++ [v]) = l.
Proof.
  intros (_ & Hd & _)%NoDup_app. rewrite filter_app.
  rewrite filter_ne_not_elem.
  - rewrite filter_cons_False, filter_nil, app_nil_r by (by intros ?). done.
  - intros Hv. apply (Hd v Hv). by apply list_elem_of_singleton.
Qed.
End StaleLast.

(** X14: [append] after the last document was removed loses the value
    appended.  [remove] hands the node that ends the chain to the pool
    but leaves the slot [last] pointing at it, and [take_one] then pops
    that very node, so [follow] links it to itself and clears it.  For a
    list built from [l ++ [v]] (no repeats) and [w] not in [l]: after
    [remove(v)] and [append(w)] the length is [len(l) + 1], yet the
    traversal yields the documents of [l] followed by [None]; [w] is not
    reached. *)
Theorem append_after_last_removed (l : list Doc) (v w : Doc) (s : State) :
  heap_wf s → NoDup (l ++ [v]) → w ∉ l →
  ∃ r0 s0 r1 s1 r2 s2,
    RemovalList_init (l ++ [v]) s = Ok (r0, s0)
    ∧ remove (Some v) r0 s0 = Ok (r1, s1)
    ∧ append r1 w s1 = Ok (r2, s2)
    ∧ get_length r2 = S (length l)
    ∧ traversal s2 r2 = (Some <$> l) ++ [None].
Proof.
  intros Hwf Hnd Hw.
  destruct (RemovalList_init_last (l ++ [v]) s [] Hwf)
    as (r0 & s0 & fp & Hin & Hr & Hlast & Ho).
  destruct (remove_spec s0 [] r0 _ fp (Some v) Hr Hnd Ho)
    as (r1 & s1 & fp1 & Hrm & Hr1 & Ho1 & _ & _ & Hhd).
  cbn [drop_doc] in Hr1. rewrite (filter_ne_last l v Hnd) in Hr1.
  assert (NoDup l) as Hndl by (by apply NoDup_app in Hnd as (? & _ & _)).
  pose proof (repr_length _ _ _ _ Hr) as Hlen.
  rewrite length_app in Hlen, Hlast. cbn [length] in Hlen, Hlast.
  assert ((l ++ [v]) !! length l = Some v) as Hv
    by (by rewrite lookup_app_r, Nat.sub_diag by lia).
  destruct (lookup_lt_is_Some_2 fp (length l)) as [a Ha]; [lia|].
  assert (fp !! S (length l) = Some (last r0)) as Hnx
    by (by rewrite <- Hlast, Nat.add_1_r).
  (* the state after [remove], written out *)
  pose proof Hrm as Hrm'. cbn [remove] in Hrm'.
  rewrite (repr_dict_last _ _ _ _ Hr (length l) v Hv), Ha in Hrm'.
  2:{ intros j Hj Hu. apply lookup_lt_Some in Hu.
      rewrite length_app in Hu. simpl in Hu. lia. }
  unfold bind, remove_next, bind, get_node, pool_push, set_node, ret, raise
    in Hrm'.
  rewrite (repr_chain _ _ _ _ Hr (length l) a Ha), Hv, Hnx in Hrm'.
  simpl in Hrm'.
  rewrite (repr_chain _ _ _ _ Hr (S (length l)) (last r0) Hnx) in Hrm'.
  simpl in Hrm'.
  rewrite (proj2 (lookup_ge_None (l ++ [v]) (S (length l)))) in Hrm'
    by (rewrite length_app; simpl; lia).
  injection Hrm' as Er Es.
  assert (pool s1 = last r0 :: pool s0) as Hp1 by (by rewrite <- Es).
  assert (last r1 = last r0) as Hl1 by (by rewrite <- Er).
  clear Er Es.
  assert (last r0 ∉ fp1) as Hfresh.
  { destruct Ho1 as [Hn _]. simpl in Hn.
    apply NoDup_app in Hn as (_ & Hd & _). apply Hd. rewrite Hp1. by left. }
  assert (length (dict_set (dict r1) w (last r1)) = S (length l)) as Hgl.
  { rewrite <- (length_fmap fst).
    change ((dict_set (dict r1) w (last r1)).*1)
      with (dict_keys (dict_set (dict r1) w (last r1))).
    rewrite dict_keys_set.
    rewrite decide_False by (by rewrite (repr_keys_elem _ _ _ _ w Hr1)).
    rewrite length_app. simpl. unfold dict_keys. rewrite length_fmap.
    change (length (dict r1)) with (get_length r1).
    rewrite (get_length_NoDup _ _ _ _ Hr1 Hndl). lia. }
  exists r0, s0, r1, s1.
  eexists _, _. split; [done|]. split; [done|].
  split.
  { unfold append, bind, take_one, follow, bind, set_node, ret.
    rewrite Hp1. reflexivity. }
  split; [exact Hgl|].
  unfold traversal, get_length. cbn [head dict nodes]. rewrite Hgl.
  rewrite <- (repr_head _ _ _ _ Hr1).
  match goal with |- scan_values ?nd _ _ = _ =>
    rewrite (scan_values_past nd r1 l fp1 (length l) 0) end; [done| |done].
  match goal with |- repr ?nd _ _ _ =>
    apply (repr_frame s1 (mkState nd [] 0 0)); [|done] end.
  intros b Hb. cbn [nodes]. rewrite Hl1.
  rewrite !lookup_insert_ne; [done|by intros <-|by intros <-].
Qed.

Lemma append_after_last_removed_witness :
  ∃ r0 s0 r1 s1 r2 s2,
    RemovalList_init ([10; 20]%Z ++ [30%Z]) initial_state = Ok (r0, s0)
    ∧ remove (Some 30%Z) r0 s0 = Ok (r1, s1)
    ∧ append r1 40%Z s1 = Ok (r2, s2)
    ∧ get_length r2 = S (length [10; 20]%Z)
    ∧ traversal s2 r2 = (Some <$> [10; 20]%Z) ++ [None].
Proof.
  apply (append_after_last_removed [10; 20]%Z 30%Z 40%Z initial_state).
  - split; constructor.
  - compute_done.
  - compute_done.
Defined.

(** ** Memoisation cannot be observed *)

Section MemoFacts.
Context {F : Type} `{FloatOps F} `{EqDecision F}.
Implicit Types (st : Instances (F:=F)) (tau : F).

Lemma registry_le_refl {V} (reg : registry (F:=F) V) : registry_le reg reg.
Proof. intros tau d Hd. by exists d. Qed.

Lemma registry_le_trans {V} (r1 r2 r3 : registry (F:=F) V) :
  registry_le r1 r2 → registry_le r2 r3 → registry_le r1 r3.
Proof.
  intros H12 H23 tau d Hd.
  destruct (H12 tau d Hd) as (d2 & Hd2 & Hle2).
  destruct (H23 tau d2 Hd2) as (d3 & Hd3 & Hle3).
  exists d3. split; [done|]. by etrans.
Qed.

Lemma instances_le_refl st : instances_le st st.
Proof. repeat split; apply registry_le_refl. Qed.

Lemma instances_le_trans st1 st2 st3 :
  instances_le st1 st2 → instances_le st2 st3 → instances_le st1 st3.
Proof.
  intros (? & ? & ?) (? & ? & ?). repeat split; by eapply registry_le_trans.
Qed.

Lemma registry_le_is_Some {V} (reg reg' : registry (F:=F) V) tau :
  registry_le reg reg' → is_Some (reg tau) → is_Some (reg' tau).
Proof. intros Hle [d Hd]. destruct (Hle tau d Hd) as (d' & -> & _). eauto. Qed.

Lemma constructed_le st st' tau :
  instances_le st st' → constructed st tau → constructed st' tau.
Proof.
  intros (? & ? & ?) (? & ? & ?). repeat split; by eapply registry_le_is_Some.
Qed.

Lemma registry_le_new {V} (reg : registry (F:=F) V) tau :
  registry_le reg (DictDependingOnTau_new reg tau)
  ∧ is_Some (DictDependingOnTau_new reg tau tau)
  ∧ ∀ t d, DictDependingOnTau_new reg tau t = Some d →
           reg t = Some d ∨ d = ∅.
Proof.
  unfold DictDependingOnTau_new, tau_to_dict_set.
  destruct (reg tau) as [d0|] eqn:Hd0.
  - split; [apply registry_le_refl|]. split; [by rewrite Hd0|]. auto.
  - split_and!.
    + intros t d Hd. exists d. split; [|done].
      case_decide as Ht; [congruence|done].
    + by rewrite decide_True.
    + intros t d. case_decide; [intros [= <-]; by right|by left].
Qed.

Lemma registry_le_set {V} (reg : registry (F:=F) V) tau (d : gmap nat V) k v :
  reg tau = Some d → d !! k = None →
  registry_le reg (tau_to_dict_set reg tau (<[k := v]> d)).
Proof.
  intros Hd Hk t d0 Hd0. unfold tau_to_dict_set. case_decide as Ht.
  - subst t. exists (<[k := v]> d). split; [done|].
    assert (d0 = d) as -> by congruence. by apply insert_subseteq.
  - by exists d0.
Qed.

(** Calling the classes creates what is missing and keeps what is
    there. *)
Lemma Probabilistic_init_spec st tau :
  cache_ok st →
  ∃ st', Probabilistic_init tau st = Ok (tt, st')
         ∧ cache_ok st' ∧ instances_le st st' ∧ constructed st' tau.
Proof.
  intros (Hm & Hs & Hc).
  unfold Probabilistic_init, CumulationCache_call, SumCache_call,
    MemberCache_call, cbind.
  eexists. split; [reflexivity|]. cbn.
  destruct (registry_le_new (MemberCache_tau_to_dict st) tau) as (Hm1 & Hm2 & Hm3).
  destruct (registry_le_new (DictDependingOnTau_new (MemberCache_tau_to_dict st) tau) tau)
    as (Hm1' & Hm2' & Hm3').
  destruct (registry_le_new (SumCache_tau_to_dict st) tau) as (Hs1 & Hs2 & Hs3).
  destruct (registry_le_new (CumulationCache_tau_to_dict st) tau)
    as (Hc1 & Hc2 & Hc3).
  split_and!.
  - split_and!; cbn.
    + intros t d r x Hd Hx.
      destruct (Hm3' t d Hd) as [Hd'| ->]; [|by rewrite lookup_empty in Hx].
      destruct (Hm3 t d Hd') as [Hd''| ->]; [|by rewrite lookup_empty in Hx].
      by eapply Hm.
    + intros t d r x Hd Hx.
      destruct (Hs3 t d Hd) as [Hd'| ->]; [|by rewrite lookup_empty in Hx].
      by eapply Hs.
    + intros t d r x Hd Hx.
      destruct (Hc3 t d Hd) as [Hd'| ->]; [|by rewrite lookup_empty in Hx].
      by eapply Hc.
  - split_and!; cbn; try done. by eapply registry_le_trans.
  - split_and!; cbn; done.
Qed.

Lemma MemberCache_getitem_spec st tau r :
  cache_ok st → is_Some (MemberCache_tau_to_dict st tau) →
  ∃ st', MemberCache_getitem tau r st = Ok (member_cache tau r, st')
         ∧ cache_ok st' ∧ instances_le st st'.
Proof.
  intros (Hm & Hs & Hc) [d Hd]. unfold MemberCache_getitem. rewrite Hd.
  destruct (d !! r) as [x|] eqn:Hr.
  - exists st. rewrite (Hm tau d r x Hd Hr).
    split_and!; try done. apply instances_le_refl.
  - eexists. split; [reflexivity|]. split.
    + split_and!; cbn; try done.
      intros t d' r' x'. unfold tau_to_dict_set.
      case_decide as Ht; [|by apply Hm]. subst t. intros [= <-].
      rewrite lookup_insert_Some. intros [[<- <-]|[_ Hx]]; [done|].
      by eapply Hm.
    + split_and!; cbn; try apply registry_le_refl.
      by apply registry_le_set.
Qed.

Lemma mapMC_members_spec st tau (rs : list nat) :
  cache_ok st → is_Some (MemberCache_tau_to_dict st tau) →
  ∃ st', mapMC (MemberCache_getitem tau) rs st
         = Ok (map (member_cache tau) rs, st')
         ∧ cache_ok st' ∧ instances_le st st'.
Proof.
  revert st. induction rs as [|r rs IH]; intros st Hok Hsome.
  - exists st. split; [done|]. split; [done|apply instances_le_refl].
  - destruct (MemberCache_getitem_spec st tau r Hok Hsome)
      as (st1 & Hg & Hok1 & Hle1).
    destruct (IH st1 Hok1) as (st' & Hm & Hok' & Hle').
    { destruct Hle1 as (Hle1 & _). by eapply registry_le_is_Some. }
    exists st'. cbn [mapMC map]. unfold cbind. rewrite Hg, Hm.
    split; [done|]. split; [done|]. by eapply instances_le_trans.
Qed.

Lemma SumCache_getitem_spec st tau n :
  cache_ok st → constructed st tau →
  ∃ st', SumCache_getitem tau n st = Ok (sum_cache tau n, st')
         ∧ cache_ok st' ∧ instances_le st st'.
Proof.
  intros Hok (Hms & [d Hd] & _). pose proof Hok as (Hm & Hs & Hc).
  unfold SumCache_getitem. rewrite Hd.
  destruct (d !! n) as [x|] eqn:Hn.
  - exists st. rewrite (Hs tau d n x Hd Hn).
    split_and!; try done. apply instances_le_refl.
  - destruct (mapMC_members_spec st tau (seq 1 n) Hok Hms)
      as (st1 & Hmap & (Hm1 & Hs1 & Hc1) & Hle1).
    unfold cbind. rewrite Hmap. unfold SumCache_setitem.
    destruct Hle1 as (Hlm & Hls & Hlc).
    destruct (Hls tau d Hd) as (d1 & Hd1 & Hsub). rewrite Hd1.
    fold (sum_cache tau n).
    eexists. split; [reflexivity|]. split.
    + split_and!; cbn; try done.
      intros t d' n' x'. unfold tau_to_dict_set.
      case_decide as Ht; [|by apply Hs1]. subst t. intros [= <-].
      rewrite lookup_insert_Some. intros [[<- <-]|[_ Hx]]; [done|].
      by eapply Hs1.
    + split_and!; cbn; try done.
      intros t d0 Hd0. unfold tau_to_dict_set. case_decide as Ht.
      * subst t. exists (<[n := sum_cache tau n]> d1). split; [done|].
        assert (d0 = d) as -> by congruence.
        destruct (d1 !! n) as [y|] eqn:Hy.
        -- rewrite (Hs1 tau d1 n y Hd1 Hy) in Hy.
           by rewrite insert_id.
        -- etrans; [exact Hsub|]. by apply insert_subseteq.
      * by apply Hls.
Qed.

Lemma cumulation_loopM_spec st tau (den : F) rs num res :
  cache_ok st → is_Some (MemberCache_tau_to_dict st tau) →
  ∃ st', cumulation_loopM tau den rs num res st
         = Ok (cumulation_loop tau den rs num res, st')
         ∧ cache_ok st' ∧ instances_le st st'.
Proof.
  revert st num res. induction rs as [|r rs IH]; intros st num res Hok Hsome.
  - exists st. split; [done|]. split; [done|apply instances_le_refl].
  - destruct (MemberCache_getitem_spec st tau r Hok Hsome)
      as (st1 & Hg & Hok1 & Hle1).
    destruct (IH st1 (fadd num (member_cache tau r))
                (res ++ [fdiv (fadd num (member_cache tau r)) den]) Hok1)
      as (st' & Hl & Hok' & Hle').
    { destruct Hle1 as (Hle1 & _). by eapply registry_le_is_Some. }
    exists st'. cbn [cumulation_loopM cumulation_loop]. unfold cbind.
    rewrite Hg. cbn zeta. rewrite Hl.
    split; [done|]. split; [done|]. by eapply instances_le_trans.
Qed.

Lemma CumulationCache_getitem_spec st tau l :
  cache_ok st → constructed st tau →
  ∃ st', CumulationCache_getitem tau l st = Ok (cumulation_cache tau l, st')
         ∧ cache_ok st' ∧ instances_le st st'
         ∧ ∃ d, CumulationCache_tau_to_dict st' tau = Some d
                ∧ d !! l = Some (cumulation_cache tau l).
Proof.
  intros Hok Hcon. pose proof Hcon as (Hms & Hss & [d Hd]).
  pose proof Hok as (Hm & Hs & Hc).
  unfold CumulationCache_getitem. rewrite Hd.
  destruct (d !! l) as [t|] eqn:Hl.
  - exists st. rewrite (Hc tau d l t Hd Hl) in Hl |- *.
    split_and!; try done; [apply instances_le_refl|by exists d].
  - destruct (SumCache_getitem_spec st tau l Hok Hcon)
      as (st1 & Hsum & Hok1 & Hle1).
    destruct (cumulation_loopM_spec st1 tau (sum_cache tau l) (seq 1 (l - 1))
                (of_int 0) [] Hok1)
      as (st2 & Hloop & (Hm2 & Hs2 & Hc2) & Hle2).
    { destruct Hle1 as (Hle1 & _). by eapply registry_le_is_Some. }
    unfold cbind. rewrite Hsum, Hloop. unfold CumulationCache_setitem.
    pose proof (instances_le_trans _ _ _ Hle1 Hle2) as (Hlm & Hls & Hlc).
    destruct (Hlc tau d Hd) as (d2 & Hd2 & Hsub). rewrite Hd2.
    fold (cumulation_cache tau l).
    eexists. split; [reflexivity|]. split_and!.
    + split_and!; cbn; try done.
      intros t d' l' x'. unfold tau_to_dict_set.
      case_decide as Ht; [|by apply Hc2]. subst t. intros [= <-].
      rewrite lookup_insert_Some. intros [[<- <-]|[_ Hx]]; [done|].
      by eapply Hc2.
    + split_and!; cbn; try done.
      intros t d0 Hd0. unfold tau_to_dict_set. case_decide as Ht.
      * subst t. exists (<[l := cumulation_cache tau l]> d2). split; [done|].
        assert (d0 = d) as -> by congruence.
        destruct (d2 !! l) as [y|] eqn:Hy.
        -- rewrite (Hc2 tau d2 l y Hd2 Hy) in Hy.
           by rewrite insert_id.
        -- etrans; [exact Hsub|]. by apply insert_subseteq.
      * by apply Hlc.
    + cbn. unfold tau_to_dict_set. rewrite decide_True by done.
      eexists. split; [done|]. by rewrite lookup_insert_eq.
Qed.
End MemoFacts.



(** ** multileave followed by evaluate *)



(** ** How many random numbers a call draws *)

Section DrawCount.
Context {F : Type} `{FloatOps F}.
Variable tau : F.
Variable rng : Rng F.

Lemma interleave_loop_count n (k : Z) s rls vss out :
  rankings_inv s rls vss → length vss = 2 →
  (Z.of_nat (length (documents out)) + Z.of_nat (S n) = k)%Z →
  ∃ r s',
    interleave_loop tau rng (S n) k rls out s = Ok (Some r, s')
    ∧ draws s' = draws s + 2 * S n.
Proof.
  revert s rls vss out. induction n as [|n IH]; intros s rls vss out Hinv Hlen Hk.
  all: cbn [interleave_loop]; unfold bind at 1; unfold draw at 1.
  all: set (i := Nat.b2n (random_randint rng (draws s))).
  all: assert (i < length vss) as Hi
    by (rewrite Hlen; unfold i; destruct (random_randint rng (draws s)); simpl; lia).
  all: destruct (lookup_lt_is_Some_2 vss i Hi) as [vs Hvs].
  all: destruct (advance_spec tau rng
                   (mkState (nodes s) (pool s) (next_addr s) (S (draws s)))
                   rls vss i vs out (rankings_inv_draws s rls vss _ Hinv) Hvs)
         as (rls' & s1 & Hadv & Hinv' & Hdr); simpl in Hadv, Hinv', Hdr.
  all: unfold bind at 1; rewrite Hadv; unfold len at 1; cbn [documents].
  all: rewrite length_app; cbn [length].
  - destruct (Z.leb_spec k (Z.of_nat (length (documents out) + 1))); [|lia].
    destruct (truncate_all_spec s1 rls' _ Hinv') as (rls2 & s2 & Ht & _ & Hd2).
    unfold bind. rewrite Ht. unfold ret. eexists _, s2. split; [done|]. lia.
  - destruct (Z.leb_spec k (Z.of_nat (length (documents out) + 1))); [lia|].
    destruct (IH s1 rls' _
                (mkRanking
                   (documents out ++ [pick tau (random_random rng (S (draws s))) vs])
                   (rank_to_ranker_index out ++ [i]) (number_of_rankers out))
                Hinv') as (r & s' & Hloop & Hd').
    { by rewrite length_fmap. }
    { simpl. rewrite length_app. simpl. lia. }
    exists r, s'. split; [done|]. lia.
Qed.

Lemma multileave_round_count (k : Z) pop_order s rls vss out :
  rankings_inv s rls vss → Forall (λ i, i < length vss) pop_order →
  length (documents out) < Z.to_nat (Z.max k 1) →
  ∃ res s',
    multileave_round tau rng k pop_order rls out s = Ok (res, s')
    ∧ match res with
      | inr r =>
          draws s' = draws s + (Z.to_nat (Z.max k 1) - length (documents out))
          ∧ Z.to_nat (Z.max k 1) - length (documents out) ≤ length pop_order
      | inl (rls', out') =>
          draws s' = draws s + length pop_order
          ∧ length (documents out')
            = length (documents out) + length pop_order
          ∧ length (documents out') < Z.to_nat (Z.max k 1)
          ∧ ∃ vss', rankings_inv s' rls' vss' ∧ length vss' = length vss
      end.
Proof.
  revert s rls vss out.
  induction pop_order as [|i pop_order IH]; intros s rls vss out Hinv Hidx Hlt.
  - exists (inl (rls, out)), s. split; [done|]. simpl.
    split_and!; try done; try lia. by exists vss.
  - apply Forall_cons in Hidx as [Hi Hidx].
    destruct (lookup_lt_is_Some_2 vss i Hi) as [vs Hvs].
    destruct (advance_spec tau rng s rls vss i vs out Hinv Hvs)
      as (rls' & s1 & Hadv & Hinv' & Hdr).
    cbn [multileave_round]. unfold bind at 1. rewrite Hadv.
    unfold len at 1. cbn [documents]. rewrite length_app. cbn [length].
    destruct (Z.leb_spec k (Z.of_nat (length (documents out) + 1))) as [Hk|Hk].
    + destruct (truncate_all_spec s1 rls' _ Hinv') as (rls2 & s2 & Ht & _ & Hd2).
      unfold bind. rewrite Ht. unfold ret.
      eexists (inr _), s2. split; [done|]. simpl. lia.
    + destruct (IH s1 rls' _
                  (mkRanking (documents out ++ [pick tau (random_random rng (draws s)) vs])
                             (rank_to_ranker_index out ++ [i])
                             (number_of_rankers out)) Hinv')
        as (res & s' & Hround & Hres).
      { by rewrite length_fmap. }
      { simpl. rewrite length_app. simpl. lia. }
      exists res, s'. split; [done|].
      destruct res as [[rls2 out2]|r]; simpl in Hres.
      * destruct Hres as (Hd & Hlo & Hlt' & vss2 & Hinv2 & Hlen2).
        rewrite length_app in Hlo. simpl in Hlo.
        split_and!; simpl; try lia.
        exists vss2. split; [done|]. by rewrite Hlen2, length_fmap.
      * destruct Hres as (Hd & Hle).
        rewrite length_app in Hd, Hle. simpl in Hd, Hle. simpl. lia.
Qed.

Lemma multileave_loop_count (k : Z) fuel s rls vss out :
  shuffle_ok rng → rankings_inv s rls vss → 1 ≤ length vss →
  length (documents out) < Z.to_nat (Z.max k 1) →
  Z.to_nat (Z.max k 1) - length (documents out) ≤ fuel →
  ∃ r s' rounds,
    multileave_loop tau rng fuel k rls out s = Ok (r, s')
    ∧ draws s'
      = draws s + rounds + (Z.to_nat (Z.max k 1) - length (documents out))
    ∧ (rounds - 1) * length vss
      < Z.to_nat (Z.max k 1) - length (documents out)
      ≤ rounds * length vss.
Proof.
  intros Hsh. revert s rls vss out.
  induction fuel as [|fuel IH]; intros s rls vss out Hinv Hn Hlt Hfuel; [lia|].
  cbn [multileave_loop]. unfold bind at 1. unfold draw at 1.
  rewrite (rankings_inv_length _ _ _ Hinv).
  set (perm := random_shuffle rng (draws s) (seq 0 (length vss))).
  assert (perm ≡ₚ seq 0 (length vss)) as Hperm by apply Hsh.
  assert (length (rev perm) = length vss) as Hlp.
  { by rewrite length_rev, Hperm, length_seq. }
  destruct (multileave_round_count k (rev perm)
              (mkState (nodes s) (pool s) (next_addr s) (S (draws s)))
              rls vss out) as (res & s1 & Hround & Hres); try done.
  { apply Forall_forall. intros i Hi.
    rewrite <- Permutation_rev, Hperm in Hi. apply elem_of_seq in Hi. lia. }
  unfold bind. rewrite Hround.
  destruct res as [[rls' out']|r].
  - destruct Hres as (Hd & Hlo & Hlt' & vss' & Hinv' & Hlen').
    simpl in Hd.
    destruct (IH s1 rls' vss' out') as (r & s' & rounds & Hloop & Hd' & Hr');
      try done; try lia.
    exists r, s', (S rounds). split; [done|].
    rewrite Hlen', Hlo, Hlp in Hr'. rewrite Hd', Hd, Hlo, Hlp. nia.
  - destruct Hres as (Hd & Hle). exists r, s1, 1. split; [done|].
    simpl in Hd. rewrite Hlp in Hle. lia.
Qed.
End DrawCount.





(** ** The linked lists implement the methods on plain lists *)

Section OnListsFacts.
Context {F : Type} `{FloatOps F}.
Variable tau : F.
Variable rng : Rng F.

Lemma advance_on_lists_spec s rls vss i out :
  rankings_inv s rls vss → i < length vss →
  ∃ rls' s',
    _advance tau rng rls i out s
    = Ok ((rls', (advance_on_lists tau rng (draws s) vss i out).2), s')
    ∧ rankings_inv s' rls' (advance_on_lists tau rng (draws s) vss i out).1
    ∧ draws s' = S (draws s).
Proof.
  intros Hinv Hi. destruct (lookup_lt_is_Some_2 vss i Hi) as [vs Hvs].
  destruct (advance_spec tau rng s rls vss i vs out Hinv Hvs)
    as (rls' & s' & Hadv & Hinv' & Hdr).
  exists rls', s'. unfold advance_on_lists. rewrite Hvs. by cbn.
Qed.

Lemma interleave_loop_on_lists_spec n (k : Z) s rls vss out :
  rankings_inv s rls vss → length vss = 2 →
  (Z.of_nat (length (documents out)) + Z.of_nat (S n) = k)%Z →
  ∃ s',
    interleave_loop tau rng (S n) k rls out s
    = Ok (Some (interleave_loop_on_lists tau rng (S n) (draws s) vss out), s').
Proof.
  revert s rls vss out. induction n as [|n IH]; intros s rls vss out Hinv Hlen Hk.
  all: cbn [interleave_loop interleave_loop_on_lists];
    unfold bind at 1; unfold draw at 1.
  all: set (i := Nat.b2n (random_randint rng (draws s))).
  all: assert (i < length vss) as Hi
    by (rewrite Hlen; unfold i; destruct (random_randint rng (draws s)); simpl; lia).
  all: destruct (advance_on_lists_spec
                   (mkState (nodes s) (pool s) (next_addr s) (S (draws s)))
                   rls vss i out (rankings_inv_draws s rls vss _ Hinv))
         as (rls' & s1 & Hadv & Hinv' & Hdr);
    [by rewrite Hlen in *|].
  all: cbn [draws] in Hadv, Hinv', Hdr.
  all: unfold bind at 1; rewrite Hadv.
  all: destruct (advance_on_lists tau rng (S (draws s)) vss i out)
         as [vss' out'] eqn:Eadv.
  all: assert (length (documents out') = S (length (documents out))
               ∧ length vss' = length vss) as [Hlo Hlv]
    by (unfold advance_on_lists in Eadv; injection Eadv as <- <-;
        cbn [documents]; rewrite length_app, length_fmap; simpl; lia).
  all: cbn [fst snd] in *; unfold len at 1; rewrite Hlo.
  - destruct (Z.leb_spec k (Z.of_nat (S (length (documents out))))); [|lia].
    destruct (truncate_all_spec s1 rls' _ Hinv') as (rls2 & s2 & Ht & _ & _).
    unfold bind. rewrite Ht. unfold ret. by exists s2.
  - destruct (Z.leb_spec k (Z.of_nat (S (length (documents out))))); [lia|].
    destruct (IH s1 rls' vss' out' Hinv') as (s' & Hloop).
    { congruence. } { lia. }
    exists s'. rewrite Hdr in Hloop. exact Hloop.
Qed.

Lemma multileave_round_on_lists_spec (k : Z) pop_order s rls vss out :
  rankings_inv s rls vss → Forall (λ i, i < length vss) pop_order →
  length (documents out) < Z.to_nat (Z.max k 1) →
  ∃ res s',
    multileave_round tau rng k pop_order rls out s = Ok (res, s')
    ∧ match res with
      | inr r =>
          multileave_round_on_lists tau rng k pop_order (draws s) vss out
          = inr r
      | inl (rls', out') =>
          ∃ vss', rankings_inv s' rls' vss' ∧ length vss' = length vss
            ∧ multileave_round_on_lists tau rng k pop_order (draws s) vss out
              = inl (vss', out', draws s')
            ∧ length (documents out')
              = length (documents out) + length pop_order
            ∧ length (documents out') < Z.to_nat (Z.max k 1)
      end.
Proof.
  revert s rls vss out.
  induction pop_order as [|i pop_order IH]; intros s rls vss out Hinv Hidx Hlt.
  - exists (inl (rls, out)), s. split; [done|]. exists vss.
    simpl. split_and!; try done; lia.
  - apply Forall_cons in Hidx as [Hi Hidx].
    destruct (advance_on_lists_spec s rls vss i out Hinv Hi)
      as (rls' & s1 & Hadv & Hinv' & Hdr).
    cbn [multileave_round multileave_round_on_lists].
    unfold bind at 1. rewrite Hadv.
    destruct (advance_on_lists tau rng (draws s) vss i out)
      as [vss' out'] eqn:Eadv.
    assert (length (documents out') = S (length (documents out))
            ∧ length vss' = length vss) as [Hlo Hlv]
      by (unfold advance_on_lists in Eadv; injection Eadv as <- <-;
          cbn [documents]; rewrite length_app, length_fmap; simpl; lia).
    cbn [fst snd] in *. unfold len. rewrite Hlo.
    destruct (Z.leb_spec k (Z.of_nat (S (length (documents out))))) as [Hk|Hk].
    + destruct (truncate_all_spec s1 rls' _ Hinv') as (rls2 & s2 & Ht & _ & _).
      unfold bind. rewrite Ht. unfold ret. by exists (inr out'), s2.
    + destruct (IH s1 rls' vss' out' Hinv') as (res & s' & Hround & Hres).
      { by rewrite Hlv. } { lia. }
      exists res, s'. split; [done|]. rewrite <- Hdr.
      destruct res as [[rls2 out2]|r]; [|done].
      destruct Hres as (vss2 & ? & ? & ? & ? & ?).
      exists vss2. split_and!; try done; try congruence. simpl. lia.
Qed.

Lemma multileave_loop_on_lists_spec (k : Z) fuel s rls vss out :
  shuffle_ok rng → rankings_inv s rls vss → 1 ≤ length vss →
  length (documents out) < Z.to_nat (Z.max k 1) →
  Z.to_nat (Z.max k 1) - length (documents out) ≤ fuel →
  ∃ r s',
    multileave_loop tau rng fuel k rls out s = Ok (r, s')
    ∧ multileave_loop_on_lists tau rng fuel k (draws s) vss out = Some r.
Proof.
  intros Hsh. revert s rls vss out.
  induction fuel as [|fuel IH]; intros s rls vss out Hinv Hn Hlt Hfuel; [lia|].
  cbn [multileave_loop multileave_loop_on_lists].
  unfold bind at 1. unfold draw at 1.
  rewrite (rankings_inv_length _ _ _ Hinv).
  set (perm := random_shuffle rng (draws s) (seq 0 (length vss))).
  assert (perm ≡ₚ seq 0 (length vss)) as Hperm by apply Hsh.
  assert (length (rev perm) = length vss) as Hlp.
  { by rewrite length_rev, Hperm, length_seq. }
  destruct (multileave_round_on_lists_spec k (rev perm)
              (mkState (nodes s) (pool s) (next_addr s) (S (draws s)))
              rls vss out) as (res & s1 & Hround & Hres); try done.
  { apply Forall_forall. intros i Hi.
    rewrite <- Permutation_rev, Hperm in Hi. apply elem_of_seq in Hi. lia. }
  unfold bind. rewrite Hround. cbn [draws] in Hres.
  destruct res as [[rls' out']|r].
  - destruct Hres as (vss' & Hinv' & Hlen' & Hpure & Hlo & Hlt').
    rewrite Hpure.
    destruct (IH s1 rls' vss' out') as (r & s' & Hloop & Hr);
      try done; try lia.
    by exists r, s'.
  - rewrite Hres. by exists r, s1.
Qed.

Lemma interleave_loop_on_lists_swap n c (x y : list Doc) out out' :
  documents out' = documents out →
  rank_to_ranker_index out'
  = (λ i, 1 - i) <$> rank_to_ranker_index out →
  number_of_rankers out' = number_of_rankers out →
  let r := interleave_loop_on_lists tau rng n c [x; y] out in
  let r' := interleave_loop_on_lists tau (swap_rankers rng) n c [y; x] out' in
  documents r' = documents r
  ∧ rank_to_ranker_index r' = (λ i, 1 - i) <$> rank_to_ranker_index r
  ∧ number_of_rankers r' = number_of_rankers r.
Proof.
  revert c x y out out'. induction n as [|n IH]; intros c x y out out' Hd Hi Hn.
  - by cbn.
  - cbn [interleave_loop_on_lists]. unfold advance_on_lists.
    cbn [swap_rankers random_randint random_random].
    destruct (random_randint rng c); cbn [negb Nat.b2n lookup list_lookup default];
      rewrite !fmap_cons; cbn [fmap list_fmap].
    all: apply IH; cbn [documents rank_to_ranker_index number_of_rankers];
      [by rewrite Hd|by rewrite Hi, fmap_app|done].
Qed.
Lemma interleave_build (a b : list Doc) s :
  heap_wf s → NoDup a → NoDup b →
  ∃ ra sa rb s1,
    RemovalList_init a s = Ok (ra, sa)
    ∧ RemovalList_init b sa = Ok (rb, s1)
    ∧ rankings_inv s1 [ra; rb] [a; b] ∧ draws s1 = draws s.
Proof.
  intros Hwf Ha Hb.
  destruct (build_rankings_spec [a; b] s Hwf) as (rls & s1 & Hb1 & Hinv & Hdr).
  { by repeat constructor. }
  pose proof (rankings_inv_length _ _ _ Hinv) as Hl.
  destruct rls as [|ra [|rb [|? ?]]]; try done.
  cbn [forM] in Hb1. unfold bind, ret in Hb1.
  destruct (RemovalList_init a s) as [[ra' sa]| |] eqn:Ea; try done.
  destruct (RemovalList_init b sa) as [[rb' sb]| |] eqn:Eb; try done.
  injection Hb1 as -> -> ->. by exists ra, sa, rb, s1.
Qed.
End OnListsFacts.






